(** * Beam-search utilities of the graph-augmented summariser

    A shallow embedding of [graph_augmented_sum/model/beam_search.py] and the
    properties its specification states about it.

    Conventions of the embedding.
    - Python integers (token ids) are [Z]; lengths and the beam size are [nat].
    - Python floats are idealised as exact rationals [Q]; equalities between
      scores are therefore stated with [==].  The one float operation with no
      rational counterpart, exponentiation [**], is a parameter of the
      development ([float_pow]).
    - Exceptions are values of [result]: a computation either returns
      ([Ok]) or raises ([Raise]).
    - torch tensors are nested lists ([tensor]); a decoder state, which the
      code inspects dynamically (tuple or tensor), is a [pyval]. *)

From Stdlib Require Import List ZArith QArith Qround Lia Lqa Bool Arith.
From Stdlib Require Import Sorted Permutation.
Import ListNotations.

Set Implicit Arguments.
Set Warnings "-register-all".

(** ** Exceptions *)

Inductive exn : Set :=
| IndexError
| ZeroDivisionError
| ValueError
| TypeError
| RuntimeError.

Inductive result (A : Type) : Type :=
| Ok (a : A)
| Raise (e : exn).

Arguments Ok {A} a.
Arguments Raise {A} e.

Definition bind {A B : Type} (c : result A) (k : A -> result B) : result B :=
  match c with
  | Ok a => k a
  | Raise e => Raise e
  end.

Notation "x <- c ;; k" := (bind c (fun x => k))
  (at level 61, c at next level, right associativity).
Notation "' pat <- c ;; k" := (bind c (fun x => match x with pat => k end))
  (at level 61, pat pattern, c at next level, right associativity).

(** [[f(x) for x in xs]] where [f] may raise: the first exception wins. *)
Fixpoint mapM {A B : Type} (f : A -> result B) (xs : list A) : result (list B) :=
  match xs with
  | [] => Ok []
  | x :: xs' => y <- f x ;; ys <- mapM f xs' ;; Ok (y :: ys)
  end.

(** [xs[i]] on a Python list, for [i >= 0]. *)
Definition getitem {A : Type} (xs : list A) (i : nat) : result A :=
  match nth_error xs i with
  | Some x => Ok x
  | None => Raise IndexError
  end.

(** [xs[-1]]. *)
Definition last_item {A : Type} (xs : list A) : result A :=
  match xs with
  | [] => Raise IndexError
  | x :: xs' => Ok (last xs' x)
  end.

(** [xs[i:j]] for [0 <= i]. *)
Definition slice {A : Type} (xs : list A) (i j : nat) : list A :=
  firstn (j - i) (skipn i xs).

(** [x / y] on floats: division by zero raises. *)
Definition py_div (x y : Q) : result Q :=
  if Qeq_bool y 0 then Raise ZeroDivisionError else Ok (x / y).

(** ** Trigram repetition *)

Definition token := Z.

(** A tuple of tokens, as built by [tuple(grams[i:i+3])]. *)
Definition gram := list token.

Definition gram_eq_dec : forall g1 g2 : gram, {g1 = g2} + {g1 <> g2} :=
  list_eq_dec Z.eq_dec.

(** [collections.Counter]: keys in order of first insertion, with counts. *)
Definition Counter_t := list (gram * nat).

Fixpoint counter_incr (cnt : Counter_t) (g : gram) : Counter_t :=
  match cnt with
  | [] => [(g, 1%nat)]
  | (g', n) :: cnt' =>
      if gram_eq_dec g g' then (g', S n) :: cnt'
      else (g', n) :: counter_incr cnt' g
  end.

Definition Counter (gs : list gram) : Counter_t :=
  fold_left counter_incr gs [].

(** [cnt[g]]: a missing key counts zero. *)
Fixpoint counter_get (cnt : Counter_t) (g : gram) : nat :=
  match cnt with
  | [] => 0%nat
  | (g', n) :: cnt' => if gram_eq_dec g g' then n else counter_get cnt' g
  end.

Definition counter_keys (cnt : Counter_t) : list gram := map fst cnt.

Definition tri_grams (grams : list token) : list gram :=
  map (fun i => slice grams i (i + 3)) (seq 0 (length grams - 2)).

Definition _has_repeat_tri (grams : list token) : bool :=
  let cnt := Counter (tri_grams grams) in
  negb (forallb (fun g => (counter_get cnt g <=? 1)%nat) (counter_keys cnt)).

(** ** Tensors and dynamically typed values *)

(** A torch tensor as nested lists: a 0-d tensor is a [Scalar], an n-d tensor
    the list of its slices along dimension 0.  (A dimension of extent 0 hides
    the extents after it; no property below depends on them.) *)
Inductive tensor (A : Type) : Type :=
| Scalar (x : A)
| Nest (rows : list (tensor A)).

Arguments Scalar {A} x.
Arguments Nest {A} rows.

(** A value whose type the code inspects at run time: the decoder state is
    either one tensor or a tuple of states. *)
Inductive pyval : Type :=
| PTensor (t : tensor Q)
| PTuple (items : list pyval).

(** [t.size()] *)
Fixpoint tensor_size {A : Type} (t : tensor A) : list nat :=
  match t with
  | Scalar _ => []
  | Nest [] => [0%nat]
  | Nest ((r :: _) as rows) => length rows :: tensor_size r
  end.

(** [for r in t]: iterating a 0-d tensor is a TypeError. *)
Definition tensor_iter {A : Type} (t : tensor A) : result (list (tensor A)) :=
  match t with
  | Scalar _ => Raise TypeError
  | Nest rows => Ok rows
  end.

(** [t.item()]: only a tensor with exactly one element converts. *)
Fixpoint item {A : Type} (t : tensor A) : result A :=
  match t with
  | Scalar x => Ok x
  | Nest [r] => item r
  | Nest _ => Raise ValueError
  end.

(** [t[i]] on a tensor. *)
Definition tensor_getitem {A : Type} (t : tensor A) (i : nat) : result (tensor A) :=
  match t with
  | Scalar _ => Raise IndexError
  | Nest rows => getitem rows i
  end.

(** [len(v)] *)
Definition py_len (v : pyval) : result nat :=
  match v with
  | PTuple items => Ok (length items)
  | PTensor (Nest rows) => Ok (length rows)
  | PTensor (Scalar _) => Raise TypeError
  end.

(** [v[i]] for an integer [i >= 0]. *)
Definition py_getitem (v : pyval) (i : nat) : result pyval :=
  match v with
  | PTuple items => getitem items i
  | PTensor t => r <- tensor_getitem t i ;; Ok (PTensor r)
  end.

(** The tensor a value must be where torch expects one. *)
Definition as_tensor (v : pyval) : result (tensor Q) :=
  match v with
  | PTensor t => Ok t
  | PTuple _ => Raise TypeError
  end.

(** [t[:, i, :]]: needs three dimensions and [i] inside the second. *)
Definition tensor_slice_mid {A : Type} (t : tensor A) (i : nat) : result (tensor A) :=
  match t with
  | Scalar _ => Raise IndexError
  | Nest rows =>
      rs <- mapM (fun r =>
                    match r with
                    | Scalar _ => Raise IndexError
                    | Nest cols =>
                        c <- getitem cols i ;;
                        match c with
                        | Scalar _ => Raise IndexError
                        | Nest _ => Ok c
                        end
                    end) rows ;;
      Ok (Nest rs)
  end.

(** [t[i, :]]: needs two dimensions and [i] inside the first. *)
Definition tensor_slice_row {A : Type} (t : tensor A) (i : nat) : result (tensor A) :=
  match t with
  | Scalar _ => Raise IndexError
  | Nest rows =>
      c <- getitem rows i ;;
      match c with
      | Scalar _ => Raise IndexError
      | Nest _ => Ok c
      end
  end.

(** The same two subscripts on a dynamically typed value: a tuple cannot be
    indexed by a tuple of subscripts. *)
Definition slice_mid (v : pyval) (i : nat) : result pyval :=
  match v with
  | PTuple _ => Raise TypeError
  | PTensor t => r <- tensor_slice_mid t i ;; Ok (PTensor r)
  end.

Definition slice_row (v : pyval) (i : nat) : result pyval :=
  match v with
  | PTuple _ => Raise TypeError
  | PTensor t => r <- tensor_slice_row t i ;; Ok (PTensor r)
  end.

(** Slice [l] of [t] along dimension 0, for [l] in range. *)
Definition tensor_row {A : Type} (l : nat) (t : tensor A) : tensor A :=
  match t with
  | Scalar _ => t
  | Nest rows => nth l rows (Nest [])
  end.

Fixpoint stack_at {A : Type} (dim : nat) (ts : list (tensor A)) : tensor A :=
  match dim with
  | O => Nest ts
  | S d =>
      Nest (map (fun l => stack_at d (map (tensor_row l) ts))
                (seq 0 (hd 0%nat (tensor_size (hd (Nest []) ts)))))
  end.

Definition size_eqb (s1 s2 : list nat) : bool :=
  if list_eq_dec Nat.eq_dec s1 s2 then true else false.

(** [torch.stack(ts, dim=dim)]: the list must be non-empty, its tensors of
    equal size, and [dim] at most their number of dimensions. *)
Definition torch_stack {A : Type} (ts : list (tensor A)) (dim : nat)
  : result (tensor A) :=
  match ts with
  | [] => Raise RuntimeError
  | t0 :: ts' =>
      if negb (forallb (fun t => size_eqb (tensor_size t) (tensor_size t0)) ts')
      then Raise RuntimeError
      else if (length (tensor_size t0) <? dim)%nat then Raise IndexError
      else Ok (stack_at dim ts)
  end.

(** [a + b] on tensors of equal size, element by element.  Broadcasting
    between operands of different sizes is not modelled: it is reported as a
    RuntimeError. *)
Fixpoint tensor_add (a b : tensor Q) {struct a} : result (tensor Q) :=
  match a, b with
  | Scalar x, Scalar y => Ok (Scalar (x + y))
  | Nest ra, Nest rb =>
      rs <- (fix go (ra rb : list (tensor Q)) {struct ra} : result (list (tensor Q)) :=
               match ra, rb with
               | [], [] => Ok []
               | x :: ra', y :: rb' =>
                   z <- tensor_add x y ;; zs <- go ra' rb' ;; Ok (z :: zs)
               | _, _ => Raise RuntimeError
               end) ra rb ;;
      Ok (Nest rs)
  | _, _ => Raise RuntimeError
  end.

(** ** Hypotheses *)

Record _Hypothesis : Type := mkHypothesis {
  sequence : list token;
  logprob : Q;
  hists : pyval;
  attns : list (tensor Q);
  coverage : option (tensor Q)
}.

(** [len(xs)] as a float operand. *)
Definition len_Q {A : Type} (xs : list A) : Q := inject_Z (Z.of_nat (length xs)).

(** [for i, x in enumerate(xs)] *)
Definition enumerate {A : Type} (xs : list A) : list (nat * A) :=
  combine (seq 0 (length xs)) xs.

Definition extend_k (self : _Hypothesis) (topk : tensor Z) (logprobs : tensor Q)
  (hists' : pyval) (attn : option (tensor Q)) (diverse : Q)
  : result (list _Hypothesis) :=
  '(attns', coverage') <-
     match attn with
     | None => Ok ([], coverage self)
     | Some a =>
         cov <- match coverage self with
                | None => Ok a
                | Some c => tensor_add c a
                end ;;
         Ok (attns self ++ [a], Some cov)
     end ;;
  ts <- tensor_iter topk ;;
  lps <- tensor_iter logprobs ;;
  mapM (fun '(i, (t, lp)) =>
          tv <- item t ;;
          lv <- item lp ;;
          Ok (mkHypothesis (sequence self ++ [tv])
                           (logprob self + lv - diverse * inject_Z (Z.of_nat i))
                           hists' attns' coverage'))
       (enumerate (combine ts lps)).

(** The plain-mean normalised score [h.logprob / len(h.sequence)]. *)
Definition mean_score (h : _Hypothesis) : result Q :=
  py_div (logprob h) (len_Q (sequence h)).

Definition Qlt_bool (x y : Q) : bool := negb (Qle_bool y x).

(** [self < other] *)
Definition __lt__ (self other : _Hypothesis) : result bool :=
  a <- mean_score other ;;
  b <- mean_score self ;;
  Ok (Qlt_bool a b).

Definition init_beam (start : token) (hists0 : pyval) : list _Hypothesis :=
  [mkHypothesis [start] 0 hists0 [] None].

(** ** Packing and unpacking decoder state *)

(** [[hyp.hists[i] for hyp in hyps]] stacked along dimension [d]. *)
Definition stack_part (hyps : list _Hypothesis) (i d : nat) : result (tensor Q) :=
  parts <- mapM (fun hyp => py_getitem (hists hyp) i) hyps ;;
  ts <- mapM as_tensor parts ;;
  torch_stack ts d.

(** [pack_beam(hyps, device, use_t5)]; moving a tensor to a device leaves its
    value alone, so [device] is dropped. *)
Definition pack_beam (hyps : list _Hypothesis) (use_t5 : bool)
  : result (tensor Z * pyval) :=
  toks <- mapM (fun h => last_item (sequence h)) hyps ;;
  let token := Nest (map Scalar toks) in
  if use_t5 then
    ts <- mapM (fun hyp => as_tensor (hists hyp)) hyps ;;
    states <- torch_stack ts 1 ;;
    Ok (token, PTensor states)
  else
    h0 <- stack_part hyps 0 1 ;;
    h1 <- stack_part hyps 1 1 ;;
    h2 <- stack_part hyps 2 0 ;;
    Ok (token, PTuple [PTuple [PTensor h0; PTensor h1]; PTensor h2]).

(** What [_unpack_topk] returns: three lists, and a fourth only when an
    attention tensor was given. *)
Definition unpacked : Type :=
  (list (tensor Z) * list (tensor Q) * list pyval * option (list (tensor Q)))%type.

Definition _unpack_topk (topk : tensor Z) (lp : tensor Q) (hists' : pyval)
  (attn : option (tensor Q)) : result unpacked :=
  match tensor_size topk with
  | [beam; _] =>
      topks <- tensor_iter topk ;;
      lps <- tensor_iter lp ;;
      n <- py_len hists' ;;
      k_hists <-
        (if (n =? 3)%nat then
           mapM (fun i =>
                   p0 <- py_getitem hists' 0 ;;
                   s0 <- slice_mid p0 i ;;
                   p1 <- py_getitem hists' 1 ;;
                   s1 <- slice_mid p1 i ;;
                   p2 <- py_getitem hists' 2 ;;
                   s2 <- slice_row p2 i ;;
                   Ok (PTuple [s0; s1; s2]))
                (seq 0 beam)
         else
           mapM (fun i => slice_mid hists' i) (seq 0 beam)) ;;
      match attn with
      | None => Ok (topks, lps, k_hists, None)
      | Some a =>
          attns' <- mapM (fun i => tensor_getitem a i) (seq 0 beam) ;;
          Ok (topks, lps, k_hists, Some attns')
      end
  | _ => Raise ValueError
  end.

(** ** Selecting the next beam *)

(** The repetition sentinel [-1e9]. *)
Definition sentinel : Q := - (1000000000 # 1).

Definition set_logprob (h : _Hypothesis) (v : Q) : _Hypothesis :=
  mkHypothesis (sequence h) v (hists h) (attns h) (coverage h).

(** [sorted(xs, reverse=True, key=key)]: the keys are computed first, then
    the list is sorted stably, greater keys first. *)
Fixpoint insert_desc {A : Type} (kx : Q * A) (l : list (Q * A)) : list (Q * A) :=
  match l with
  | [] => [kx]
  | ky :: l' =>
      if Qle_bool (fst ky) (fst kx) then kx :: ky :: l'
      else ky :: insert_desc kx l'
  end.

Definition sort_desc {A : Type} (l : list (Q * A)) : list (Q * A) :=
  fold_right insert_desc [] l.

Definition sorted_reverse {A : Type} (key : A -> result Q) (xs : list A)
  : result (list A) :=
  ks <- mapM key xs ;;
  Ok (map snd (sort_desc (combine ks xs))).

(** The state of the selection loop.  [ls_visited] is not a variable of the
    code: it records the candidate objects the iteration has reached, as the
    in-place write [h.logprob = -1e9] leaves them, so that the write stays
    observable for candidates that are dropped.  The candidates of one pool
    are distinct objects (they are created by [extend_k]), and neither the
    parents nor the finished hypotheses are written to, so the values below
    are the ones the Python objects hold. *)
Record loop_state : Type := mkLoop {
  ls_broke : bool;
  ls_finished : list _Hypothesis;
  ls_new_beam : list _Hypothesis;
  ls_visited : list _Hypothesis
}.

(** The [while len(new_beam) < beam_size: new_beam.append(new_beam[0])] loop;
    [n] bounds the iterations left, [beam_size - len(new_beam)]. *)
Fixpoint ensure_beam_size (n : nat) (new_beam : list _Hypothesis)
  : result (list _Hypothesis) :=
  match n with
  | O => Ok new_beam
  | S n' =>
      h0 <- getitem new_beam 0 ;;
      ensure_beam_size n' (new_beam ++ [h0])
  end.

(** The [for h in sorted(...)] loop of [_clean_beam]. *)
Fixpoint clean_loop (end_tok : token) (beam_size : nat) (remove_tri : bool)
  (pool finished new_beam visited : list _Hypothesis) : result loop_state :=
  match pool with
  | [] => Ok (mkLoop false finished new_beam visited)
  | h :: pool' =>
      let h := if remove_tri && _has_repeat_tri (sequence h)
               then set_logprob h sentinel else h in
      tok <- last_item (sequence h) ;;
      let finished' :=
        if Z.eqb tok end_tok
        then finished ++ [mkHypothesis (removelast (sequence h)) (logprob h)
                                       (hists h) (attns h) (coverage h)]
        else finished in
      let new_beam' := if Z.eqb tok end_tok then new_beam else new_beam ++ [h] in
      if (length new_beam' =? beam_size)%nat
      then Ok (mkLoop true finished' new_beam' (visited ++ [h]))
      else clean_loop end_tok beam_size remove_tri pool' finished' new_beam'
                      (visited ++ [h])
  end.

(** The [for h in sorted(...)] loop of [_clean_beam_cnn]. *)
Fixpoint clean_loop_cnn (end_tok : token) (beam_size : nat) (remove_tri : bool)
  (pool finished new_beam visited : list _Hypothesis) : result loop_state :=
  match pool with
  | [] => Ok (mkLoop false finished new_beam visited)
  | h :: pool' =>
      if remove_tri && _has_repeat_tri (sequence h) then
        clean_loop_cnn end_tok beam_size remove_tri pool' finished new_beam
                       (visited ++ [set_logprob h sentinel])
      else
        tok <- last_item (sequence h) ;;
        let finished' :=
          if Z.eqb tok end_tok
          then finished ++ [mkHypothesis (removelast (sequence h)) (logprob h)
                                         (hists h) (attns h) None]
          else finished in
        let new_beam' := if Z.eqb tok end_tok then new_beam else new_beam ++ [h] in
        if (length new_beam' =? beam_size)%nat
        then Ok (mkLoop true finished' new_beam' (visited ++ [h]))
        else clean_loop_cnn end_tok beam_size remove_tri pool' finished' new_beam'
                            (visited ++ [h])
  end.

(** What follows either loop: the [else] branch of the [for] pads the beam
    when the loop was not left by [break], then the finished list is sorted by
    the plain mean. *)
Definition finish_step (beam_size : nat) (st : loop_state) : result loop_state :=
  new_beam <- (if ls_broke st then Ok (ls_new_beam st)
               else ensure_beam_size (beam_size - length (ls_new_beam st))
                                     (ls_new_beam st)) ;;
  finished <- sorted_reverse mean_score (ls_finished st) ;;
  Ok (mkLoop (ls_broke st) finished new_beam (ls_visited st)).

Definition _clean_beam_cnn_run (finished beam : list _Hypothesis) (end_tok : token)
  (beam_size : nat) (remove_tri : bool) : result loop_state :=
  pool <- sorted_reverse mean_score beam ;;
  st <- clean_loop_cnn end_tok beam_size remove_tri pool finished [] [] ;;
  finish_step beam_size st.

Definition _clean_beam_cnn (finished beam : list _Hypothesis) (end_tok : token)
  (beam_size : nat) (remove_tri : bool)
  : result (list _Hypothesis * list _Hypothesis) :=
  st <- _clean_beam_cnn_run finished beam end_tok beam_size remove_tri ;;
  Ok (ls_finished st, ls_new_beam st).

(** [for i, h in enumerate(beam)]: extend hypothesis [i] with row [i]. *)
Definition extend_all (beam : list _Hypothesis) (topks : list (tensor Z))
  (lps : list (tensor Q)) (hists_list : list pyval) (attns' : list (tensor Q))
  (diverse : Q) : result (list (list _Hypothesis)) :=
  mapM (fun '(i, h) =>
          t <- getitem topks i ;;
          l <- getitem lps i ;;
          hs <- getitem hists_list i ;;
          a <- getitem attns' i ;;
          extend_k h t l hs (Some a) diverse)
       (enumerate beam).

(** The four-name unpacking of the result of [_unpack_topk], which returns
    three values when no attention was given. *)
Definition unpack4 (u : unpacked)
  : result (list (tensor Z) * list (tensor Q) * list pyval * list (tensor Q)) :=
  match u with
  | (topks, lps, hists_list, Some attns') => Ok (topks, lps, hists_list, attns')
  | (_, _, _, None) => Raise ValueError
  end.

Definition next_search_beam_cnn (beam : list _Hypothesis) (beam_size : nat)
  (finished : list _Hypothesis) (end_tok : token) (topk : tensor Z)
  (lp : tensor Q) (hists' : pyval) (attn : option (tensor Q)) (diverse : Q)
  : result (list _Hypothesis * list _Hypothesis) :=
  u <- _unpack_topk topk lp hists' attn ;;
  '(topks, lps, hists_list, attns') <- unpack4 u ;;
  hyps_lists <- extend_all beam topks lps hists_list attns' diverse ;;
  _clean_beam_cnn finished (concat hyps_lists) end_tok beam_size true.

(** [best_sequence] returns the sequence alone, or with the attention
    history when there is one. *)
Inductive best : Type :=
| BestSeq (s : list token)
| BestSeqAttns (s : list token) (a : list (tensor Q)).

Definition nonempty {A : Type} (xs : list A) : bool :=
  match xs with [] => false | _ :: _ => true end.

Definition best_sequence (finished : list _Hypothesis)
  (beam : option (list _Hypothesis)) : result best :=
  best_beam <-
    match beam with
    | None => getitem finished 0
    | Some beam =>
        c <- (if nonempty finished then
                b0 <- getitem beam 0 ;;
                f0 <- getitem finished 0 ;;
                __lt__ b0 f0
              else Ok false) ;;
        if (c : bool) then getitem finished 0 else getitem beam 0
    end ;;
  let best_seq := skipn 1 (sequence best_beam) in
  if nonempty (attns best_beam)
  then Ok (BestSeqAttns best_seq (attns best_beam))
  else Ok (BestSeq best_seq).

(** ** The soft-penalise variant, which ranks by the Wu length penalty *)

Section WuScore.

(** Float exponentiation [x ** y]. *)
Variable float_pow : Q -> Q -> Q.

Definition length_wu (cur_len : nat) (alpha : Q) : Q :=
  float_pow ((5 + inject_Z (Z.of_nat cur_len)) / 6) alpha.

(** The key [h.logprob / length_wu(len(h.sequence), alpha=0.9)]. *)
Definition wu_score (h : _Hypothesis) : result Q :=
  py_div (logprob h) (length_wu (length (sequence h)) (9 # 10)).

Definition _clean_beam_run (finished beam : list _Hypothesis) (end_tok : token)
  (beam_size : nat) (remove_tri : bool) : result loop_state :=
  pool <- sorted_reverse wu_score beam ;;
  st <- clean_loop end_tok beam_size remove_tri pool finished [] [] ;;
  finish_step beam_size st.

Definition _clean_beam (finished beam : list _Hypothesis) (end_tok : token)
  (beam_size : nat) (remove_tri : bool)
  : result (list _Hypothesis * list _Hypothesis) :=
  st <- _clean_beam_run finished beam end_tok beam_size remove_tri ;;
  Ok (ls_finished st, ls_new_beam st).

Definition next_search_beam (beam : list _Hypothesis) (beam_size : nat)
  (finished : list _Hypothesis) (end_tok : token) (topk : tensor Z)
  (lp : tensor Q) (hists' : pyval) (attn : option (tensor Q)) (diverse : Q)
  : result (list _Hypothesis * list _Hypothesis) :=
  u <- _unpack_topk topk lp hists' attn ;;
  '(topks, lps, hists_list, attns') <- unpack4 u ;;
  hyps_lists <- extend_all beam topks lps hists_list attns' diverse ;;
  _clean_beam finished (concat hyps_lists) end_tok beam_size true.

End WuScore.

(** ** The remaining functions of the module *)

(** [create_beam(tok, lp, hists)]: one hypothesis per entry of the first
    dimension of [tok]. *)
Definition create_beam (tok : tensor Z) (lp : tensor Q) (hists0 : pyval)
  : result (list _Hypothesis) :=
  match tensor_size tok with
  | [] => Raise IndexError
  | k :: _ =>
      mapM (fun i =>
              t <- tensor_getitem tok i ;;
              tv <- item t ;;
              l <- tensor_getitem lp i ;;
              lv <- item l ;;
              Ok (mkHypothesis [tv] lv hists0 [] None))
           (seq 0 k)
  end.

(** A function applied to every entry of a tensor. *)
Fixpoint tensor_map {A B : Type} (f : A -> B) (t : tensor A) : tensor B :=
  match t with
  | Scalar x => Scalar (f x)
  | Nest rows => Nest (map (tensor_map f) rows)
  end.

Definition is_scalar {A : Type} (t : tensor A) : bool :=
  match t with
  | Scalar _ => true
  | Nest _ => false
  end.

Definition scalar_value (t : tensor Q) : Q :=
  match t with
  | Scalar x => x
  | Nest _ => 0
  end.

(** The sum of a list of floats, from the left. *)
Definition Qsum (xs : list Q) : Q := fold_left Qplus xs 0.

(** [t.sum(-1)]: the sum along the last dimension; a 0-d tensor is its own
    sum. *)
Fixpoint sum_last (t : tensor Q) : tensor Q :=
  match t with
  | Scalar x => Scalar x
  | Nest rows =>
      if forallb is_scalar rows then Scalar (Qsum (map scalar_value rows))
      else Nest (map sum_last rows)
  end.

(** [max(x, 1.0)] *)
Definition max_one (x : Q) : Q := if Qle_bool x 1 then 1 else x.

(** [coverage_summary(cov, beta)]: [cov.size(-1)] needs a dimension. *)
Definition coverage_summary (cov : tensor Q) (beta : Q) : result (tensor Q) :=
  let penalty := sum_last (tensor_map max_one cov) in
  match tensor_size cov with
  | [] => Raise IndexError
  | d :: ds =>
      let n := inject_Z (Z.of_nat (last ds d)) in
      Ok (tensor_map (fun p => beta * (p - n)) penalty)
  end.

(** ** Vocabulary of the properties *)

(** [a] ranks at least as high as [b] under [key], both keys being defined. *)
Definition score_ge (key : _Hypothesis -> result Q) (a b : _Hypothesis) : Prop :=
  exists ka kb, key a = Ok ka /\ key b = Ok kb /\ kb <= ka.

(** A list in descending order of [key]. *)
Definition sorted_by (key : _Hypothesis -> result Q) (hs : list _Hypothesis) : Prop :=
  StronglySorted (score_ge key) hs.

(** The candidate after the conditional write of the sentinel. *)
Definition penalize (remove_tri : bool) (h : _Hypothesis) : _Hypothesis :=
  if remove_tri && _has_repeat_tri (sequence h) then set_logprob h sentinel else h.

(** A sequence that ends with the token [tok]. *)
Definition ends_with (tok : token) (h : _Hypothesis) : bool :=
  match last_item (sequence h) with
  | Ok t => Z.eqb t tok
  | Raise _ => false
  end.

(** The finished hypothesis made from [h], its last token removed, with the
    coverage [cov]. *)
Definition promote (cov : _Hypothesis -> option (tensor Q)) (h : _Hypothesis)
  : _Hypothesis :=
  mkHypothesis (removelast (sequence h)) (logprob h) (hists h) (attns h) (cov h).

(** The trigram exclusion test of the hard variant. *)
Definition excluded (remove_tri : bool) (h : _Hypothesis) : bool :=
  remove_tri && _has_repeat_tri (sequence h).

(** [n] copies of the first entry of [hs]. *)
Definition pad_first (hs : list _Hypothesis) (n : nat) : list _Hypothesis :=
  match hs with
  | [] => []
  | h0 :: _ => repeat h0 n
  end.

(** The order of the sort on pairs of a key and a value. *)
Definition key_ge {A : Type} (p q : Q * A) : Prop := fst q <= fst p.

(** A rational stand-in for [**] where a property is run on concrete input:
    the tangent of [b ** a] at [b = 1], positive on positive bases for
    exponents between 0 and 1. *)
Definition pow_linear (b a : Q) : Q := 1 + a * (b - 1).

(** A tensor with at least one dimension, and one with at least two. *)
Definition is_nest {A : Type} (t : tensor A) : bool :=
  match t with
  | Scalar _ => false
  | Nest _ => true
  end.

Definition has_two_dims {A : Type} (t : tensor A) : bool :=
  match t with
  | Scalar _ => false
  | Nest rows => forallb is_nest rows
  end.

(** [t.unsqueeze(1)]: a batch of scalars seen as a batch of rows of one. *)
Definition unsqueeze1 {A : Type} (t : tensor A) : tensor A :=
  match t with
  | Scalar _ => t
  | Nest rows => Nest (map (fun r => Nest [r]) rows)
  end.

(** The state of a hypothesis in the single-tensor convention, and part [i]
    of its state in the composite convention. *)
Definition state_tensor (h : _Hypothesis) : tensor Q :=
  match hists h with
  | PTensor t => t
  | PTuple _ => Nest []
  end.

Definition state_part (i : nat) (h : _Hypothesis) : tensor Q :=
  match hists h with
  | PTuple items =>
      match nth_error items i with
      | Some (PTensor t) => t
      | _ => Nest []
      end
  | PTensor _ => Nest []
  end.

(** A hypothesis whose state is one tensor of at least two dimensions. *)
Definition single_state (h : _Hypothesis) : Prop :=
  exists t, hists h = PTensor t /\ has_two_dims t = true.

(** A hypothesis whose state is a triple of tensors, the first two of at
    least two dimensions and the third of at least one. *)
Definition composite_state (h : _Hypothesis) : Prop :=
  exists a b c,
    hists h = PTuple [PTensor a; PTensor b; PTensor c] /\
    has_two_dims a = true /\ has_two_dims b = true /\ is_nest c = true.

(** What [best_sequence] returns once it has chosen [h]: the sequence
    without its first token, with the attention history when there is one. *)
Definition best_of (h : _Hypothesis) : best :=
  if nonempty (attns h)
  then BestSeqAttns (skipn 1 (sequence h)) (attns h)
  else BestSeq (skipn 1 (sequence h)).

(** * Properties *)

(** ** Trigram repetition *)

Lemma counter_get_incr (cnt : Counter_t) (g g' : gram) :
  counter_get (counter_incr cnt g) g' =
  if gram_eq_dec g' g then S (counter_get cnt g') else counter_get cnt g'.
Proof.
  induction cnt as [|[k n] cnt IH]; simpl.
  - destruct (gram_eq_dec g' g); reflexivity.
  - destruct (gram_eq_dec g k) as [->|Hgk]; simpl.
    + destruct (gram_eq_dec g' k); reflexivity.
    + destruct (gram_eq_dec g' k) as [->|Hk].
      * destruct (gram_eq_dec k g); [congruence | reflexivity].
      * exact IH.
Qed.

Lemma counter_keys_incr (cnt : Counter_t) (g g' : gram) :
  In g' (counter_keys (counter_incr cnt g)) <-> g' = g \/ In g' (counter_keys cnt).
Proof.
  unfold counter_keys.
  induction cnt as [|[k n] cnt IH]; simpl.
  - intuition.
  - destruct (gram_eq_dec g k) as [->|Hgk]; simpl.
    + intuition.
    + rewrite IH. intuition.
Qed.

Lemma counter_get_fold (gs : list gram) (cnt : Counter_t) (g : gram) :
  counter_get (fold_left counter_incr gs cnt) g =
  (count_occ gram_eq_dec gs g + counter_get cnt g)%nat.
Proof.
  revert cnt. induction gs as [|x gs IH]; intros cnt; simpl.
  - reflexivity.
  - rewrite IH, counter_get_incr.
    destruct (gram_eq_dec x g) as [->|Hx].
    + destruct (gram_eq_dec g g); [lia | congruence].
    + destruct (gram_eq_dec g x); [congruence | reflexivity].
Qed.

Lemma counter_keys_fold (gs : list gram) (cnt : Counter_t) (g : gram) :
  In g (counter_keys (fold_left counter_incr gs cnt)) <->
  In g gs \/ In g (counter_keys cnt).
Proof.
  revert cnt. induction gs as [|x gs IH]; intros cnt; simpl.
  - intuition.
  - rewrite IH, counter_keys_incr. intuition.
Qed.

Lemma counter_get_Counter (gs : list gram) (g : gram) :
  counter_get (Counter gs) g = count_occ gram_eq_dec gs g.
Proof. unfold Counter. rewrite counter_get_fold. simpl. lia. Qed.

Lemma counter_keys_Counter (gs : list gram) (g : gram) :
  In g (counter_keys (Counter gs)) <-> In g gs.
Proof. unfold Counter. rewrite counter_keys_fold. simpl. intuition. Qed.

(** An element counted twice sits at two positions, and conversely. *)
Lemma count_occ_two_positions (gs : list gram) (g : gram) :
  (2 <= count_occ gram_eq_dec gs g)%nat <->
  exists i j, (i < j)%nat /\ nth_error gs i = Some g /\ nth_error gs j = Some g.
Proof.
  induction gs as [|x gs IH]; simpl.
  - split; [lia | intros (i & j & _ & Hi & _); destruct i; discriminate].
  - destruct (gram_eq_dec x g) as [->|Hx].
    + split.
      * intros H2.
        assert (Hin : In g gs) by (apply (count_occ_In gram_eq_dec); lia).
        apply In_nth_error in Hin as [j Hj].
        exists 0%nat, (S j). repeat split; [lia | exact Hj].
      * intros (i & j & Hij & Hi & Hj).
        destruct j as [|j]; [lia|]. simpl in Hj.
        apply nth_error_In in Hj.
        apply (count_occ_In gram_eq_dec) in Hj. lia.
    + rewrite IH. split.
      * intros (i & j & Hij & Hi & Hj).
        exists (S i), (S j). repeat split; [lia | exact Hi | exact Hj].
      * intros (i & j & Hij & Hi & Hj).
        destruct i as [|i]; [simpl in Hi; congruence|].
        destruct j as [|j]; [lia|].
        exists i, j. repeat split; [lia | exact Hi | exact Hj].
Qed.

Lemma has_repeat_tri_count (s : list token) :
  _has_repeat_tri s = true <->
  exists g, (2 <= count_occ gram_eq_dec (tri_grams s) g)%nat.
Proof.
  unfold _has_repeat_tri. cbv zeta.
  rewrite negb_true_iff, <- not_true_iff_false, forallb_forall.
  split.
  - intros Hn.
    destruct (Exists_dec (fun g => 2 <= count_occ gram_eq_dec (tri_grams s) g)%nat
                (tri_grams s)) as [Hex|Hno].
    + intros g. destruct (le_dec 2 (count_occ gram_eq_dec (tri_grams s) g));
        [left | right]; assumption.
    + apply Exists_exists in Hex as (g & _ & Hg). exists g. exact Hg.
    + exfalso. apply Hn. intros g Hg.
      apply (proj1 (counter_keys_Counter _ _)) in Hg.
      rewrite counter_get_Counter. apply Nat.leb_le.
      destruct (le_dec 2 (count_occ gram_eq_dec (tri_grams s) g)) as [H2|H2]; [|lia].
      exfalso. apply Hno. apply Exists_exists. exists g. split; [exact Hg | exact H2].
  - intros (g & Hg) Hall.
    assert (Hin : In g (tri_grams s)) by (apply (count_occ_In gram_eq_dec); lia).
    apply (proj2 (counter_keys_Counter _ _)) in Hin. apply Hall in Hin.
    rewrite counter_get_Counter in Hin. apply Nat.leb_le in Hin. lia.
Qed.

Lemma nth_error_tri_grams (s : list token) (i : nat) :
  nth_error (tri_grams s) i =
  if (i + 3 <=? length s)%nat then Some (slice s i (i + 3)) else None.
Proof.
  unfold tri_grams.
  destruct (i + 3 <=? length s)%nat eqn:Hi.
  - apply Nat.leb_le in Hi.
    rewrite nth_error_map, nth_error_seq.
    replace (i <? length s - 2)%nat with true by (symmetry; apply Nat.ltb_lt; lia).
    reflexivity.
  - apply Nat.leb_gt in Hi.
    apply nth_error_None. rewrite length_map, length_seq. lia.
Qed.

(** C7. [_has_repeat_tri s] is true exactly when some contiguous run of three
    tokens of [s] occurs at two different positions of [s]; on [1,2,3,2,3] it
    is false and on [1,2,3,1,2,3] it is true.  Being a function of its
    argument alone, it is pure and deterministic. *)
Theorem has_repeat_tri_spec :
  (forall s : list token,
      _has_repeat_tri s = true <->
      exists i j, (i < j)%nat /\ (j + 3 <= length s)%nat /\
                  slice s i (i + 3) = slice s j (j + 3)) /\
  _has_repeat_tri [1; 2; 3; 2; 3]%Z = false /\
  _has_repeat_tri [1; 2; 3; 1; 2; 3]%Z = true.
Proof.
  split; [|split; reflexivity].
  intros s. rewrite has_repeat_tri_count. split.
  - intros (g & Hg).
    apply count_occ_two_positions in Hg as (i & j & Hij & Hi & Hj).
    rewrite nth_error_tri_grams in Hi, Hj.
    destruct (j + 3 <=? length s)%nat eqn:Ej; [|discriminate].
    destruct (i + 3 <=? length s)%nat eqn:Ei; [|discriminate].
    apply Nat.leb_le in Ej.
    exists i, j. repeat split; [exact Hij | exact Ej | congruence].
  - intros (i & j & Hij & Hj & Heq).
    exists (slice s i (i + 3)).
    apply count_occ_two_positions. exists i, j.
    rewrite !nth_error_tri_grams.
    replace (i + 3 <=? length s)%nat with true by (symmetry; apply Nat.leb_le; lia).
    replace (j + 3 <=? length s)%nat with true by (symmetry; apply Nat.leb_le; lia).
    repeat split; [exact Hij | rewrite Heq; reflexivity].
Qed.

(** ** Generic facts about the exception monad and list traversals *)

Lemma mapM_ok_map {A B : Type} (f : A -> result B) (g : A -> B) (xs : list A) :
  (forall x, In x xs -> f x = Ok (g x)) -> mapM f xs = Ok (map g xs).
Proof.
  induction xs as [|x xs IH]; intros Hf; simpl.
  - reflexivity.
  - rewrite (Hf x (or_introl eq_refl)). simpl.
    rewrite IH by (intros y Hy; apply Hf; right; exact Hy).
    reflexivity.
Qed.

Lemma mapM_ok_Forall {A B : Type} (f : A -> result B) (P : B -> Prop)
  (xs : list A) (ys : list B) :
  (forall x y, In x xs -> f x = Ok y -> P y) ->
  mapM f xs = Ok ys -> Forall P ys.
Proof.
  revert ys. induction xs as [|x xs IH]; intros ys Hf H; simpl in H.
  - inversion H. constructor.
  - destruct (f x) as [y|e] eqn:Ey; simpl in H; [|discriminate].
    destruct (mapM f xs) as [ys'|e] eqn:Eys; simpl in H; [|discriminate].
    inversion H; subst. constructor.
    + apply (Hf x y); [left; reflexivity | exact Ey].
    + apply IH; [|reflexivity]. intros x' y' Hin. apply Hf. right. exact Hin.
Qed.

Lemma mapM_ok_length {A B : Type} (f : A -> result B) (xs : list A) (ys : list B) :
  mapM f xs = Ok ys -> length ys = length xs.
Proof.
  revert ys. induction xs as [|x xs IH]; intros ys H; simpl in H.
  - inversion H. reflexivity.
  - destruct (f x) as [y|e]; simpl in H; [|discriminate].
    destruct (mapM f xs) as [ys'|e]; simpl in H; [|discriminate].
    inversion H; subst. simpl. f_equal. apply IH. reflexivity.
Qed.

Lemma mapM_ok_nth {A B : Type} (f : A -> result B) (xs : list A) (ys : list B)
  (i : nat) (x : A) :
  mapM f xs = Ok ys -> nth_error xs i = Some x ->
  exists y, nth_error ys i = Some y /\ f x = Ok y.
Proof.
  revert ys i. induction xs as [|x0 xs IH]; intros ys i H Hx; simpl in H.
  - destruct i; discriminate.
  - destruct (f x0) as [y0|e] eqn:Ey; simpl in H; [|discriminate].
    destruct (mapM f xs) as [ys'|e] eqn:Eys; simpl in H; [|discriminate].
    inversion H; subst. destruct i as [|i]; simpl in *.
    + inversion Hx; subst. exists y0. split; [reflexivity | exact Ey].
    + apply (IH ys' i eq_refl Hx).
Qed.

Lemma nth_error_combine {A B : Type} (xs : list A) (ys : list B) (i : nat)
  (x : A) (y : B) :
  nth_error xs i = Some x -> nth_error ys i = Some y ->
  nth_error (combine xs ys) i = Some (x, y).
Proof.
  revert ys i. induction xs as [|x0 xs IH]; intros ys i Hx Hy.
  - destruct i; discriminate.
  - destruct ys as [|y0 ys]; [destruct i; discriminate|].
    destruct i as [|i]; simpl in *.
    + congruence.
    + apply IH; assumption.
Qed.

Lemma nth_error_enumerate {A : Type} (xs : list A) (i : nat) (x : A) :
  nth_error xs i = Some x -> nth_error (enumerate xs) i = Some (i, x).
Proof.
  intros Hx. unfold enumerate. apply nth_error_combine; [|exact Hx].
  rewrite nth_error_seq.
  assert (Hi : (i < length xs)%nat) by (apply nth_error_Some; congruence).
  apply Nat.ltb_lt in Hi. rewrite Hi. reflexivity.
Qed.

Lemma length_enumerate {A : Type} (xs : list A) :
  length (enumerate xs) = length xs.
Proof. unfold enumerate. rewrite length_combine, length_seq. lia. Qed.

(** ** Extending a hypothesis *)

Lemma extend_k_unfold (self : _Hypothesis) (topk : tensor Z) (logprobs : tensor Q)
  (hs : pyval) (attn : option (tensor Q)) (diverse : Q) (children : list _Hypothesis) :
  extend_k self topk logprobs hs attn diverse = Ok children ->
  exists ats cov ts ls,
    tensor_iter topk = Ok ts /\ tensor_iter logprobs = Ok ls /\
    (attn = None -> ats = [] /\ cov = coverage self) /\
    (forall a, attn = Some a -> ats = attns self ++ [a]) /\
    mapM (fun '(i, (t, lp)) =>
            tv <- item t ;;
            lv <- item lp ;;
            Ok (mkHypothesis (sequence self ++ [tv])
                             (logprob self + lv - diverse * inject_Z (Z.of_nat i))
                             hs ats cov))
         (enumerate (combine ts ls)) = Ok children.
Proof.
  unfold extend_k. intros H.
  destruct attn as [a|].
  - destruct (match coverage self with None => Ok a | Some c => tensor_add c a end)
      as [cov|e]; simpl in H; [|discriminate].
    destruct (tensor_iter topk) as [ts|e]; simpl in H; [|discriminate].
    destruct (tensor_iter logprobs) as [ls|e]; simpl in H; [|discriminate].
    exists (attns self ++ [a]), (Some cov), ts, ls.
    repeat split; try reflexivity; try discriminate; try exact H.
    intros a' Ha. inversion Ha. reflexivity.
  - simpl in H.
    destruct (tensor_iter topk) as [ts|e]; simpl in H; [|discriminate].
    destruct (tensor_iter logprobs) as [ls|e]; simpl in H; [|discriminate].
    exists [], (coverage self), ts, ls.
    repeat split; try reflexivity; try discriminate; exact H.
Qed.

(** C6. [extend_k] on candidate tokens [toks] and log-probabilities [lps]
    returns one child per candidate pair; child [i] carries the parent's
    sequence with token [i] appended, one token longer, and the score
    [parent.logprob + lps[i] - diverse * i].  Without attention the call always
    returns.  On parent score -1.0, tokens [5,7], log-probabilities
    [-0.1,-0.5] and [diverse] 1.0 the two children score -1.1 and -2.5. *)
Theorem extend_k_children :
  (forall self toks lps hs attn diverse children,
      extend_k self (Nest (map Scalar toks)) (Nest (map Scalar lps)) hs attn diverse
      = Ok children ->
      length children = Nat.min (length toks) (length lps) /\
      forall i t l,
        nth_error toks i = Some t -> nth_error lps i = Some l ->
        exists c, nth_error children i = Some c /\
                  sequence c = sequence self ++ [t] /\
                  length (sequence c) = S (length (sequence self)) /\
                  logprob c = logprob self + l - diverse * inject_Z (Z.of_nat i)) /\
  (forall self toks lps hs diverse,
      exists children,
        extend_k self (Nest (map Scalar toks)) (Nest (map Scalar lps)) hs None diverse
        = Ok children) /\
  (forall seq0 hs ats cov,
      exists c0 c1,
        extend_k (mkHypothesis seq0 (-(1)) hs ats cov)
                 (Nest [Scalar 5%Z; Scalar 7%Z])
                 (Nest [Scalar (-(1 # 10)); Scalar (-(1 # 2))]) hs None 1
        = Ok [c0; c1] /\
        sequence c0 = seq0 ++ [5%Z] /\ sequence c1 = seq0 ++ [7%Z] /\
        logprob c0 == -(11 # 10) /\ logprob c1 == -(5 # 2)).
Proof.
  split; [|split].
  - intros self toks lps hs attn diverse children H.
    apply extend_k_unfold in H as (ats & cov & ts & ls & Hts & Hls & _ & _ & H).
    simpl in Hts, Hls. inversion Hts; subst ts. inversion Hls; subst ls.
    split.
    + apply mapM_ok_length in H. rewrite H, length_enumerate, length_combine.
      rewrite !length_map. reflexivity.
    + intros i t l Ht Hl.
      assert (Hc : nth_error (combine (map Scalar toks) (map Scalar lps)) i
                   = Some (Scalar t, Scalar l)).
      { apply nth_error_combine; rewrite nth_error_map.
        - rewrite Ht. reflexivity.
        - rewrite Hl. reflexivity. }
      apply nth_error_enumerate in Hc.
      destruct (mapM_ok_nth _ _ _ H Hc) as (c & Hnth & Hf).
      simpl in Hf. inversion Hf; subst c. eexists.
      split; [exact Hnth|]. simpl. repeat split.
      rewrite length_app. simpl. lia.
  - intros self toks lps hs diverse. unfold extend_k. simpl.
    eexists. apply mapM_ok_map with
      (g := fun p : nat * (tensor Z * tensor Q) =>
              mkHypothesis
                (sequence self ++ [match fst (snd p) with Scalar x => x | Nest _ => 0%Z end])
                (logprob self + match snd (snd p) with Scalar x => x | Nest _ => 0 end
                 - diverse * inject_Z (Z.of_nat (fst p)))
                hs [] (coverage self)).
    intros [i [t l]] Hin. unfold enumerate in Hin.
    apply in_combine_r in Hin.
    pose proof (in_combine_l _ _ _ _ Hin) as Hl.
    pose proof (in_combine_r _ _ _ _ Hin) as Hr.
    apply in_map_iff in Hl as (tv & <- & _).
    apply in_map_iff in Hr as (lv & <- & _).
    reflexivity.
  - intros seq0 hs ats cov. do 2 eexists.
    split; [reflexivity|]. simpl. repeat split; reflexivity.
Qed.

(** The general part of [extend_k_children] at a parent with a recorded
    attention history, extended with a further attention row. *)
Lemma extend_k_children_witness :
  exists c,
    nth_error [mkHypothesis [0; 5]%Z (-(11 # 10) + -(1 # 2) - 1 * inject_Z (Z.of_nat 0))
                 (PTuple []) [Nest [Scalar 1]; Nest [Scalar 1]]
                 (Some (Nest [Scalar (1 + 1)]))] 0 = Some c /\
    sequence c = [0; 5]%Z /\
    length (sequence c) = 2%nat /\
    logprob c = -(11 # 10) + -(1 # 2) - 1 * inject_Z (Z.of_nat 0).
Proof.
  exact (proj2 (proj1 extend_k_children
                  (mkHypothesis [0]%Z (-(11 # 10)) (PTuple []) [Nest [Scalar 1]]
                                (Some (Nest [Scalar 1])))
                  [5%Z] [-(1 # 2)] (PTuple []) (Some (Nest [Scalar 1])) 1 _ eq_refl)
               0%nat 5%Z (-(1 # 2)) eq_refl eq_refl).
Defined.

(** C10. Without attention, every child [extend_k] returns has an empty
    attention history, whatever the parent had recorded, and the parent's
    coverage unchanged. *)
Theorem extend_k_no_attention :
  forall self topk logprobs hs diverse children,
    extend_k self topk logprobs hs None diverse = Ok children ->
    Forall (fun c => attns c = [] /\ coverage c = coverage self) children.
Proof.
  intros self topk logprobs hs diverse children H.
  apply extend_k_unfold in H as (ats & cov & ts & ls & _ & _ & Hnone & _ & H).
  destruct (Hnone eq_refl) as [-> ->].
  eapply mapM_ok_Forall; [|exact H].
  intros [i [t l]] y _ Hy. simpl in Hy.
  destruct (item t); simpl in Hy; [|discriminate].
  destruct (item l); simpl in Hy; [|discriminate].
  inversion Hy. simpl. split; reflexivity.
Qed.

(** [extend_k_no_attention] at a parent whose attention history and coverage
    are not empty: the history is dropped, the coverage kept. *)
Lemma extend_k_no_attention_witness :
  Forall (fun c => attns c = [] /\
                   coverage c = Some (Nest [Scalar (1 # 2); Scalar (1 # 2)]))
         [mkHypothesis [0; 3; 5]%Z (-(1) + -(1 # 10) - 1 * inject_Z (Z.of_nat 0))
                       (PTuple []) [] (Some (Nest [Scalar (1 # 2); Scalar (1 # 2)]));
          mkHypothesis [0; 3; 7]%Z (-(1) + -(1 # 2) - 1 * inject_Z (Z.of_nat 1))
                       (PTuple []) [] (Some (Nest [Scalar (1 # 2); Scalar (1 # 2)]))].
Proof.
  exact (extend_k_no_attention
           (mkHypothesis [0; 3]%Z (-(1)) (PTuple [])
                         [Nest [Scalar (1 # 2); Scalar (1 # 2)]]
                         (Some (Nest [Scalar (1 # 2); Scalar (1 # 2)])))
           (Nest [Scalar 5%Z; Scalar 7%Z])
           (Nest [Scalar (-(1 # 10)); Scalar (-(1 # 2))])
           (PTuple []) 1 eq_refl).
Defined.

(** ** Choosing the final sequence *)

Lemma Qlt_bool_iff (x y : Q) : Qlt_bool x y = true <-> x < y.
Proof.
  unfold Qlt_bool. rewrite negb_true_iff, <- not_true_iff_false, Qle_bool_iff.
  split; [apply Qnot_le_lt | apply Qlt_not_le].
Qed.

(** What [best_sequence] returns once it has settled on a hypothesis. *)
Lemma best_sequence_some (f0 b0 : _Hypothesis) (fs bs : list _Hypothesis) (sf sb : Q) :
  mean_score f0 = Ok sf -> mean_score b0 = Ok sb ->
  best_sequence (f0 :: fs) (Some (b0 :: bs)) =
  let chosen := if Qlt_bool sf sb then f0 else b0 in
  if nonempty (attns chosen)
  then Ok (BestSeqAttns (skipn 1 (sequence chosen)) (attns chosen))
  else Ok (BestSeq (skipn 1 (sequence chosen))).
Proof.
  intros Hf Hb. unfold best_sequence, __lt__. simpl.
  rewrite Hf, Hb. simpl.
  destruct (Qlt_bool sf sb); reflexivity.
Qed.

(** C1. [best_sequence] does not return the better of [finished[0]] and
    [beam[0]].  With both scores defined it returns the sequence of
    [finished[0]] exactly when that score is strictly below the score of
    [beam[0]], since [beam[0] < finished[0]] holds when [beam[0]] scores
    higher.  With [finished[0] = ([0,4], -4.0)], mean -2, and
    [beam[0] = ([0,5], -1.0)], mean -0.5, it returns [4].  When the beam is
    omitted it returns the sequence of [finished[0]]. *)
Theorem best_sequence_returns_lower_score :
  (forall f0 fs b0 bs sf sb,
      mean_score f0 = Ok sf -> mean_score b0 = Ok sb ->
      attns f0 = [] -> attns b0 = [] ->
      (sf < sb ->
       best_sequence (f0 :: fs) (Some (b0 :: bs)) = Ok (BestSeq (skipn 1 (sequence f0)))) /\
      (~ sf < sb ->
       best_sequence (f0 :: fs) (Some (b0 :: bs)) = Ok (BestSeq (skipn 1 (sequence b0))))) /\
  (forall hs,
      let f0 := mkHypothesis [0; 4]%Z (-(4)) hs [] None in
      let b0 := mkHypothesis [0; 5]%Z (-(1)) hs [] None in
      mean_score f0 = Ok (-(4) / 2) /\ mean_score b0 = Ok (-(1) / 2) /\
      -(4) / 2 < -(1) / 2 /\
      best_sequence [f0] (Some [b0]) = Ok (BestSeq [4%Z])) /\
  (forall f0 fs,
      attns f0 = [] ->
      best_sequence (f0 :: fs) None = Ok (BestSeq (skipn 1 (sequence f0)))).
Proof.
  split; [|split].
  - intros f0 fs b0 bs sf sb Hf Hb Haf Hab.
    rewrite best_sequence_some with (sf := sf) (sb := sb) by assumption. cbv zeta.
    split; intros Hlt.
    + apply Qlt_bool_iff in Hlt. rewrite Hlt, Haf. reflexivity.
    + destruct (Qlt_bool sf sb) eqn:E.
      * apply Qlt_bool_iff in E. contradiction.
      * rewrite Hab. reflexivity.
  - intros hs. cbv zeta. repeat split.
  - intros f0 fs Ha. unfold best_sequence. simpl. rewrite Ha. reflexivity.
Qed.

(** The general part of [best_sequence_returns_lower_score] at the
    hypotheses of its example. *)
Lemma best_sequence_returns_lower_score_witness :
  best_sequence [mkHypothesis [0; 4]%Z (-(4)) (PTuple []) [] None]
                (Some [mkHypothesis [0; 5]%Z (-(1)) (PTuple []) [] None])
  = Ok (BestSeq [4%Z]).
Proof.
  refine (proj1 (proj1 best_sequence_returns_lower_score
                   (mkHypothesis [0; 4]%Z (-(4)) (PTuple []) [] None) []
                   (mkHypothesis [0; 5]%Z (-(1)) (PTuple []) [] None) []
                   (-(4) / 2) (-(1) / 2) eq_refl eq_refl eq_refl eq_refl) _).
  reflexivity.
Defined.

(** ** Sorting by a key *)

Lemma insert_desc_perm {A : Type} (kx : Q * A) (l : list (Q * A)) :
  Permutation (insert_desc kx l) (kx :: l).
Proof.
  induction l as [|ky l IH]; simpl.
  - apply Permutation_refl.
  - destruct (Qle_bool (fst ky) (fst kx)).
    + apply Permutation_refl.
    + eapply Permutation_trans; [apply perm_skip, IH | apply perm_swap].
Qed.

Lemma sort_desc_perm {A : Type} (l : list (Q * A)) : Permutation (sort_desc l) l.
Proof.
  induction l as [|kx l IH]; simpl.
  - constructor.
  - eapply Permutation_trans; [apply insert_desc_perm | apply perm_skip, IH].
Qed.

Lemma insert_desc_sorted {A : Type} (kx : Q * A) (l : list (Q * A)) :
  StronglySorted key_ge l -> StronglySorted key_ge (insert_desc kx l).
Proof.
  induction 1 as [|ky l Hs IH Hall]; simpl.
  - constructor; constructor.
  - destruct (Qle_bool (fst ky) (fst kx)) eqn:E.
    + apply Qle_bool_iff in E. constructor.
      * constructor; assumption.
      * constructor; [exact E|].
        eapply Forall_impl; [|exact Hall].
        intros kz Hz. unfold key_ge in *. eapply Qle_trans; eassumption.
    + constructor; [exact IH|].
      assert (Hlt : fst kx < fst ky).
      { apply Qnot_le_lt. intros Hle. apply Qle_bool_iff in Hle. congruence. }
      eapply Permutation_Forall; [apply Permutation_sym, insert_desc_perm|].
      constructor; [|exact Hall].
      unfold key_ge. apply Qlt_le_weak. exact Hlt.
Qed.

Lemma sort_desc_sorted {A : Type} (l : list (Q * A)) :
  StronglySorted key_ge (sort_desc l).
Proof.
  induction l as [|kx l IH]; simpl.
  - constructor.
  - apply insert_desc_sorted, IH.
Qed.

Lemma StronglySorted_map {A B : Type} (R : A -> A -> Prop) (R' : B -> B -> Prop)
  (P : A -> Prop) (f : A -> B) (l : list A) :
  (forall a b, P a -> P b -> R a b -> R' (f a) (f b)) ->
  Forall P l -> StronglySorted R l -> StronglySorted R' (map f l).
Proof.
  intros HR HP Hs. induction Hs as [|a l Hs IH Hall]; simpl.
  - constructor.
  - inversion HP as [|? ? Pa Pl]; subst. constructor.
    + apply IH, Pl.
    + apply Forall_map. rewrite Forall_forall in *.
      intros b Hb. apply HR; auto.
Qed.

Lemma mapM_ok_combine {A B : Type} (f : A -> result B) (xs : list A) (ys : list B) :
  mapM f xs = Ok ys ->
  Forall (fun p => f (snd p) = Ok (fst p)) (combine ys xs) /\
  map snd (combine ys xs) = xs.
Proof.
  revert ys. induction xs as [|x xs IH]; intros ys H; simpl in H.
  - inversion H. split; constructor.
  - destruct (f x) as [y|e] eqn:Ey; simpl in H; [|discriminate].
    destruct (mapM f xs) as [ys'|e] eqn:Eys; simpl in H; [|discriminate].
    inversion H; subst. destruct (IH ys' eq_refl) as [HF Hm]. simpl. split.
    + constructor; assumption.
    + f_equal. exact Hm.
Qed.

(** [sorted(xs, reverse=True, key=key)], when no key raises, is a permutation
    of [xs] in descending order of [key]. *)
Lemma sorted_reverse_spec (key : _Hypothesis -> result Q)
  (xs ys : list _Hypothesis) :
  sorted_reverse key xs = Ok ys -> Permutation ys xs /\ sorted_by key ys.
Proof.
  unfold sorted_reverse. intros H.
  destruct (mapM key xs) as [ks|e] eqn:Eks; simpl in H; [|discriminate].
  inversion H; subst ys. clear H.
  destruct (mapM_ok_combine _ _ Eks) as [HF Hm]. split.
  - rewrite <- Hm at 2. apply Permutation_map, sort_desc_perm.
  - unfold sorted_by.
    apply StronglySorted_map with (R := key_ge)
      (P := fun p : Q * _Hypothesis => key (snd p) = Ok (fst p)).
    + intros a b Ha Hb Hab. exists (fst a), (fst b). auto.
    + eapply Permutation_Forall; [apply Permutation_sym, sort_desc_perm | exact HF].
    + apply sort_desc_sorted.
Qed.

(** The sort returns as soon as every key is defined. *)
Lemma sorted_reverse_ok (key : _Hypothesis -> result Q) (xs : list _Hypothesis) :
  Forall (fun h => exists k, key h = Ok k) xs ->
  exists ys, sorted_reverse key xs = Ok ys.
Proof.
  intros HF. unfold sorted_reverse.
  assert (Hks : exists ks, mapM key xs = Ok ks).
  { induction HF as [|x xs [k Hk] _ [ks IH]]; simpl.
    - eexists; reflexivity.
    - rewrite Hk, IH. simpl. eexists; reflexivity. }
  destruct Hks as [ks ->]. simpl. eexists; reflexivity.
Qed.

(** ** The selection loops *)

Lemma sequence_penalize (rt : bool) (h : _Hypothesis) :
  sequence (penalize rt h) = sequence h.
Proof. unfold penalize. destruct (rt && _); reflexivity. Qed.

Lemma ends_with_penalize (e : token) (rt : bool) (h : _Hypothesis) :
  ends_with e (penalize rt h) = ends_with e h.
Proof. unfold ends_with. rewrite sequence_penalize. reflexivity. Qed.

Lemma penalize_not_excluded (rt : bool) (h : _Hypothesis) :
  excluded rt h = false -> penalize rt h = h.
Proof. unfold excluded, penalize. intros ->. reflexivity. Qed.

Lemma last_item_ok {A : Type} (xs : list A) :
  xs <> [] -> exists x, last_item xs = Ok x.
Proof. destruct xs; [congruence | intros _; eexists; reflexivity]. Qed.

Lemma last_item_nonempty {A : Type} (xs : list A) (x : A) :
  last_item xs = Ok x -> xs <> [].
Proof. destruct xs; [discriminate | congruence]. Qed.

Lemma ensure_beam_size_spec (n : nat) (nb : list _Hypothesis) :
  ensure_beam_size n nb =
  match n, nb with
  | O, _ => Ok nb
  | S _, [] => Raise IndexError
  | S _, h0 :: _ => Ok (nb ++ repeat h0 n)
  end.
Proof.
  revert nb. induction n as [|n IH]; intros nb; simpl.
  - reflexivity.
  - destruct nb as [|h0 nb]; simpl; [reflexivity|].
    rewrite IH. destruct n as [|n]; simpl.
    + reflexivity.
    + rewrite <- app_assoc. reflexivity.
Qed.

Lemma clean_loop_cons (e : token) (bs : nat) (rt : bool) (h : _Hypothesis)
  (pool fin nb vis : list _Hypothesis) :
  clean_loop e bs rt (h :: pool) fin nb vis =
  (tok <- last_item (sequence (penalize rt h)) ;;
   let fin' := if Z.eqb tok e then fin ++ [promote coverage (penalize rt h)] else fin in
   let nb' := if Z.eqb tok e then nb else nb ++ [penalize rt h] in
   if (length nb' =? bs)%nat
   then Ok (mkLoop true fin' nb' (vis ++ [penalize rt h]))
   else clean_loop e bs rt pool fin' nb' (vis ++ [penalize rt h])).
Proof. reflexivity. Qed.

Lemma clean_loop_cnn_cons (e : token) (bs : nat) (rt : bool) (h : _Hypothesis)
  (pool fin nb vis : list _Hypothesis) :
  clean_loop_cnn e bs rt (h :: pool) fin nb vis =
  if excluded rt h then
    clean_loop_cnn e bs rt pool fin nb (vis ++ [set_logprob h sentinel])
  else
    (tok <- last_item (sequence h) ;;
     let fin' := if Z.eqb tok e then fin ++ [promote (fun _ => None) h] else fin in
     let nb' := if Z.eqb tok e then nb else nb ++ [h] in
     if (length nb' =? bs)%nat
     then Ok (mkLoop true fin' nb' (vis ++ [h]))
     else clean_loop_cnn e bs rt pool fin' nb' (vis ++ [h])).
Proof. reflexivity. Qed.

(** Closing one step of the induction over the pool. *)
Ltac close_loop_step Hk Hv Hn Hf Hb Hl Hs :=
  split; [simpl; lia|];
  split; [rewrite Hv, <- app_assoc; reflexivity|];
  split; [rewrite Hn, <- ?app_assoc; reflexivity|];
  split; [rewrite Hf, <- ?app_assoc; reflexivity|];
  split; [intros Hbr; simpl; f_equal; apply Hb, Hbr|];
  split;
  [ intros Hlt; apply Hl; rewrite ?length_app; simpl; lia
  | try (constructor; assumption); try assumption ].

(** Closing the step at which the loop is left by [break]. *)
Ltac close_loop_break Efull :=
  apply Nat.eqb_eq in Efull; rewrite ?app_nil_r;
  split; [simpl; lia|];
  split; [reflexivity|];
  split; [reflexivity|];
  split; [reflexivity|];
  split; [discriminate|];
  split; [intros _; exact Efull | repeat constructor; assumption].

(** What the loop of [_clean_beam] has done when it ends: it has reached the
    first [k] candidates, written the sentinel where due, moved those that end
    with the end token to the finished list and the others to the new beam. *)
Lemma clean_loop_spec (e : token) (bs : nat) (rt : bool) :
  forall pool fin nb vis st,
    clean_loop e bs rt pool fin nb vis = Ok st ->
    exists k, (k <= length pool)%nat /\
      ls_visited st = vis ++ map (penalize rt) (firstn k pool) /\
      ls_new_beam st =
        nb ++ filter (fun h => negb (ends_with e h)) (map (penalize rt) (firstn k pool)) /\
      ls_finished st =
        fin ++ map (promote coverage)
                   (filter (ends_with e) (map (penalize rt) (firstn k pool))) /\
      (ls_broke st = false -> k = length pool) /\
      ((length nb < bs)%nat ->
       if ls_broke st then length (ls_new_beam st) = bs
       else (length (ls_new_beam st) < bs)%nat) /\
      Forall (fun h => sequence h <> []) (firstn k pool).
Proof.
  induction pool as [|h pool IH]; intros fin nb vis st H.
  - simpl in H. inversion H; subst st. exists 0%nat. simpl.
    rewrite !app_nil_r. repeat split; auto.
  - rewrite clean_loop_cons in H.
    destruct (last_item (sequence (penalize rt h))) as [tok|err] eqn:Etok;
      simpl in H; [|discriminate].
    assert (Hne : sequence h <> []).
    { apply last_item_nonempty in Etok. rewrite sequence_penalize in Etok. exact Etok. }
    assert (Hends : ends_with e (penalize rt h) = Z.eqb tok e).
    { unfold ends_with. rewrite Etok. reflexivity. }
    destruct (Z.eqb tok e) eqn:Ee.
    + destruct (length nb =? bs)%nat eqn:Efull.
      * inversion H; subst st. exists 1%nat. simpl. rewrite Hends. simpl.
        close_loop_break Efull.
      * apply Nat.eqb_neq in Efull.
        destruct (IH _ _ _ _ H) as (k & Hk & Hv & Hn & Hf & Hb & Hl & Hs).
        exists (S k). simpl. rewrite Hends. simpl.
        close_loop_step Hk Hv Hn Hf Hb Hl Hs.
    + destruct (length (nb ++ [penalize rt h]) =? bs)%nat eqn:Efull.
      * inversion H; subst st. exists 1%nat. simpl. rewrite Hends. simpl.
        close_loop_break Efull.
      * apply Nat.eqb_neq in Efull. rewrite length_app in Efull. simpl in Efull.
        destruct (IH _ _ _ _ H) as (k & Hk & Hv & Hn & Hf & Hb & Hl & Hs).
        exists (S k). simpl. rewrite Hends. simpl.
        close_loop_step Hk Hv Hn Hf Hb Hl Hs.
Qed.

(** The same for the loop of [_clean_beam_cnn], which passes over the
    excluded candidates. *)
Lemma clean_loop_cnn_spec (e : token) (bs : nat) (rt : bool) :
  forall pool fin nb vis st,
    clean_loop_cnn e bs rt pool fin nb vis = Ok st ->
    exists k, (k <= length pool)%nat /\
      ls_visited st = vis ++ map (penalize rt) (firstn k pool) /\
      ls_new_beam st =
        nb ++ filter (fun h => negb (ends_with e h))
                     (filter (fun h => negb (excluded rt h)) (firstn k pool)) /\
      ls_finished st =
        fin ++ map (promote (fun _ => None))
                   (filter (ends_with e)
                           (filter (fun h => negb (excluded rt h)) (firstn k pool))) /\
      (ls_broke st = false -> k = length pool) /\
      ((length nb < bs)%nat ->
       if ls_broke st then length (ls_new_beam st) = bs
       else (length (ls_new_beam st) < bs)%nat) /\
      Forall (fun h => sequence h <> [])
             (filter (fun h => negb (excluded rt h)) (firstn k pool)).
Proof.
  induction pool as [|h pool IH]; intros fin nb vis st H.
  - simpl in H. inversion H; subst st. exists 0%nat. simpl.
    rewrite !app_nil_r. repeat split; auto.
  - rewrite clean_loop_cnn_cons in H.
    destruct (excluded rt h) eqn:Ex.
    + destruct (IH _ _ _ _ H) as (k & Hk & Hv & Hn & Hf & Hb & Hl & Hs).
      exists (S k). simpl. rewrite Ex. simpl.
      assert (Hp : penalize rt h = set_logprob h sentinel).
      { unfold penalize. unfold excluded in Ex. rewrite Ex. reflexivity. }
      rewrite Hp.
      close_loop_step Hk Hv Hn Hf Hb Hl Hs.
    + destruct (last_item (sequence h)) as [tok|err] eqn:Etok;
        simpl in H; [|discriminate].
      assert (Hne : sequence h <> []) by (eapply last_item_nonempty; eassumption).
      assert (Hends : ends_with e h = Z.eqb tok e).
      { unfold ends_with. rewrite Etok. reflexivity. }
      destruct (Z.eqb tok e) eqn:Ee.
      * destruct (length nb =? bs)%nat eqn:Efull.
        -- inversion H; subst st. exists 1%nat. simpl. rewrite Ex. simpl.
           rewrite Hends. simpl. rewrite (penalize_not_excluded _ _ Ex).
           close_loop_break Efull.
        -- apply Nat.eqb_neq in Efull.
           destruct (IH _ _ _ _ H) as (k & Hk & Hv & Hn & Hf & Hb & Hl & Hs).
           exists (S k). simpl. rewrite Ex. simpl. rewrite Hends. simpl.
           rewrite (penalize_not_excluded _ _ Ex).
           close_loop_step Hk Hv Hn Hf Hb Hl Hs.
      * destruct (length (nb ++ [h]) =? bs)%nat eqn:Efull.
        -- inversion H; subst st. exists 1%nat. simpl. rewrite Ex. simpl.
           rewrite Hends. simpl. rewrite (penalize_not_excluded _ _ Ex).
           close_loop_break Efull.
        -- apply Nat.eqb_neq in Efull. rewrite length_app in Efull. simpl in Efull.
           destruct (IH _ _ _ _ H) as (k & Hk & Hv & Hn & Hf & Hb & Hl & Hs).
           exists (S k). simpl. rewrite Ex. simpl. rewrite Hends. simpl.
           rewrite (penalize_not_excluded _ _ Ex).
           close_loop_step Hk Hv Hn Hf Hb Hl Hs.
Qed.

(** Both loops end without raising when the candidates they look at have a
    last token. *)
Lemma clean_loop_ok (e : token) (bs : nat) (rt : bool) :
  forall pool fin nb vis,
    Forall (fun h => sequence h <> []) pool ->
    exists st, clean_loop e bs rt pool fin nb vis = Ok st.
Proof.
  induction pool as [|h pool IH]; intros fin nb vis HF.
  - eexists; reflexivity.
  - inversion HF as [|? ? Hh Hp]; subst. rewrite clean_loop_cons.
    destruct (@last_item_ok _ (sequence (penalize rt h))) as [tok ->].
    { rewrite sequence_penalize. exact Hh. }
    simpl.
    match goal with |- context [if ?c then Ok _ else _] => destruct c end.
    + eexists; reflexivity.
    + apply IH, Hp.
Qed.

Lemma clean_loop_cnn_ok (e : token) (bs : nat) (rt : bool) :
  forall pool fin nb vis,
    Forall (fun h => sequence h <> []) pool ->
    exists st, clean_loop_cnn e bs rt pool fin nb vis = Ok st.
Proof.
  induction pool as [|h pool IH]; intros fin nb vis HF.
  - eexists; reflexivity.
  - inversion HF as [|? ? Hh Hp]; subst. rewrite clean_loop_cnn_cons.
    destruct (excluded rt h); [apply IH, Hp|].
    destruct (last_item_ok Hh) as [tok ->]. simpl.
    match goal with |- context [if ?c then Ok _ else _] => destruct c end.
    + eexists; reflexivity.
    + apply IH, Hp.
Qed.

(** ** One call of the beam cleaning *)

Lemma length_pad_first (hs : list _Hypothesis) (n : nat) :
  hs <> [] -> length (pad_first hs n) = n.
Proof. destruct hs; [congruence | intros _; apply repeat_length]. Qed.

Lemma finish_step_spec (bs : nat) (st st' : loop_state) :
  finish_step bs st = Ok st' ->
  ls_broke st' = ls_broke st /\
  ls_visited st' = ls_visited st /\
  Permutation (ls_finished st') (ls_finished st) /\
  sorted_by mean_score (ls_finished st') /\
  (if ls_broke st then ls_new_beam st' = ls_new_beam st
   else ls_new_beam st' =
        ls_new_beam st ++ pad_first (ls_new_beam st) (bs - length (ls_new_beam st)) /\
        (ls_new_beam st = [] -> bs = 0%nat)).
Proof.
  unfold finish_step. intros H.
  destruct (if ls_broke st then Ok (ls_new_beam st)
            else ensure_beam_size (bs - length (ls_new_beam st)) (ls_new_beam st))
    as [nb|err] eqn:Enb; simpl in H; [|discriminate].
  destruct (sorted_reverse mean_score (ls_finished st)) as [fin|err] eqn:Efin;
    simpl in H; [|discriminate].
  inversion H; subst st'; simpl.
  destruct (sorted_reverse_spec _ _ Efin) as [Hperm Hsorted].
  repeat split; auto.
  destruct (ls_broke st).
  - inversion Enb. reflexivity.
  - rewrite ensure_beam_size_spec in Enb.
    destruct (bs - length (ls_new_beam st))%nat as [|n] eqn:En.
    + inversion Enb; subst nb. split.
      * destruct (ls_new_beam st); simpl; rewrite ?app_nil_r; reflexivity.
      * intros Hnil. rewrite Hnil in En. simpl in En. lia.
    + destruct (ls_new_beam st) as [|h0 t] eqn:Eb; [discriminate|].
      inversion Enb; subst nb. split; [reflexivity | discriminate].
Qed.

(** Everything one call of [_clean_beam] does, in terms of the pool sorted by
    the Wu key of the candidates as they were passed in. *)
Lemma clean_beam_run_spec (float_pow : Q -> Q -> Q)
  (finished beam : list _Hypothesis) (e : token) (bs : nat) (rt : bool)
  (st : loop_state) :
  _clean_beam_run float_pow finished beam e bs rt = Ok st ->
  exists pool k,
    sorted_reverse (wu_score float_pow) beam = Ok pool /\
    (k <= length pool)%nat /\
    (ls_broke st = false -> k = length pool) /\
    ls_visited st = map (penalize rt) (firstn k pool) /\
    Forall (fun h => sequence h <> []) (firstn k pool) /\
    Permutation (ls_finished st)
      (finished ++ map (promote coverage)
                       (filter (ends_with e) (map (penalize rt) (firstn k pool)))) /\
    sorted_by mean_score (ls_finished st) /\
    let accepted :=
      filter (fun h => negb (ends_with e h)) (map (penalize rt) (firstn k pool)) in
    ls_new_beam st = accepted ++ pad_first accepted (bs - length accepted) /\
    ((1 <= bs)%nat -> accepted <> [] /\ (length accepted <= bs)%nat).
Proof.
  unfold _clean_beam_run. intros H.
  destruct (sorted_reverse (wu_score float_pow) beam) as [pool|err] eqn:Epool;
    simpl in H; [|discriminate].
  destruct (clean_loop e bs rt pool finished [] []) as [st0|err] eqn:Eloop;
    simpl in H; [|discriminate].
  destruct (clean_loop_spec _ _ _ _ _ _ _ Eloop)
    as (k & Hk & Hv & Hn & Hf & Hb & Hl & Hs).
  destruct (finish_step_spec _ _ H) as (Hbr & Hvis & Hperm & Hsorted & Hpad).
  simpl in Hv, Hn, Hl.
  exists pool, k. rewrite Hbr, Hvis, Hv.
  repeat split; auto.
  - rewrite <- Hf. exact Hperm.
  - rewrite <- Hn. destruct (ls_broke st0).
    + rewrite Hpad. destruct (Nat.eq_dec bs 0) as [->|Hbs].
      * simpl. destruct (ls_new_beam st0); simpl; rewrite ?app_nil_r; reflexivity.
      * rewrite (Hl ltac:(lia)), Nat.sub_diag.
        destruct (ls_new_beam st0); simpl; rewrite ?app_nil_r; reflexivity.
    + apply Hpad.
  - rewrite <- Hn. intros Hnil. destruct (ls_broke st0).
    + specialize (Hl ltac:(lia)). rewrite Hnil in Hl. simpl in Hl. lia.
    + destruct Hpad as [_ Hz]. specialize (Hz Hnil). lia.
  - rewrite <- Hn. specialize (Hl ltac:(lia)). destruct (ls_broke st0); lia.
Qed.

(** Everything one call of [_clean_beam_cnn] does, in terms of the pool
    sorted by the plain mean. *)
Lemma clean_beam_cnn_run_spec (finished beam : list _Hypothesis) (e : token)
  (bs : nat) (rt : bool) (st : loop_state) :
  _clean_beam_cnn_run finished beam e bs rt = Ok st ->
  exists pool k,
    sorted_reverse mean_score beam = Ok pool /\
    (k <= length pool)%nat /\
    (ls_broke st = false -> k = length pool) /\
    ls_visited st = map (penalize rt) (firstn k pool) /\
    let kept := filter (fun h => negb (excluded rt h)) (firstn k pool) in
    Forall (fun h => sequence h <> []) kept /\
    Permutation (ls_finished st)
      (finished ++ map (promote (fun _ => None)) (filter (ends_with e) kept)) /\
    sorted_by mean_score (ls_finished st) /\
    let accepted := filter (fun h => negb (ends_with e h)) kept in
    ls_new_beam st = accepted ++ pad_first accepted (bs - length accepted) /\
    ((1 <= bs)%nat -> accepted <> [] /\ (length accepted <= bs)%nat).
Proof.
  unfold _clean_beam_cnn_run. intros H.
  destruct (sorted_reverse mean_score beam) as [pool|err] eqn:Epool;
    simpl in H; [|discriminate].
  destruct (clean_loop_cnn e bs rt pool finished [] []) as [st0|err] eqn:Eloop;
    simpl in H; [|discriminate].
  destruct (clean_loop_cnn_spec _ _ _ _ _ _ _ Eloop)
    as (k & Hk & Hv & Hn & Hf & Hb & Hl & Hs).
  destruct (finish_step_spec _ _ H) as (Hbr & Hvis & Hperm & Hsorted & Hpad).
  simpl in Hv, Hn, Hl.
  exists pool, k. rewrite Hbr, Hvis, Hv. cbv zeta.
  repeat split; auto.
  - rewrite <- Hf. exact Hperm.
  - rewrite <- Hn. destruct (ls_broke st0).
    + rewrite Hpad. destruct (Nat.eq_dec bs 0) as [->|Hbs].
      * simpl. destruct (ls_new_beam st0); simpl; rewrite ?app_nil_r; reflexivity.
      * rewrite (Hl ltac:(lia)), Nat.sub_diag.
        destruct (ls_new_beam st0); simpl; rewrite ?app_nil_r; reflexivity.
    + apply Hpad.
  - rewrite <- Hn. intros Hnil. destruct (ls_broke st0).
    + specialize (Hl ltac:(lia)). rewrite Hnil in Hl. simpl in Hl. lia.
    + destruct Hpad as [_ Hz]. specialize (Hz Hnil). lia.
  - rewrite <- Hn. specialize (Hl ltac:(lia)). destruct (ls_broke st0); lia.
Qed.

Lemma clean_beam_inv (float_pow : Q -> Q -> Q) (finished beam : list _Hypothesis)
  (e : token) (bs : nat) (rt : bool) (fin nb : list _Hypothesis) :
  _clean_beam float_pow finished beam e bs rt = Ok (fin, nb) ->
  exists st, _clean_beam_run float_pow finished beam e bs rt = Ok st /\
             fin = ls_finished st /\ nb = ls_new_beam st.
Proof.
  unfold _clean_beam. intros H.
  destruct (_clean_beam_run float_pow finished beam e bs rt) as [st|err];
    simpl in H; [|discriminate].
  inversion H. exists st. auto.
Qed.

Lemma clean_beam_cnn_inv (finished beam : list _Hypothesis)
  (e : token) (bs : nat) (rt : bool) (fin nb : list _Hypothesis) :
  _clean_beam_cnn finished beam e bs rt = Ok (fin, nb) ->
  exists st, _clean_beam_cnn_run finished beam e bs rt = Ok st /\
             fin = ls_finished st /\ nb = ls_new_beam st.
Proof.
  unfold _clean_beam_cnn. intros H.
  destruct (_clean_beam_cnn_run finished beam e bs rt) as [st|err];
    simpl in H; [|discriminate].
  inversion H. exists st. auto.
Qed.

(** A step that returns has gone through the beam cleaning on the pool of
    all children. *)
Lemma next_search_beam_inv (float_pow : Q -> Q -> Q) (beam : list _Hypothesis)
  (bs : nat) (finished : list _Hypothesis) (e : token) (topk : tensor Z)
  (lp : tensor Q) (hs : pyval) (attn : option (tensor Q)) (diverse : Q)
  (r : list _Hypothesis * list _Hypothesis) :
  next_search_beam float_pow beam bs finished e topk lp hs attn diverse = Ok r ->
  exists topks lps hl ats hyps_lists,
    _unpack_topk topk lp hs attn = Ok (topks, lps, hl, Some ats) /\
    extend_all beam topks lps hl ats diverse = Ok hyps_lists /\
    _clean_beam float_pow finished (concat hyps_lists) e bs true = Ok r.
Proof.
  unfold next_search_beam. intros H.
  destruct (_unpack_topk topk lp hs attn) as [[[[topks lps] hl] [ats|]]|err];
    simpl in H; try discriminate.
  destruct (extend_all beam topks lps hl ats diverse) as [hyps_lists|err] eqn:Eext;
    simpl in H; [|discriminate].
  exists topks, lps, hl, ats, hyps_lists. auto.
Qed.

Lemma next_search_beam_cnn_inv (beam : list _Hypothesis)
  (bs : nat) (finished : list _Hypothesis) (e : token) (topk : tensor Z)
  (lp : tensor Q) (hs : pyval) (attn : option (tensor Q)) (diverse : Q)
  (r : list _Hypothesis * list _Hypothesis) :
  next_search_beam_cnn beam bs finished e topk lp hs attn diverse = Ok r ->
  exists topks lps hl ats hyps_lists,
    _unpack_topk topk lp hs attn = Ok (topks, lps, hl, Some ats) /\
    extend_all beam topks lps hl ats diverse = Ok hyps_lists /\
    _clean_beam_cnn finished (concat hyps_lists) e bs true = Ok r.
Proof.
  unfold next_search_beam_cnn. intros H.
  destruct (_unpack_topk topk lp hs attn) as [[[[topks lps] hl] [ats|]]|err];
    simpl in H; try discriminate.
  destruct (extend_all beam topks lps hl ats diverse) as [hyps_lists|err] eqn:Eext;
    simpl in H; [|discriminate].
  exists topks, lps, hl, ats, hyps_lists. auto.
Qed.

(** C8. In both variants the finished list a beam step returns is in
    descending order of the plain mean [logprob / len(sequence)], also in the
    variant that ranks the pool by the Wu length penalty. *)
Theorem finished_sorted_by_plain_mean :
  forall float_pow finished beam end_tok beam_size remove_tri fin nb,
    _clean_beam float_pow finished beam end_tok beam_size remove_tri = Ok (fin, nb) \/
    _clean_beam_cnn finished beam end_tok beam_size remove_tri = Ok (fin, nb) \/
    (exists topk lp hs attn diverse,
        next_search_beam float_pow beam beam_size finished end_tok
                         topk lp hs attn diverse = Ok (fin, nb)) \/
    (exists topk lp hs attn diverse,
        next_search_beam_cnn beam beam_size finished end_tok
                             topk lp hs attn diverse = Ok (fin, nb)) ->
    sorted_by mean_score fin.
Proof.
  intros fp finished beam e bs rt fin nb H.
  assert (Hsoft : forall pool rt', _clean_beam fp finished pool e bs rt' = Ok (fin, nb) ->
                                   sorted_by mean_score fin).
  { intros pool rt' Hc. apply clean_beam_inv in Hc as (st & Hrun & -> & _).
    apply clean_beam_run_spec in Hrun as (p & k & _ & _ & _ & _ & _ & _ & Hs & _).
    exact Hs. }
  assert (Hcnn : forall pool rt', _clean_beam_cnn finished pool e bs rt' = Ok (fin, nb) ->
                                  sorted_by mean_score fin).
  { intros pool rt' Hc. apply clean_beam_cnn_inv in Hc as (st & Hrun & -> & _).
    apply clean_beam_cnn_run_spec in Hrun as (p & k & _ & _ & _ & _ & _ & _ & Hs & _).
    exact Hs. }
  destruct H as [H|[H|[H|H]]].
  - eapply Hsoft, H.
  - eapply Hcnn, H.
  - destruct H as (topk & lp & hs & attn & d & H).
    apply next_search_beam_inv in H as (? & ? & ? & ? & hl & _ & _ & H).
    eapply Hsoft, H.
  - destruct H as (topk & lp & hs & attn & d & H).
    apply next_search_beam_cnn_inv in H as (? & ? & ? & ? & hl & _ & _ & H).
    eapply Hcnn, H.
Qed.

(** [finished_sorted_by_plain_mean] on a pool ranked by the Wu key: the
    candidate [0,4,9] is promoted past the finished [0,1], and the one
    remaining candidate is padded to a beam of two. *)
Lemma finished_sorted_by_plain_mean_witness :
  sorted_by mean_score
    [mkHypothesis [0; 4]%Z (-(1)) (PTuple []) [] None;
     mkHypothesis [0; 1]%Z (-(3)) (PTuple []) [] None].
Proof.
  exact (finished_sorted_by_plain_mean pow_linear
           [mkHypothesis [0; 1]%Z (-(3)) (PTuple []) [] None]
           [mkHypothesis [0; 5; 6]%Z (-(2)) (PTuple []) [] None;
            mkHypothesis [0; 4; 9]%Z (-(1)) (PTuple []) [] None]
           9%Z 2 true
           (nb := [mkHypothesis [0; 5; 6]%Z (-(2)) (PTuple []) [] None;
                   mkHypothesis [0; 5; 6]%Z (-(2)) (PTuple []) [] None])
           (or_introl eq_refl)).
Defined.

(** ** When a beam step returns *)

Lemma In_firstn {A : Type} (k : nat) (l : list A) (x : A) :
  In x (firstn k l) -> In x l.
Proof.
  intros H. rewrite <- (firstn_skipn k l). apply in_or_app. left. exact H.
Qed.

Lemma len_Q_nonzero {A : Type} (xs : list A) :
  xs <> [] -> Qeq_bool (len_Q xs) 0 = false.
Proof.
  intros Hne. destruct (Qeq_bool (len_Q xs) 0) eqn:E; [|reflexivity].
  apply Qeq_bool_eq in E. unfold len_Q, Qeq in E. simpl in E.
  destruct xs; [congruence | simpl in E; lia].
Qed.

Lemma mean_score_ok (h : _Hypothesis) :
  sequence h <> [] -> exists k, mean_score h = Ok k.
Proof.
  intros Hne. unfold mean_score, py_div. rewrite (len_Q_nonzero Hne).
  eexists; reflexivity.
Qed.

Lemma length_wu_pos (float_pow : Q -> Q -> Q) (n : nat) :
  (forall b, 0 < b -> 0 < float_pow b (9 # 10)) ->
  0 < length_wu float_pow n (9 # 10).
Proof.
  intros Hpos. unfold length_wu. apply Hpos.
  assert (H : 0 <= inject_Z (Z.of_nat n)).
  { unfold Qle. simpl. lia. }
  apply Qlt_shift_div_l; lra.
Qed.

Lemma wu_score_ok (float_pow : Q -> Q -> Q) (h : _Hypothesis) :
  (forall b, 0 < b -> 0 < float_pow b (9 # 10)) ->
  wu_score float_pow h =
  Ok (logprob h / length_wu float_pow (length (sequence h)) (9 # 10)).
Proof.
  intros Hpos. unfold wu_score, py_div.
  pose proof (@length_wu_pos float_pow (length (sequence h)) Hpos) as Hlt.
  destruct (Qeq_bool _ 0) eqn:E; [|reflexivity].
  apply Qeq_bool_eq in E. rewrite E in Hlt. exfalso. apply (Qlt_irrefl 0), Hlt.
Qed.

Lemma finish_step_ok (bs : nat) (st : loop_state) :
  (ls_broke st = false -> ls_new_beam st <> []) ->
  Forall (fun h => sequence h <> []) (ls_finished st) ->
  exists st', finish_step bs st = Ok st'.
Proof.
  intros Hnb Hfin. unfold finish_step.
  assert (H1 : exists nb,
             (if ls_broke st then Ok (ls_new_beam st)
              else ensure_beam_size (bs - length (ls_new_beam st)) (ls_new_beam st))
             = Ok nb).
  { destruct (ls_broke st); [eexists; reflexivity|].
    rewrite ensure_beam_size_spec.
    destruct (bs - length (ls_new_beam st))%nat; [eexists; reflexivity|].
    destruct (ls_new_beam st); [exfalso; apply Hnb; reflexivity | eexists; reflexivity]. }
  destruct H1 as [nb ->]. simpl.
  destruct (sorted_reverse_ok mean_score (xs := ls_finished st)) as [fin ->].
  { eapply Forall_impl; [|exact Hfin]. intros h. apply mean_score_ok. }
  simpl. eexists; reflexivity.
Qed.

Lemma removelast_nonempty {A : Type} (xs : list A) :
  (2 <= length xs)%nat -> removelast xs <> [].
Proof.
  destruct xs as [|x [|y xs]]; simpl; try lia. intros _. discriminate.
Qed.

Lemma long_sequence_nonempty (h : _Hypothesis) :
  (2 <= length (sequence h))%nat -> sequence h <> [].
Proof. destruct (sequence h); simpl; [lia | discriminate]. Qed.

(** The promoted candidates keep a non-empty sequence. *)
Lemma promoted_nonempty (cov : _Hypothesis -> option (tensor Q))
  (P : _Hypothesis -> bool) (hs : list _Hypothesis) :
  Forall (fun h => (2 <= length (sequence h))%nat) hs ->
  Forall (fun h => sequence h <> []) (map (promote cov) (filter P hs)).
Proof.
  intros HF. apply Forall_map. apply Forall_forall. intros h Hin.
  apply filter_In in Hin as [Hin _]. rewrite Forall_forall in HF.
  unfold promote. simpl. apply removelast_nonempty, HF, Hin.
Qed.

Lemma Forall_firstn {A : Type} (P : A -> Prop) (k : nat) (l : list A) :
  Forall P l -> Forall P (firstn k l).
Proof.
  rewrite !Forall_forall. intros H x Hx. apply H. eapply In_firstn, Hx.
Qed.

Lemma filter_none {A : Type} (P : A -> bool) (l : list A) :
  Forall (fun x => P x = false) l -> filter P l = [].
Proof.
  induction 1 as [|x l Hx _ IH]; simpl; [reflexivity|]. rewrite Hx. exact IH.
Qed.

Lemma filter_nonempty {A : Type} (P : A -> bool) (l : list A) (x : A) :
  In x l -> P x = true -> filter P l <> [].
Proof.
  intros Hin HP Hnil.
  assert (Hx : In x (filter P l)) by (apply filter_In; auto).
  rewrite Hnil in Hx. contradiction.
Qed.

(** [_clean_beam] returns when the scores are defined and a candidate can
    be accepted. *)
Lemma clean_beam_run_ok (float_pow : Q -> Q -> Q)
  (finished beam : list _Hypothesis) (e : token) (bs : nat) (rt : bool) :
  (forall b, 0 < b -> 0 < float_pow b (9 # 10)) ->
  Forall (fun h => (2 <= length (sequence h))%nat) beam ->
  Forall (fun h => (1 <= length (sequence h))%nat) finished ->
  Exists (fun h => ends_with e h = false) beam ->
  exists st, _clean_beam_run float_pow finished beam e bs rt = Ok st.
Proof.
  intros Hpos Hbeam Hfin Hex. unfold _clean_beam_run.
  destruct (sorted_reverse_ok (wu_score float_pow) (xs := beam)) as [pool Epool].
  { apply Forall_forall. intros h _. eexists. apply wu_score_ok, Hpos. }
  rewrite Epool. simpl.
  destruct (sorted_reverse_spec _ _ Epool) as [Hperm _].
  assert (Hpool : Forall (fun h => (2 <= length (sequence h))%nat) pool).
  { eapply Permutation_Forall; [apply Permutation_sym, Hperm | exact Hbeam]. }
  destruct (clean_loop_ok e bs rt (pool := pool) finished [] []) as [st0 Eloop].
  { eapply Forall_impl; [|exact Hpool]. intros h. apply long_sequence_nonempty. }
  rewrite Eloop. simpl.
  destruct (clean_loop_spec _ _ _ _ _ _ _ Eloop)
    as (k & Hk & Hv & Hn & Hf & Hb & Hl & Hs).
  simpl in Hn. apply finish_step_ok.
  - intros Hbr. rewrite Hn, (Hb Hbr), firstn_all.
    apply (Permutation_Exists (Permutation_sym Hperm)) in Hex.
    apply Exists_exists in Hex as (h & Hin & Hh).
    apply filter_nonempty with (x := penalize rt h).
    + apply in_map, Hin.
    + rewrite ends_with_penalize, Hh. reflexivity.
  - rewrite Hf. apply Forall_app. split.
    + eapply Forall_impl; [|exact Hfin]. intros h Hh Hnil.
      cbv beta in Hh. rewrite Hnil in Hh. simpl in Hh. lia.
    + apply promoted_nonempty. apply Forall_map.
      eapply Forall_impl; [|apply Forall_firstn, Hpool].
      intros h Hh. rewrite sequence_penalize. exact Hh.
Qed.

(** [_clean_beam_cnn] returns when the scores are defined and a candidate
    that is not excluded can be accepted. *)
Lemma clean_beam_cnn_run_ok (finished beam : list _Hypothesis) (e : token)
  (bs : nat) (rt : bool) :
  Forall (fun h => (2 <= length (sequence h))%nat) beam ->
  Forall (fun h => (1 <= length (sequence h))%nat) finished ->
  Exists (fun h => ends_with e h = false /\ excluded rt h = false) beam ->
  exists st, _clean_beam_cnn_run finished beam e bs rt = Ok st.
Proof.
  intros Hbeam Hfin Hex. unfold _clean_beam_cnn_run.
  destruct (sorted_reverse_ok mean_score (xs := beam)) as [pool Epool].
  { eapply Forall_impl; [|exact Hbeam].
    intros h Hh. apply mean_score_ok, long_sequence_nonempty, Hh. }
  rewrite Epool. simpl.
  destruct (sorted_reverse_spec _ _ Epool) as [Hperm _].
  assert (Hpool : Forall (fun h => (2 <= length (sequence h))%nat) pool).
  { eapply Permutation_Forall; [apply Permutation_sym, Hperm | exact Hbeam]. }
  destruct (clean_loop_cnn_ok e bs rt (pool := pool) finished [] []) as [st0 Eloop].
  { eapply Forall_impl; [|exact Hpool]. intros h. apply long_sequence_nonempty. }
  rewrite Eloop. simpl.
  destruct (clean_loop_cnn_spec _ _ _ _ _ _ _ Eloop)
    as (k & Hk & Hv & Hn & Hf & Hb & Hl & Hs).
  simpl in Hn. apply finish_step_ok.
  - intros Hbr. rewrite Hn, (Hb Hbr), firstn_all.
    apply (Permutation_Exists (Permutation_sym Hperm)) in Hex.
    apply Exists_exists in Hex as (h & Hin & Hh & Hx).
    apply filter_nonempty with (x := h).
    + apply filter_In. split; [exact Hin | rewrite Hx; reflexivity].
    + rewrite Hh. reflexivity.
  - rewrite Hf. apply Forall_app. split.
    + eapply Forall_impl; [|exact Hfin]. intros h Hh Hnil.
      cbv beta in Hh. rewrite Hnil in Hh. simpl in Hh. lia.
    + apply promoted_nonempty. apply Forall_forall. intros h Hin.
      apply filter_In in Hin as [Hin _]. apply In_firstn in Hin.
      rewrite Forall_forall in Hpool. apply Hpool, Hin.
Qed.

Lemma length_padded (accepted : list _Hypothesis) (bs : nat) :
  accepted <> [] -> (length accepted <= bs)%nat ->
  length (accepted ++ pad_first accepted (bs - length accepted)) = bs.
Proof.
  intros Hne Hle. rewrite length_app, length_pad_first by exact Hne. lia.
Qed.

(** The new beam after the padding: the candidates the loop has accepted,
    which stop at [beam_size] or exhaust the pool, then copies of the first. *)
Lemma padded_new_beam (bs k n : nat) (st0 st : loop_state) :
  (1 <= bs)%nat ->
  (ls_broke st0 = false -> k = n) ->
  (if ls_broke st0 then length (ls_new_beam st0) = bs
   else (length (ls_new_beam st0) < bs)%nat) ->
  finish_step bs st0 = Ok st ->
  ls_new_beam st0 <> [] /\
  (length (ls_new_beam st0) <= bs)%nat /\
  ((length (ls_new_beam st0) < bs)%nat -> k = n) /\
  ls_new_beam st =
    ls_new_beam st0 ++ pad_first (ls_new_beam st0) (bs - length (ls_new_beam st0)).
Proof.
  intros Hbs Hb Hl Hfin.
  destruct (finish_step_spec _ _ Hfin) as (_ & _ & _ & _ & Hpad).
  destruct (ls_broke st0).
  - split; [intros E; rewrite E in Hl; simpl in Hl; lia|].
    split; [lia|]. split; [lia|].
    rewrite Hpad, Hl, Nat.sub_diag.
    destruct (ls_new_beam st0); simpl; rewrite ?app_nil_r; reflexivity.
  - destruct Hpad as [Hpad Hz].
    split; [intros E; specialize (Hz E); lia|].
    split; [lia|]. split; [intros _; apply Hb; reflexivity | exact Hpad].
Qed.

(** What [_clean_beam] returns, written out from the ranked pool. *)
Lemma clean_beam_exact (float_pow : Q -> Q -> Q)
  (finished beam : list _Hypothesis) (e : token) (bs : nat) (rt : bool)
  (fin nb : list _Hypothesis) :
  (1 <= bs)%nat ->
  _clean_beam float_pow finished beam e bs rt = Ok (fin, nb) ->
  exists pool k,
    sorted_reverse (wu_score float_pow) beam = Ok pool /\
    (k <= length pool)%nat /\
    let accepted :=
      filter (fun h => negb (ends_with e h)) (map (penalize rt) (firstn k pool)) in
    accepted <> [] /\ (length accepted <= bs)%nat /\
    ((length accepted < bs)%nat -> k = length pool) /\
    nb = accepted ++ pad_first accepted (bs - length accepted).
Proof.
  intros Hbs H. apply clean_beam_inv in H as (st & Hrun & _ & ->).
  unfold _clean_beam_run in Hrun.
  destruct (sorted_reverse (wu_score float_pow) beam) as [pool|err] eqn:Epool;
    simpl in Hrun; [|discriminate].
  destruct (clean_loop e bs rt pool finished [] []) as [st0|err] eqn:Eloop;
    simpl in Hrun; [|discriminate].
  destruct (clean_loop_spec _ _ _ _ _ _ _ Eloop)
    as (k & Hk & _ & Hn & _ & Hb & Hl & _).
  simpl in Hn, Hl. specialize (Hl Hbs).
  exists pool, k. split; [reflexivity|]. split; [exact Hk|].
  cbv zeta. rewrite <- Hn.
  eapply padded_new_beam; eassumption.
Qed.

(** What [_clean_beam_cnn] returns, written out from the ranked pool. *)
Lemma clean_beam_cnn_exact (finished beam : list _Hypothesis) (e : token)
  (bs : nat) (rt : bool) (fin nb : list _Hypothesis) :
  (1 <= bs)%nat ->
  _clean_beam_cnn finished beam e bs rt = Ok (fin, nb) ->
  exists pool k,
    sorted_reverse mean_score beam = Ok pool /\
    (k <= length pool)%nat /\
    let accepted :=
      filter (fun h => negb (ends_with e h))
             (filter (fun h => negb (excluded rt h)) (firstn k pool)) in
    accepted <> [] /\ (length accepted <= bs)%nat /\
    ((length accepted < bs)%nat -> k = length pool) /\
    nb = accepted ++ pad_first accepted (bs - length accepted).
Proof.
  intros Hbs H. apply clean_beam_cnn_inv in H as (st & Hrun & _ & ->).
  unfold _clean_beam_cnn_run in Hrun.
  destruct (sorted_reverse mean_score beam) as [pool|err] eqn:Epool;
    simpl in Hrun; [|discriminate].
  destruct (clean_loop_cnn e bs rt pool finished [] []) as [st0|err] eqn:Eloop;
    simpl in Hrun; [|discriminate].
  destruct (clean_loop_cnn_spec _ _ _ _ _ _ _ Eloop)
    as (k & Hk & _ & Hn & _ & Hb & Hl & _).
  simpl in Hn, Hl. specialize (Hl Hbs).
  exists pool, k. split; [reflexivity|]. split; [exact Hk|].
  cbv zeta. rewrite <- Hn.
  eapply padded_new_beam; eassumption.
Qed.

Lemma ends_with_nonempty (e : token) (h : _Hypothesis) :
  ends_with e h = true -> sequence h <> [].
Proof. unfold ends_with. destruct (sequence h); [discriminate | discriminate]. Qed.

Lemma excluded_nonempty (rt : bool) (h : _Hypothesis) :
  excluded rt h = true -> sequence h <> [].
Proof.
  unfold excluded. intros H. apply andb_true_iff in H as [_ H].
  intros E. rewrite E in H. discriminate.
Qed.

(** The padding of an empty beam, which the loop has not left by [break]. *)
Lemma finish_step_empty_beam (bs : nat) (st0 : loop_state) :
  (1 <= bs)%nat -> ls_new_beam st0 = [] ->
  (if ls_broke st0 then length (ls_new_beam st0) = bs
   else (length (ls_new_beam st0) < bs)%nat) ->
  finish_step bs st0 = Raise IndexError.
Proof.
  intros Hbs Hnil Hl. unfold finish_step. rewrite Hnil in *.
  destruct (ls_broke st0); simpl in Hl; [lia|].
  destruct bs as [|bs]; [lia|]. reflexivity.
Qed.

(** When every candidate ends with the end token, [_clean_beam] accepts
    none and the padding raises. *)
Lemma clean_beam_none_accepted (float_pow : Q -> Q -> Q)
  (finished beam : list _Hypothesis) (e : token) (bs : nat) (rt : bool) :
  (forall b, 0 < b -> 0 < float_pow b (9 # 10)) ->
  (1 <= bs)%nat ->
  Forall (fun h => ends_with e h = true) beam ->
  _clean_beam float_pow finished beam e bs rt = Raise IndexError.
Proof.
  intros Hpos Hbs Hall. unfold _clean_beam, _clean_beam_run.
  destruct (sorted_reverse_ok (wu_score float_pow) (xs := beam)) as [pool Epool].
  { apply Forall_forall. intros h _. eexists. apply wu_score_ok, Hpos. }
  rewrite Epool. simpl.
  destruct (sorted_reverse_spec _ _ Epool) as [Hperm _].
  assert (Hpool : Forall (fun h => ends_with e h = true) pool).
  { eapply Permutation_Forall; [apply Permutation_sym, Hperm | exact Hall]. }
  destruct (clean_loop_ok e bs rt (pool := pool) finished [] []) as [st0 Eloop].
  { eapply Forall_impl; [|exact Hpool]. intros h. apply ends_with_nonempty. }
  rewrite Eloop. simpl.
  destruct (clean_loop_spec _ _ _ _ _ _ _ Eloop)
    as (k & _ & _ & Hn & _ & _ & Hl & _).
  simpl in Hn, Hl. specialize (Hl Hbs).
  rewrite filter_none in Hn.
  2:{ apply Forall_map. eapply Forall_impl; [|apply Forall_firstn, Hpool].
      intros h Hh. cbv beta. rewrite ends_with_penalize, Hh. reflexivity. }
  rewrite (finish_step_empty_beam st0 Hbs Hn Hl). reflexivity.
Qed.

(** When every candidate ends with the end token or is excluded,
    [_clean_beam_cnn] accepts none and the padding raises. *)
Lemma clean_beam_cnn_none_accepted (finished beam : list _Hypothesis)
  (e : token) (bs : nat) (rt : bool) :
  (1 <= bs)%nat ->
  Forall (fun h => ends_with e h = true \/ excluded rt h = true) beam ->
  _clean_beam_cnn finished beam e bs rt = Raise IndexError.
Proof.
  intros Hbs Hall. unfold _clean_beam_cnn, _clean_beam_cnn_run.
  assert (Hne : forall h, ends_with e h = true \/ excluded rt h = true ->
                          sequence h <> []).
  { intros h [H|H]; [eapply ends_with_nonempty | eapply excluded_nonempty];
      eassumption. }
  destruct (sorted_reverse_ok mean_score (xs := beam)) as [pool Epool].
  { eapply Forall_impl; [|exact Hall]. intros h Hh. apply mean_score_ok, Hne, Hh. }
  rewrite Epool. simpl.
  destruct (sorted_reverse_spec _ _ Epool) as [Hperm _].
  assert (Hpool : Forall (fun h => ends_with e h = true \/ excluded rt h = true) pool).
  { eapply Permutation_Forall; [apply Permutation_sym, Hperm | exact Hall]. }
  destruct (clean_loop_cnn_ok e bs rt (pool := pool) finished [] []) as [st0 Eloop].
  { eapply Forall_impl; [|exact Hpool]. exact Hne. }
  rewrite Eloop. simpl.
  destruct (clean_loop_cnn_spec _ _ _ _ _ _ _ Eloop)
    as (k & _ & _ & Hn & _ & _ & Hl & _).
  simpl in Hn, Hl. specialize (Hl Hbs).
  assert (Hnil : ls_new_beam st0 = []).
  { rewrite Hn. apply filter_none. apply Forall_forall. intros h Hin.
    apply filter_In in Hin as [Hin Hx]. apply negb_true_iff in Hx.
    apply In_firstn in Hin. rewrite Forall_forall in Hpool.
    destruct (Hpool h Hin) as [Hh|Hh]; [rewrite Hh; reflexivity | congruence]. }
  rewrite (finish_step_empty_beam st0 Hbs Hnil Hl). reflexivity.
Qed.

(** C2.  The padding under the comment "ensure beam size" misses the empty
    beam.  For [beam_size >= 1]:
    - a step that returns gives a new beam of exactly [beam_size] entries:
      the candidates the loop has accepted from the ranked pool, at least one,
      which number [beam_size] or are all the pool has, followed by copies of
      the first of them;
    - the step returns when every candidate has at least two tokens, every
      finished sequence at least one, and some candidate can be accepted;
    - when no candidate can be accepted (each ends with the end token or, in
      the cnn variant, is excluded) the step raises IndexError, where the
      documented invariant has it return a padded beam.  [next_search_beam] gets there from
      a beam of one hypothesis whose only candidate token is the end token. *)
Theorem ensure_beam_size_misses_empty_beam :
  (forall float_pow finished beam end_tok beam_size remove_tri fin nb,
      (1 <= beam_size)%nat ->
      _clean_beam float_pow finished beam end_tok beam_size remove_tri = Ok (fin, nb) ->
      length nb = beam_size /\
      exists pool k,
        sorted_reverse (wu_score float_pow) beam = Ok pool /\
        (k <= length pool)%nat /\
        let accepted :=
          filter (fun h => negb (ends_with end_tok h))
                 (map (penalize remove_tri) (firstn k pool)) in
        accepted <> [] /\ (length accepted <= beam_size)%nat /\
        ((length accepted < beam_size)%nat -> k = length pool) /\
        nb = accepted ++ pad_first accepted (beam_size - length accepted)) /\
  (forall finished beam end_tok beam_size remove_tri fin nb,
      (1 <= beam_size)%nat ->
      _clean_beam_cnn finished beam end_tok beam_size remove_tri = Ok (fin, nb) ->
      length nb = beam_size /\
      exists pool k,
        sorted_reverse mean_score beam = Ok pool /\
        (k <= length pool)%nat /\
        let accepted :=
          filter (fun h => negb (ends_with end_tok h))
                 (filter (fun h => negb (excluded remove_tri h)) (firstn k pool)) in
        accepted <> [] /\ (length accepted <= beam_size)%nat /\
        ((length accepted < beam_size)%nat -> k = length pool) /\
        nb = accepted ++ pad_first accepted (beam_size - length accepted)) /\
  (forall float_pow beam beam_size finished end_tok topk lp hs attn diverse fin nb,
      (1 <= beam_size)%nat ->
      next_search_beam float_pow beam beam_size finished end_tok
                       topk lp hs attn diverse = Ok (fin, nb) \/
      next_search_beam_cnn beam beam_size finished end_tok
                           topk lp hs attn diverse = Ok (fin, nb) ->
      length nb = beam_size) /\
  (forall float_pow finished beam end_tok beam_size remove_tri,
      (1 <= beam_size)%nat ->
      (forall b, 0 < b -> 0 < float_pow b (9 # 10)) ->
      Forall (fun h => (2 <= length (sequence h))%nat) beam ->
      Forall (fun h => (1 <= length (sequence h))%nat) finished ->
      (Exists (fun h => ends_with end_tok h = false) beam ->
       exists fin nb,
         _clean_beam float_pow finished beam end_tok beam_size remove_tri
         = Ok (fin, nb)) /\
      (Exists (fun h => ends_with end_tok h = false /\ excluded remove_tri h = false)
              beam ->
       exists fin nb,
         _clean_beam_cnn finished beam end_tok beam_size remove_tri = Ok (fin, nb))) /\
  (forall float_pow finished beam end_tok beam_size remove_tri,
      (1 <= beam_size)%nat ->
      (forall b, 0 < b -> 0 < float_pow b (9 # 10)) ->
      Forall (fun h => ends_with end_tok h = true) beam ->
      _clean_beam float_pow finished beam end_tok beam_size remove_tri
      = Raise IndexError) /\
  (forall finished beam end_tok beam_size remove_tri,
      (1 <= beam_size)%nat ->
      Forall (fun h => ends_with end_tok h = true \/ excluded remove_tri h = true) beam ->
      _clean_beam_cnn finished beam end_tok beam_size remove_tri = Raise IndexError) /\
  (forall float_pow hs0,
      (forall b, 0 < b -> 0 < float_pow b (9 # 10)) ->
      next_search_beam float_pow [mkHypothesis [0]%Z 0 hs0 [] None] 1 [] 9%Z
        (Nest [Nest [Scalar 9%Z]])
        (Nest [Nest [Scalar (-(1 # 2))]])
        (PTensor (Nest [Nest [Nest [Scalar 1]]]))
        (Some (Nest [Nest [Scalar 1]])) 1
      = Raise IndexError) /\
  (forall hs0,
      next_search_beam_cnn [mkHypothesis [0]%Z 0 hs0 [] None] 1 [] 9%Z
        (Nest [Nest [Scalar 9%Z]])
        (Nest [Nest [Scalar (-(1 # 2))]])
        (PTensor (Nest [Nest [Nest [Scalar 1]]]))
        (Some (Nest [Nest [Scalar 1]])) 1
      = Raise IndexError).
Proof.
  assert (Hsoft : forall fp finished pool e bs rt fin nb,
             (1 <= bs)%nat ->
             _clean_beam fp finished pool e bs rt = Ok (fin, nb) -> length nb = bs).
  { intros fp finished pool e bs rt fin nb Hbs H.
    destruct (clean_beam_exact _ _ _ _ _ Hbs H)
      as (p & k & _ & _ & Hne & Hle & _ & Hnb).
    rewrite Hnb. apply length_padded; assumption. }
  assert (Hcnn : forall finished pool e bs rt fin nb,
             (1 <= bs)%nat ->
             _clean_beam_cnn finished pool e bs rt = Ok (fin, nb) -> length nb = bs).
  { intros finished pool e bs rt fin nb Hbs H.
    destruct (clean_beam_cnn_exact _ _ _ _ Hbs H)
      as (p & k & _ & _ & Hne & Hle & _ & Hnb).
    rewrite Hnb. apply length_padded; assumption. }
  split; [|split; [|split; [|split; [|split; [|split; [|split]]]]]].
  - intros fp finished beam e bs rt fin nb Hbs H.
    split; [eapply Hsoft; eassumption|].
    eapply clean_beam_exact; eassumption.
  - intros finished beam e bs rt fin nb Hbs H.
    split; [eapply Hcnn; eassumption|].
    eapply clean_beam_cnn_exact; eassumption.
  - intros fp beam bs finished e topk lp hs attn d fin nb Hbs [H|H].
    + apply next_search_beam_inv in H as (? & ? & ? & ? & hl & _ & _ & H).
      eapply Hsoft; eassumption.
    + apply next_search_beam_cnn_inv in H as (? & ? & ? & ? & hl & _ & _ & H).
      eapply Hcnn; eassumption.
  - intros fp finished beam e bs rt Hbs Hpos Hbeam Hfin. split; intros Hex.
    + destruct (@clean_beam_run_ok fp finished beam e bs rt Hpos Hbeam Hfin Hex)
        as [st Hst].
      exists (ls_finished st), (ls_new_beam st).
      unfold _clean_beam. rewrite Hst. reflexivity.
    + destruct (@clean_beam_cnn_run_ok finished beam e bs rt Hbeam Hfin Hex)
        as [st Hst].
      exists (ls_finished st), (ls_new_beam st).
      unfold _clean_beam_cnn. rewrite Hst. reflexivity.
  - intros fp finished beam e bs rt Hbs Hpos Hall.
    apply clean_beam_none_accepted; assumption.
  - intros finished beam e bs rt Hbs Hall.
    apply clean_beam_cnn_none_accepted; assumption.
  - intros fp hs0 Hpos.
    change (_clean_beam fp []
              [mkHypothesis [0; 9]%Z (0 + -(1 # 2) - 1 * inject_Z (Z.of_nat 0))
                            (PTensor (Nest [Nest [Scalar 1]]))
                            [Nest [Scalar 1]] (Some (Nest [Scalar 1]))]
              9%Z 1 true = Raise IndexError).
    apply clean_beam_none_accepted; [exact Hpos | lia |].
    constructor; [reflexivity | constructor].
  - intros hs0. reflexivity.
Qed.

(** [ensure_beam_size_misses_empty_beam] on the pool of the one candidate
    [0, 4, 9] with end token 9 and beam size 1: nothing is accepted and the
    padding raises. *)
Lemma ensure_beam_size_misses_empty_beam_witness :
  _clean_beam pow_linear [] [mkHypothesis [0; 4; 9]%Z (-(1)) (PTuple []) [] None]
              9%Z 1 true = Raise IndexError.
Proof.
  refine (proj1 (proj2 (proj2 (proj2 (proj2 ensure_beam_size_misses_empty_beam))))
            pow_linear [] [mkHypothesis [0; 4; 9]%Z (-(1)) (PTuple []) [] None]
            9%Z 1%nat true _ _ _).
  - lia.
  - intros b Hb. unfold pow_linear. lra.
  - constructor; [reflexivity | constructor].
Defined.

(** ** The two repetition policies *)


Lemma penalize_repeat (h : _Hypothesis) :
  _has_repeat_tri (sequence h) = true -> penalize true h = set_logprob h sentinel.
Proof. unfold penalize. simpl. intros ->. reflexivity. Qed.



Lemma Qle_bool_div_false (x y w : Q) :
  0 < w -> y < x -> Qle_bool (x / w) (y / w) = false.
Proof.
  intros Hw Hxy. apply not_true_iff_false. intros Hle.
  apply Qle_bool_iff in Hle.
  unfold Qdiv in Hle. apply Qmult_le_r in Hle.
  - apply (Qlt_not_le _ _ Hxy), Hle.
  - apply Qinv_lt_0_compat, Hw.
Qed.

(** C9. [_clean_beam] ranks the pool by the Wu key of the scores the
    candidates come in with, and writes -1e9 only while it walks the ranked
    pool.  So the candidate ranked first is looked at first even when it
    repeats a trigram: for [beam_size >= 1] it becomes the first entry of the
    new beam, or is promoted to the finished list, carrying -1e9.  With
    candidates of equal length, one repeating a trigram at score -1 and one
    not at score -2, and beam size 1, the new beam is the repeating one, and
    the other is dropped. *)
Theorem soft_penalty_keeps_rank :
  (forall float_pow finished beam end_tok beam_size st,
      _clean_beam_run float_pow finished beam end_tok beam_size true = Ok st ->
      exists pool k,
        sorted_reverse (wu_score float_pow) beam = Ok pool /\
        Permutation pool beam /\
        sorted_by (wu_score float_pow) pool /\
        ls_visited st = map (penalize true) (firstn k pool) /\
        ((1 <= beam_size)%nat ->
         forall h rest,
           pool = h :: rest -> _has_repeat_tri (sequence h) = true ->
           (ends_with end_tok h = false ->
            hd_error (ls_new_beam st) = Some (set_logprob h sentinel)) /\
           (ends_with end_tok h = true ->
            In (promote coverage (set_logprob h sentinel)) (ls_finished st)))) /\
  (forall float_pow hs,
      (forall b, 0 < b -> 0 < float_pow b (9 # 10)) ->
      let plain := mkHypothesis [0; 1; 2; 3; 4; 5; 6]%Z (-(2)) hs [] None in
      let rep := mkHypothesis [0; 1; 2; 3; 1; 2; 3]%Z (-(1)) hs [] None in
      let rep_end := mkHypothesis [1; 2; 3; 1; 2; 3; 9]%Z (-(1)) hs [] None in
      _has_repeat_tri (sequence plain) = false /\
      _has_repeat_tri (sequence rep) = true /\
      _clean_beam float_pow [] [plain; rep] 9%Z 1 true
      = Ok ([], [set_logprob rep sentinel]) /\
      _clean_beam float_pow [] [plain; rep_end] 9%Z 1 true
      = Ok ([mkHypothesis [1; 2; 3; 1; 2; 3]%Z sentinel hs [] None], [plain])).
Proof.
  split.
  - intros fp finished beam e bs st Hrun.
    apply clean_beam_run_spec in Hrun
      as (pool & k & Hp & _ & _ & Hv & _ & Hperm & _ & Hnb & Hacc).
    cbv zeta in Hnb, Hacc.
    destruct (sorted_reverse_spec _ _ Hp) as [Hpb Hsorted].
    exists pool, k. repeat split; auto.
    + intros Hends. destruct (Hacc H) as [Hne _]. subst pool.
      destruct k as [|k]; [exfalso; apply Hne; reflexivity|].
      rewrite Hnb. simpl. rewrite ends_with_penalize, Hends. simpl.
      rewrite (penalize_repeat _ H1). reflexivity.
    + intros Hends. destruct (Hacc H) as [Hne _]. subst pool.
      destruct k as [|k]; [exfalso; apply Hne; reflexivity|].
      apply (Permutation_in _ (Permutation_sym Hperm)).
      apply in_or_app. right. simpl. rewrite ends_with_penalize, Hends. simpl.
      left. rewrite (penalize_repeat _ H1). reflexivity.
  - intros fp hs Hpos plain rep rep_end.
    pose proof (@length_wu_pos fp 7 Hpos) as Hw.
    assert (Hord : Qle_bool (-(1) / length_wu fp 7 (9 # 10))
                            (-(2) / length_wu fp 7 (9 # 10)) = false).
    { apply Qle_bool_div_false; [exact Hw | reflexivity]. }
    split; [reflexivity|]. split; [reflexivity|].
    split.
    + unfold _clean_beam, _clean_beam_run, sorted_reverse. simpl mapM.
      rewrite !wu_score_ok by exact Hpos. subst plain rep. simpl.
      rewrite Hord. reflexivity.
    + unfold _clean_beam, _clean_beam_run, sorted_reverse. simpl mapM.
      rewrite !wu_score_ok by exact Hpos. subst plain rep_end. simpl.
      rewrite Hord. reflexivity.
Qed.

(** The general part of [soft_penalty_keeps_rank] on a pool whose best
    candidate repeats a trigram and ends with the end token: it is promoted
    with the score -1e9, ahead of the candidate without repetition. *)
Lemma soft_penalty_keeps_rank_witness :
  In (mkHypothesis [0; 1; 2; 3; 1; 2; 3]%Z sentinel (PTuple []) [] None)
     [mkHypothesis [0; 1; 2; 3; 1; 2; 3]%Z sentinel (PTuple []) [] None].
Proof.
  destruct (proj1 soft_penalty_keeps_rank pow_linear []
              [mkHypothesis [0; 5; 6]%Z (-(2)) (PTuple []) [] None;
               mkHypothesis [0; 1; 2; 3; 1; 2; 3; 9]%Z (-(1)) (PTuple []) [] None]
              9%Z 1%nat
              (mkLoop true
                 [mkHypothesis [0; 1; 2; 3; 1; 2; 3]%Z sentinel (PTuple []) [] None]
                 [mkHypothesis [0; 5; 6]%Z (-(2)) (PTuple []) [] None]
                 [mkHypothesis [0; 1; 2; 3; 1; 2; 3; 9]%Z sentinel (PTuple []) [] None;
                  mkHypothesis [0; 5; 6]%Z (-(2)) (PTuple []) [] None])
              eq_refl) as (pool & k & Hp & _ & _ & _ & Hhead).
  vm_compute in Hp. inversion Hp as [Epool].
  exact (proj2 (Hhead (le_n 1) _ _ (eq_sym Epool) eq_refl) eq_refl).
Defined.

(** ** Batch sizes in a beam step *)

Lemma mapM_raise {A B : Type} (f : A -> result B) (xs : list A) (x : A) (e : exn) :
  In x xs -> f x = Raise e -> exists e', mapM f xs = Raise e'.
Proof.
  induction xs as [|x0 xs IH]; intros Hin Hx; [contradiction|]. simpl.
  destruct (f x0) as [y|e0] eqn:E0; simpl; [|eexists; reflexivity].
  destruct Hin as [->|Hin]; [congruence|].
  destruct (IH Hin Hx) as [e' ->]. simpl. eexists; reflexivity.
Qed.

Lemma mapM_ext_in {A B : Type} (f g : A -> result B) (xs : list A) :
  (forall x, In x xs -> f x = g x) -> mapM f xs = mapM g xs.
Proof.
  induction xs as [|x xs IH]; intros H; simpl; [reflexivity|].
  rewrite (H x (or_introl eq_refl)), IH; [reflexivity|].
  intros y Hy. apply H. right. exact Hy.
Qed.

Lemma In_enumerate_lt {A : Type} (xs : list A) (i : nat) (x : A) :
  In (i, x) (enumerate xs) -> (i < length xs)%nat.
Proof.
  unfold enumerate. intros Hin. apply in_combine_l in Hin.
  apply in_seq in Hin. lia.
Qed.

Lemma getitem_firstn {A : Type} (xs : list A) (n i : nat) :
  (i < n)%nat -> getitem (firstn n xs) i = getitem xs i.
Proof. intros Hi. unfold getitem. rewrite nth_error_firstn.
  apply Nat.ltb_lt in Hi. rewrite Hi. reflexivity. Qed.

(** The rows past the length of the beam are never read. *)
Lemma extend_all_firstn (beam : list _Hypothesis) (topks : list (tensor Z))
  (lps : list (tensor Q)) (hl : list pyval) (ats : list (tensor Q)) (d : Q) :
  extend_all beam topks lps hl ats d =
  extend_all beam (firstn (length beam) topks) (firstn (length beam) lps)
             (firstn (length beam) hl) (firstn (length beam) ats) d.
Proof.
  unfold extend_all. apply mapM_ext_in. intros [i h] Hin.
  apply In_enumerate_lt in Hin.
  rewrite !getitem_firstn by exact Hin. reflexivity.
Qed.

Lemma unpack_topk_rows (topk : tensor Z) (lp : tensor Q) (hs : pyval)
  (attn : option (tensor Q)) (topks : list (tensor Z)) (lps : list (tensor Q))
  (hl : list pyval) (oa : option (list (tensor Q))) :
  _unpack_topk topk lp hs attn = Ok (topks, lps, hl, oa) ->
  tensor_iter topk = Ok topks /\ tensor_iter lp = Ok lps.
Proof.
  unfold _unpack_topk. intros H.
  destruct (tensor_size topk) as [|b [|k [|? ?]]]; try discriminate.
  destruct (tensor_iter topk) as [ts|err]; simpl in H; [|discriminate].
  destruct (tensor_iter lp) as [ls|err]; simpl in H; [|discriminate].
  destruct (py_len hs) as [n|err]; simpl in H; [|discriminate].
  match type of H with
  | bind ?c _ = _ => destruct c as [kh|err]; simpl in H; [|discriminate]
  end.
  destruct attn as [a|].
  - destruct (mapM _ _) as [ats|err]; simpl in H; [|discriminate].
    inversion H; subst. auto.
  - inversion H; subst. auto.
Qed.

(** C3, as the code has it.  [next_search_beam] checks no batch size.  When
    the beam holds more hypotheses than the top-k output has rows, the call
    raises.  When it holds fewer, the call reads the first [len(beam)]
    unpacked rows only: two top-k outputs that agree on those rows give the
    same result, whatever rows follow. *)
Theorem next_search_beam_batch_sizes :
  (forall float_pow beam beam_size finished end_tok rows lp hs attn diverse,
      (length rows < length beam)%nat ->
      exists err,
        next_search_beam float_pow beam beam_size finished end_tok
                         (Nest rows) lp hs attn diverse = Raise err) /\
  (forall float_pow beam beam_size finished end_tok diverse
          topk lp hs attn topks lps hl ats
          topk' lp' hs' attn' topks' lps' hl' ats',
      _unpack_topk topk lp hs (Some attn) = Ok (topks, lps, hl, Some ats) ->
      _unpack_topk topk' lp' hs' (Some attn') = Ok (topks', lps', hl', Some ats') ->
      firstn (length beam) topks = firstn (length beam) topks' ->
      firstn (length beam) lps = firstn (length beam) lps' ->
      firstn (length beam) hl = firstn (length beam) hl' ->
      firstn (length beam) ats = firstn (length beam) ats' ->
      next_search_beam float_pow beam beam_size finished end_tok
                       topk lp hs (Some attn) diverse =
      next_search_beam float_pow beam beam_size finished end_tok
                       topk' lp' hs' (Some attn') diverse).
Proof.
  split.
  - intros fp beam bs finished e rows lp hs attn d Hlt. unfold next_search_beam.
    destruct (_unpack_topk (Nest rows) lp hs attn)
      as [[[[topks lps] hl] oa]|err] eqn:Eu; simpl; [|eexists; reflexivity].
    destruct (unpack_topk_rows _ _ _ _ Eu) as [Hrows _].
    simpl in Hrows. inversion Hrows; subst topks.
    destruct oa as [ats|]; simpl; [|eexists; reflexivity].
    destruct (nth_error beam (length rows)) as [h|] eqn:Eh.
    2:{ apply nth_error_None in Eh. lia. }
    destruct (@mapM_raise _ _
                (fun '(i, h) =>
                   t <- getitem rows i ;;
                   l <- getitem lps i ;;
                   hs0 <- getitem hl i ;;
                   a <- getitem ats i ;;
                   extend_k h t l hs0 (Some a) d)
                (enumerate beam) (length rows, h) IndexError) as [e' He'].
    + apply nth_error_In with (n := length rows).
      apply nth_error_enumerate, Eh.
    + unfold getitem at 1.
      replace (nth_error rows (length rows)) with (@None (tensor Z))
        by (symmetry; apply nth_error_None; lia).
      reflexivity.
    + unfold extend_all. rewrite He'. simpl. eexists; reflexivity.
  - intros fp beam bs finished e d topk lp hs attn topks lps hl ats
           topk' lp' hs' attn' topks' lps' hl' ats' Hu Hu' Ht Hl Hh Ha.
    unfold next_search_beam. rewrite Hu, Hu'. simpl.
    rewrite (extend_all_firstn beam topks), (extend_all_firstn beam topks').
    rewrite Ht, Hl, Hh, Ha. reflexivity.
Qed.

(** [next_search_beam_batch_sizes] on a beam of one hypothesis: a top-k
    output of two rows gives what its first row alone gives. *)
Lemma next_search_beam_batch_sizes_witness :
  let h := mkHypothesis [0]%Z 0 (PTensor (Nest [])) [] None in
  next_search_beam pow_linear [h] 1 [] 9%Z
    (Nest [Nest [Scalar 5%Z]; Nest [Scalar 7%Z]])
    (Nest [Nest [Scalar (-(1 # 2))]; Nest [Scalar (-(1 # 4))]])
    (PTensor (Nest [Nest [Nest [Scalar 1]; Nest [Scalar 2]]]))
    (Some (Nest [Nest [Scalar 1]; Nest [Scalar 1]])) 1 =
  next_search_beam pow_linear [h] 1 [] 9%Z
    (Nest [Nest [Scalar 5%Z]])
    (Nest [Nest [Scalar (-(1 # 2))]])
    (PTensor (Nest [Nest [Nest [Scalar 1]]]))
    (Some (Nest [Nest [Scalar 1]])) 1.
Proof.
  cbv zeta.
  exact (proj2 next_search_beam_batch_sizes pow_linear
           [mkHypothesis [0]%Z 0 (PTensor (Nest [])) [] None] 1%nat [] 9%Z 1
           (Nest [Nest [Scalar 5%Z]; Nest [Scalar 7%Z]])
           (Nest [Nest [Scalar (-(1 # 2))]; Nest [Scalar (-(1 # 4))]])
           (PTensor (Nest [Nest [Nest [Scalar 1]; Nest [Scalar 2]]]))
           (Nest [Nest [Scalar 1]; Nest [Scalar 1]])
           [Nest [Scalar 5%Z]; Nest [Scalar 7%Z]]
           [Nest [Scalar (-(1 # 2))]; Nest [Scalar (-(1 # 4))]]
           [PTensor (Nest [Nest [Scalar 1]]); PTensor (Nest [Nest [Scalar 2]])]
           [Nest [Scalar 1]; Nest [Scalar 1]]
           (Nest [Nest [Scalar 5%Z]])
           (Nest [Nest [Scalar (-(1 # 2))]])
           (PTensor (Nest [Nest [Nest [Scalar 1]]]))
           (Nest [Nest [Scalar 1]])
           [Nest [Scalar 5%Z]]
           [Nest [Scalar (-(1 # 2))]]
           [PTensor (Nest [Nest [Scalar 1]])]
           [Nest [Scalar 1]]
           eq_refl eq_refl eq_refl eq_refl eq_refl eq_refl).
Defined.

(** C3 as stated fails.  With a beam of one hypothesis and a top-k output of
    two rows the call returns, having read the first row only: the child
    carries token 5 and the row of token 7 leaves no trace.  A call that
    passes no attention raises whatever the batch sizes. *)
Lemma next_search_beam_ignores_extra_rows :
  let h := mkHypothesis [0]%Z 0 (PTensor (Nest [])) [] None in
  next_search_beam pow_linear [h] 1 [] 9%Z
    (Nest [Nest [Scalar 5%Z]; Nest [Scalar 7%Z]])
    (Nest [Nest [Scalar (-(1 # 2))]; Nest [Scalar (-(1 # 4))]])
    (PTensor (Nest [Nest [Nest [Scalar 1]; Nest [Scalar 2]]]))
    (Some (Nest [Nest [Scalar 1]; Nest [Scalar 1]])) 1
  = Ok ([], [mkHypothesis [0; 5]%Z (-(1 # 2)) (PTensor (Nest [Nest [Scalar 1]]))
                          [Nest [Scalar 1]] (Some (Nest [Scalar 1]))]) /\
  next_search_beam pow_linear [h] 1 [] 9%Z
    (Nest [Nest [Scalar 5%Z]])
    (Nest [Nest [Scalar (-(1 # 2))]])
    (PTensor (Nest [Nest [Nest [Scalar 1]]]))
    None 1
  = Raise ValueError.
Proof. cbv zeta. split; reflexivity. Qed.

(** ** Packing and unpacking *)

Lemma mapM_map {A B C : Type} (f : B -> result C) (g : A -> B) (xs : list A) :
  mapM f (map g xs) = mapM (fun x => f (g x)) xs.
Proof.
  induction xs as [|x xs IH]; simpl; [reflexivity|]. rewrite IH. reflexivity.
Qed.

Lemma mapM_seq_nth {A B : Type} (f : nat -> result B) (g : A -> B) (xs : list A) :
  forall s,
    (forall i x, nth_error xs i = Some x -> f (s + i)%nat = Ok (g x)) ->
    mapM f (seq s (length xs)) = Ok (map g xs).
Proof.
  induction xs as [|x xs IH]; intros s H; simpl; [reflexivity|].
  pose proof (H 0%nat x eq_refl) as H0. rewrite Nat.add_0_r in H0.
  rewrite H0. simpl. rewrite (IH (S s)); [reflexivity|].
  intros i y Hy. rewrite <- (H (S i) y Hy). f_equal. lia.
Qed.

Lemma map_nth_seq {A : Type} (d : A) (xs : list A) :
  map (fun l => nth l xs d) (seq 0 (length xs)) = xs.
Proof.
  induction xs as [|x xs IH]; simpl; [reflexivity|].
  f_equal. rewrite <- seq_shift, map_map. exact IH.
Qed.

Lemma size_of_two_dims {A : Type} (t : tensor A) :
  has_two_dims t = true ->
  exists rows, t = Nest rows /\ hd 0%nat (tensor_size t) = length rows /\
               Forall (fun r => is_nest r = true) rows.
Proof.
  destruct t as [x|rows]; simpl; [discriminate|]. intros H.
  exists rows. split; [reflexivity|]. split.
  - destruct rows; reflexivity.
  - apply Forall_forall. rewrite forallb_forall in H. exact H.
Qed.

Lemma size_eqb_eq (s1 s2 : list nat) : size_eqb s1 s2 = true -> s1 = s2.
Proof. unfold size_eqb. destruct (list_eq_dec Nat.eq_dec s1 s2); congruence. Qed.

(** What [torch.stack] has checked when it returns. *)
Lemma torch_stack_inv {A : Type} (ts : list (tensor A)) (dim : nat) (S : tensor A) :
  torch_stack ts dim = Ok S ->
  S = stack_at dim ts /\ ts <> [] /\
  Forall (fun t => tensor_size t = tensor_size (hd (Nest []) ts)) ts.
Proof.
  unfold torch_stack. destruct ts as [|t0 ts']; [discriminate|].
  destruct (forallb _ ts') eqn:Eall; simpl; [|discriminate].
  destruct (length (tensor_size t0) <? dim)%nat; [discriminate|].
  intros H. inversion H. split; [reflexivity|]. split; [discriminate|].
  constructor; [reflexivity|].
  apply Forall_forall. rewrite forallb_forall in Eall.
  intros t Ht. apply size_eqb_eq, Eall, Ht.
Qed.

(** Stacking along dimension 1 and taking [[:, i, :]] gives back tensor [i]. *)
Lemma stack1_slice_mid (ts : list (tensor Q)) (S : tensor Q) (i : nat) (t : tensor Q) :
  torch_stack ts 1 = Ok S ->
  Forall (fun t => has_two_dims t = true) ts ->
  nth_error ts i = Some t ->
  tensor_slice_mid S i = Ok t.
Proof.
  intros Hst Hwf Hi.
  destruct (torch_stack_inv _ _ Hst) as (-> & Hne & Hsz).
  assert (Hin : In t ts) by (eapply nth_error_In; eassumption).
  rewrite Forall_forall in Hwf, Hsz.
  destruct (size_of_two_dims _ (Hwf t Hin)) as (rows & -> & Hlen & Hrows).
  rewrite (Hsz _ Hin) in Hlen.
  simpl. rewrite Hlen, mapM_map.
  rewrite mapM_ok_map with (g := fun l => nth l rows (Nest [])).
  - simpl. rewrite map_nth_seq. reflexivity.
  - intros l Hl. apply in_seq in Hl.
    unfold getitem. rewrite nth_error_map, Hi. simpl.
    assert (Hr : In (nth l rows (Nest [])) rows) by (apply nth_In; lia).
    rewrite Forall_forall in Hrows. apply Hrows in Hr.
    destruct (nth l rows (Nest [])); [discriminate | reflexivity].
Qed.

(** Stacking along dimension 0 and taking [[i, :]] gives back tensor [i]. *)
Lemma stack0_slice_row (ts : list (tensor Q)) (S : tensor Q) (i : nat) (t : tensor Q) :
  torch_stack ts 0 = Ok S ->
  is_nest t = true ->
  nth_error ts i = Some t ->
  tensor_slice_row S i = Ok t.
Proof.
  intros Hst Hwf Hi.
  destruct (torch_stack_inv _ _ Hst) as (-> & _ & _).
  simpl. unfold getitem. rewrite Hi. simpl.
  destruct t; [discriminate | reflexivity].
Qed.

Lemma stack_part_eq (hyps : list _Hypothesis) (i d : nat) :
  Forall (fun h => py_getitem (hists h) i = Ok (PTensor (state_part i h))) hyps ->
  stack_part hyps i d = torch_stack (map (state_part i) hyps) d.
Proof.
  intros H. unfold stack_part. rewrite Forall_forall in H.
  rewrite mapM_ok_map with (g := fun h => PTensor (state_part i h)) by exact H.
  simpl. rewrite mapM_map. simpl.
  rewrite mapM_ok_map with (g := state_part i) by reflexivity.
  reflexivity.
Qed.

Lemma tensor_size_unsqueeze1 (toks : list token) :
  toks <> [] ->
  tensor_size (unsqueeze1 (Nest (map Scalar toks))) = [length toks; 1%nat].
Proof.
  destruct toks as [|t toks]; [congruence|]. intros _. simpl.
  rewrite !length_map. reflexivity.
Qed.

Lemma item_unsqueezed (toks : list token) :
  mapM item (map (fun r => Nest [r]) (map Scalar toks)) = Ok toks.
Proof.
  rewrite map_map, mapM_map. simpl.
  rewrite mapM_ok_map with (g := fun t : token => t) by reflexivity.
  rewrite map_id. reflexivity.
Qed.

Lemma single_state_hists (h : _Hypothesis) :
  single_state h ->
  hists h = PTensor (state_tensor h) /\ has_two_dims (state_tensor h) = true.
Proof.
  intros (t & Ht & Hd). unfold state_tensor. rewrite Ht. auto.
Qed.

Lemma composite_state_hists (h : _Hypothesis) :
  composite_state h ->
  hists h = PTuple [PTensor (state_part 0 h); PTensor (state_part 1 h);
                    PTensor (state_part 2 h)] /\
  has_two_dims (state_part 0 h) = true /\
  has_two_dims (state_part 1 h) = true /\
  is_nest (state_part 2 h) = true.
Proof.
  intros (a & b & c & Ht & Ha & Hb & Hc). unfold state_part. rewrite Ht.
  simpl. auto.
Qed.

(** C4, as the code has it.  Unpacking what [pack_beam] has packed gives
    back, for each hypothesis, its last token and its state, when the packed
    tokens are presented as a top-k tensor of one column and
    - in the single-tensor convention, the first dimension of the state is
      not 3;
    - in the composite convention, the packed pair [((h, c), out)] is first
      flattened to the triple [(h, c, out)] that [_unpack_topk] expects. *)
Theorem pack_unpack_round_trip :
  (forall hyps token states lp lps,
      pack_beam hyps true = Ok (token, states) ->
      Forall single_state hyps ->
      py_len states <> Ok 3%nat ->
      tensor_iter lp = Ok lps ->
      exists topks,
        _unpack_topk (unsqueeze1 token) lp states None
        = Ok (topks, lps, map hists hyps, None) /\
        mapM item topks = mapM (fun h => last_item (sequence h)) hyps) /\
  (forall hyps token h c out lp lps,
      pack_beam hyps false
      = Ok (token, PTuple [PTuple [PTensor h; PTensor c]; PTensor out]) ->
      Forall composite_state hyps ->
      tensor_iter lp = Ok lps ->
      exists topks,
        _unpack_topk (unsqueeze1 token) lp
                     (PTuple [PTensor h; PTensor c; PTensor out]) None
        = Ok (topks, lps, map hists hyps, None) /\
        mapM item topks = mapM (fun h => last_item (sequence h)) hyps).
Proof.
  split.
  - intros hyps token states lp lps Hpack Hwf Hlen Hlp.
    rewrite Forall_forall in Hwf.
    unfold pack_beam in Hpack.
    destruct (mapM (fun h => last_item (sequence h)) hyps) as [toks|err] eqn:Etoks;
      simpl in Hpack; [|discriminate].
    rewrite mapM_ok_map with (g := state_tensor) in Hpack.
    2:{ intros x Hx. destruct (single_state_hists (Hwf x Hx)) as [-> _]. reflexivity. }
    simpl in Hpack.
    destruct (torch_stack (map state_tensor hyps) 1) as [S|err] eqn:Est;
      simpl in Hpack; [|discriminate].
    inversion Hpack; subst token states. clear Hpack.
    assert (Hn : length toks = length hyps) by (eapply mapM_ok_length; eassumption).
    assert (Hne : toks <> []).
    { destruct (torch_stack_inv _ _ Est) as (_ & Hne & _).
      destruct hyps; [exfalso; apply Hne; reflexivity|].
      destruct toks; [discriminate Hn | discriminate]. }
    exists (map (fun r => Nest [r]) (map Scalar toks)).
    split; [|apply item_unsqueezed].
    unfold _unpack_topk. pose proof (tensor_size_unsqueeze1 Hne) as Hsz.
    unfold token in *. rewrite Hsz.
    cbn [tensor_iter unsqueeze1]. rewrite Hlp. cbn [bind].
    destruct (py_len (PTensor S)) as [n|err] eqn:En.
    2:{ destruct (torch_stack_inv _ _ Est) as (-> & _ & _). discriminate. }
    cbn [bind]. replace (n =? 3)%nat with false
      by (symmetry; apply Nat.eqb_neq; congruence).
    rewrite Hn, mapM_seq_nth with (g := hists); [reflexivity|].
    intros i x Hx. cbn [Nat.add]. unfold slice_mid.
    rewrite (@stack1_slice_mid (map state_tensor hyps) S i (state_tensor x) Est).
    + cbn [bind].
      destruct (single_state_hists (Hwf x (nth_error_In _ _ Hx))) as [-> _].
      reflexivity.
    + apply Forall_map, Forall_forall. intros y Hy.
      apply (single_state_hists (Hwf y Hy)).
    + rewrite nth_error_map, Hx. reflexivity.
  - intros hyps token h c out lp lps Hpack Hwf Hlp.
    rewrite Forall_forall in Hwf.
    unfold pack_beam in Hpack.
    destruct (mapM (fun h => last_item (sequence h)) hyps) as [toks|err] eqn:Etoks;
      simpl in Hpack; [|discriminate].
    assert (Hpart : forall i, (i < 3)%nat ->
               Forall (fun x => py_getitem (hists x) i = Ok (PTensor (state_part i x)))
                      hyps).
    { intros i Hi. apply Forall_forall. intros x Hx.
      destruct (composite_state_hists (Hwf x Hx)) as [Hh _].
      rewrite Hh at 1.
      destruct i as [|[|[|i]]]; try lia; reflexivity. }
    rewrite !stack_part_eq in Hpack by (apply Hpart; lia).
    destruct (torch_stack (map (state_part 0) hyps) 1) as [S0|err] eqn:E0;
      simpl in Hpack; [|discriminate].
    destruct (torch_stack (map (state_part 1) hyps) 1) as [S1|err] eqn:E1;
      simpl in Hpack; [|discriminate].
    destruct (torch_stack (map (state_part 2) hyps) 0) as [S2|err] eqn:E2;
      simpl in Hpack; [|discriminate].
    inversion Hpack; subst token h c out. clear Hpack.
    assert (Hn : length toks = length hyps) by (eapply mapM_ok_length; eassumption).
    assert (Hne : toks <> []).
    { destruct (torch_stack_inv _ _ E0) as (_ & Hne & _).
      destruct hyps; [exfalso; apply Hne; reflexivity|].
      destruct toks; [discriminate Hn | discriminate]. }
    exists (map (fun r => Nest [r]) (map Scalar toks)).
    split; [|apply item_unsqueezed].
    unfold _unpack_topk. pose proof (tensor_size_unsqueeze1 Hne) as Hsz.
    unfold token in *. rewrite Hsz.
    cbn [tensor_iter unsqueeze1]. rewrite Hlp.
    cbn [bind py_len length Nat.eqb].
    rewrite Hn, mapM_seq_nth with (g := hists); [reflexivity|].
    intros i x Hx.
    cbn [Nat.add bind py_getitem getitem nth_error]. unfold slice_mid, slice_row.
    pose proof (Hwf x (nth_error_In _ _ Hx)) as Hcx.
    destruct (composite_state_hists Hcx) as (Hh & _ & _ & Hc2).
    rewrite (@stack1_slice_mid (map (state_part 0) hyps) S0 i (state_part 0 x) E0).
    2:{ apply Forall_map, Forall_forall. intros y Hy.
        apply (composite_state_hists (Hwf y Hy)). }
    2:{ rewrite nth_error_map, Hx. reflexivity. }
    rewrite (@stack1_slice_mid (map (state_part 1) hyps) S1 i (state_part 1 x) E1).
    2:{ apply Forall_map, Forall_forall. intros y Hy.
        apply (composite_state_hists (Hwf y Hy)). }
    2:{ rewrite nth_error_map, Hx. reflexivity. }
    rewrite (@stack0_slice_row (map (state_part 2) hyps) S2 i (state_part 2 x) E2 Hc2).
    2:{ rewrite nth_error_map, Hx. reflexivity. }
    cbn [bind]. rewrite Hh. reflexivity.
Qed.

(** [pack_unpack_round_trip] on two hypotheses with composite state: after
    flattening, unpacking returns the two states and the two last tokens. *)
Lemma pack_unpack_round_trip_witness :
  let st1 := PTuple [PTensor (Nest [Nest [Scalar 1]]); PTensor (Nest [Nest [Scalar 2]]);
                     PTensor (Nest [Scalar 3])] in
  let st2 := PTuple [PTensor (Nest [Nest [Scalar 4]]); PTensor (Nest [Nest [Scalar 5]]);
                     PTensor (Nest [Scalar 6])] in
  exists topks,
    _unpack_topk (unsqueeze1 (Nest [Scalar 5%Z; Scalar 7%Z]))
                 (Nest [Nest [Scalar 0]; Nest [Scalar 0]])
                 (PTuple [PTensor (Nest [Nest [Nest [Scalar 1]; Nest [Scalar 4]]]);
                          PTensor (Nest [Nest [Nest [Scalar 2]; Nest [Scalar 5]]]);
                          PTensor (Nest [Nest [Scalar 3]; Nest [Scalar 6]])])
                 None
    = Ok (topks, [Nest [Scalar 0]; Nest [Scalar 0]], [st1; st2], None) /\
    mapM item topks = Ok [5%Z; 7%Z].
Proof.
  cbv zeta.
  refine (proj2 pack_unpack_round_trip
            [mkHypothesis [0; 5]%Z (-(1))
               (PTuple [PTensor (Nest [Nest [Scalar 1]]); PTensor (Nest [Nest [Scalar 2]]);
                        PTensor (Nest [Scalar 3])]) [] None;
             mkHypothesis [0; 7]%Z (-(2))
               (PTuple [PTensor (Nest [Nest [Scalar 4]]); PTensor (Nest [Nest [Scalar 5]]);
                        PTensor (Nest [Scalar 6])]) [] None]
            (Nest [Scalar 5%Z; Scalar 7%Z])
            (Nest [Nest [Nest [Scalar 1]; Nest [Scalar 4]]])
            (Nest [Nest [Nest [Scalar 2]; Nest [Scalar 5]]])
            (Nest [Nest [Scalar 3]; Nest [Scalar 6]])
            (Nest [Nest [Scalar 0]; Nest [Scalar 0]])
            [Nest [Scalar 0]; Nest [Scalar 0]]
            eq_refl _ eq_refl).
  repeat constructor; do 3 eexists; repeat split; reflexivity.
Defined.

(** C4 as stated fails.  In the composite convention [pack_beam] returns the
    pair [((h, c), out)], of length 2, which [_unpack_topk] takes for a single
    tensor and cannot slice; the packed tokens, of one dimension, are not a
    top-k tensor; a single tensor whose first dimension is 3 is taken for a
    triple; and an empty list of hypotheses cannot be packed. *)
Lemma pack_then_unpack_raises :
  let c1 := mkHypothesis [0; 5]%Z (-(1))
              (PTuple [PTensor (Nest [Nest [Scalar 1]]); PTensor (Nest [Nest [Scalar 2]]);
                       PTensor (Nest [Scalar 3])]) [] None in
  let c2 := mkHypothesis [0; 7]%Z (-(2))
              (PTuple [PTensor (Nest [Nest [Scalar 4]]); PTensor (Nest [Nest [Scalar 5]]);
                       PTensor (Nest [Scalar 6])]) [] None in
  let t1 := mkHypothesis [0; 5]%Z (-(1))
              (PTensor (Nest [Nest [Scalar 1]; Nest [Scalar 2]; Nest [Scalar 3]]))
              [] None in
  let lp := Nest [Nest [Scalar 0]; Nest [Scalar 0]] in
  let token := Nest [Scalar 5%Z; Scalar 7%Z] in
  let states :=
    PTuple [PTuple [PTensor (Nest [Nest [Nest [Scalar 1]; Nest [Scalar 4]]]);
                    PTensor (Nest [Nest [Nest [Scalar 2]; Nest [Scalar 5]]])];
            PTensor (Nest [Nest [Scalar 3]; Nest [Scalar 6]])] in
  let states1 :=
    PTensor (Nest [Nest [Nest [Scalar 1]]; Nest [Nest [Scalar 2]]; Nest [Nest [Scalar 3]]]) in
  pack_beam [c1; c2] false = Ok (token, states) /\
  _unpack_topk (unsqueeze1 token) lp states None = Raise TypeError /\
  _unpack_topk token lp states None = Raise ValueError /\
  pack_beam [t1] true = Ok (Nest [Scalar 5%Z], states1) /\
  _unpack_topk (unsqueeze1 (Nest [Scalar 5%Z])) lp states1 None = Raise IndexError /\
  pack_beam [] true = Raise RuntimeError /\
  pack_beam [] false = Raise RuntimeError.
Proof. cbv zeta. repeat split; reflexivity. Qed.

(** * Further properties of the module *)

(** ** More on trigram repetition *)

(** A repeated trigram is a run of three tokens found at two positions. *)
Lemma repeat_tri_positions (s : list token) :
  _has_repeat_tri s = true <->
  exists i j, (i < j)%nat /\ (j + 3 <= length s)%nat /\
              slice s i (i + 3) = slice s j (j + 3).
Proof.
  rewrite has_repeat_tri_count. split.
  - intros (g & Hg).
    apply count_occ_two_positions in Hg as (i & j & Hij & Hi & Hj).
    rewrite nth_error_tri_grams in Hi, Hj.
    destruct (j + 3 <=? length s)%nat eqn:Ej; [|discriminate].
    destruct (i + 3 <=? length s)%nat eqn:Ei; [|discriminate].
    apply Nat.leb_le in Ej.
    exists i, j. repeat split; [exact Hij | exact Ej | congruence].
  - intros (i & j & Hij & Hj & Heq).
    exists (slice s i (i + 3)).
    apply count_occ_two_positions. exists i, j.
    rewrite !nth_error_tri_grams.
    replace (i + 3 <=? length s)%nat with true by (symmetry; apply Nat.leb_le; lia).
    replace (j + 3 <=? length s)%nat with true by (symmetry; apply Nat.leb_le; lia).
    repeat split; [exact Hij | rewrite Heq; reflexivity].
Qed.

Lemma slice_app_l {A : Type} (s t : list A) (i j : nat) :
  (j <= length s)%nat -> slice (s ++ t) i j = slice s i j.
Proof.
  intros Hj. unfold slice.
  destruct (le_lt_dec i j) as [Hij|Hij].
  - rewrite skipn_app, firstn_app, length_skipn.
    replace (j - i - (length s - i))%nat with 0%nat by lia.
    replace (i - length s)%nat with 0%nat by lia.
    simpl. rewrite app_nil_r. reflexivity.
  - replace (j - i)%nat with 0%nat by lia. reflexivity.
Qed.

(** X1. Once a sequence repeats a trigram, every extension of it does: a
    hypothesis that is flagged stays flagged in all its descendants. *)
Theorem has_repeat_tri_extension :
  forall s t : list token,
    _has_repeat_tri s = true -> _has_repeat_tri (s ++ t) = true.
Proof.
  intros s t H. apply repeat_tri_positions in H as (i & j & Hij & Hj & Heq).
  apply repeat_tri_positions. exists i, j.
  rewrite length_app, !slice_app_l by lia.
  repeat split; [exact Hij | lia | exact Heq].
Qed.

Lemma has_repeat_tri_extension_witness :
  _has_repeat_tri ([1; 2; 3; 1; 2; 3] ++ [7; 8])%Z = true.
Proof. exact (has_repeat_tri_extension [1; 2; 3; 1; 2; 3]%Z [7; 8]%Z eq_refl). Defined.

(** X2. A sequence of fewer than four tokens never repeats a trigram, and
    overlapping trigrams count: four equal tokens in a row, anywhere in a
    sequence, are a repetition. *)
Theorem has_repeat_tri_short_and_overlap :
  (forall s : list token, (length s < 4)%nat -> _has_repeat_tri s = false) /\
  (forall (p q : list token) (a : token),
      _has_repeat_tri (p ++ [a; a; a; a] ++ q) = true).
Proof.
  split.
  - intros s Hs. apply not_true_iff_false. intros H.
    apply repeat_tri_positions in H as (i & j & Hij & Hj & _). lia.
  - intros p q a. apply repeat_tri_positions.
    exists (length p), (S (length p)).
    rewrite !length_app. simpl length.
    repeat split; try lia.
    unfold slice.
    replace (length p + 3 - length p)%nat with 3%nat by lia.
    replace (S (length p) + 3 - S (length p))%nat with 3%nat by lia.
    replace (S (length p)) with (length p + 1)%nat by lia.
    rewrite !skipn_app.
    rewrite (@skipn_all2 _ (length p) p), (@skipn_all2 _ (length p + 1) p) by lia.
    replace (length p - length p)%nat with 0%nat by lia.
    replace (length p + 1 - length p)%nat with 1%nat by lia.
    reflexivity.
Qed.

Lemma has_repeat_tri_short_and_overlap_witness :
  _has_repeat_tri [4; 4; 4]%Z = false.
Proof. apply (proj1 has_repeat_tri_short_and_overlap). simpl. lia. Defined.

(** ** The comparison of hypotheses *)

Lemma mean_score_value (h : _Hypothesis) :
  sequence h <> [] -> mean_score h = Ok (logprob h / len_Q (sequence h)).
Proof.
  intros Hne. unfold mean_score, py_div. rewrite (len_Q_nonzero Hne). reflexivity.
Qed.

Lemma mean_score_empty (h : _Hypothesis) :
  sequence h = [] -> mean_score h = Raise ZeroDivisionError.
Proof. intros H. unfold mean_score. rewrite H. reflexivity. Qed.

(** X3. [a < b] on hypotheses raises ZeroDivisionError when either has an
    empty sequence; otherwise it holds exactly when [a] has the strictly
    higher plain mean.  On hypotheses with tokens it is a strict order:
    irreflexive, asymmetric and transitive. *)
Theorem lt_is_reversed_strict_order :
  (forall a b,
      sequence a = [] \/ sequence b = [] ->
      __lt__ a b = Raise ZeroDivisionError) /\
  (forall a b,
      sequence a <> [] -> sequence b <> [] ->
      (__lt__ a b = Ok true <->
       logprob b / len_Q (sequence b) < logprob a / len_Q (sequence a)) /\
      (__lt__ a b = Ok true \/ __lt__ a b = Ok false)) /\
  (forall a, __lt__ a a <> Ok true) /\
  (forall a b, __lt__ a b = Ok true -> __lt__ b a = Ok false) /\
  (forall a b c,
      __lt__ a b = Ok true -> __lt__ b c = Ok true -> __lt__ a c = Ok true).
Proof.
  assert (Hval : forall a b sa sb,
             mean_score a = Ok sa -> mean_score b = Ok sb ->
             __lt__ a b = Ok (Qlt_bool sb sa)).
  { intros a b sa sb Ha Hb. unfold __lt__. rewrite Hb, Ha. reflexivity. }
  assert (Hinv : forall a b, __lt__ a b = Ok true ->
             exists sa sb, mean_score a = Ok sa /\ mean_score b = Ok sb /\ sb < sa).
  { intros a b H. unfold __lt__ in H.
    destruct (mean_score b) as [sb|e]; simpl in H; [|discriminate].
    destruct (mean_score a) as [sa|e]; simpl in H; [|discriminate].
    inversion H as [E]. exists sa, sb. repeat split. apply Qlt_bool_iff, E. }
  split; [|split; [|split; [|split]]].
  - intros a b [Ha|Hb]; unfold __lt__.
    + destruct (mean_score b) as [sb|e] eqn:Eb; simpl.
      * rewrite (mean_score_empty _ Ha). reflexivity.
      * unfold mean_score, py_div in Eb.
        destruct (Qeq_bool _ _); [inversion Eb; reflexivity | discriminate].
    + rewrite (mean_score_empty _ Hb). reflexivity.
  - intros a b Ha Hb.
    rewrite (Hval a b _ _ (mean_score_value _ Ha) (mean_score_value _ Hb)).
    split.
    + split; intros H.
      * inversion H as [E]. apply Qlt_bool_iff, E.
      * apply Qlt_bool_iff in H. rewrite H. reflexivity.
    + destruct (Qlt_bool _ _); auto.
  - intros a H. apply Hinv in H as (sa & sb & Ha & Hb & Hlt).
    rewrite Ha in Hb. inversion Hb; subst. apply (Qlt_irrefl _ Hlt).
  - intros a b H. apply Hinv in H as (sa & sb & Ha & Hb & Hlt).
    rewrite (Hval b a _ _ Hb Ha). f_equal.
    apply not_true_iff_false. intros E. apply Qlt_bool_iff in E.
    apply (Qlt_irrefl sa). eapply Qlt_trans; eassumption.
  - intros a b c H1 H2.
    apply Hinv in H1 as (sa & sb & Ha & Hb & Hab).
    apply Hinv in H2 as (sb' & sc & Hb' & Hc & Hbc).
    rewrite Hb in Hb'. inversion Hb'; subst sb'.
    rewrite (Hval a c _ _ Ha Hc). f_equal.
    apply Qlt_bool_iff. eapply Qlt_trans; eassumption.
Qed.

Lemma lt_is_reversed_strict_order_witness :
  __lt__ (mkHypothesis [0; 5]%Z (-(1)) (PTuple []) [] None)
         (mkHypothesis [0; 4; 6]%Z (-(9)) (PTuple []) [] None) = Ok true.
Proof.
  exact (proj2 (proj2 (proj2 (proj2 lt_is_reversed_strict_order)))
           (mkHypothesis [0; 5]%Z (-(1)) (PTuple []) [] None)
           (mkHypothesis [0; 4]%Z (-(4)) (PTuple []) [] None)
           (mkHypothesis [0; 4; 6]%Z (-(9)) (PTuple []) [] None)
           eq_refl eq_refl).
Defined.

(** ** More on the final selection *)

(** X4. [best_sequence] raises IndexError when the beam is given but empty,
    and when both the finished list is empty and the beam omitted.  With an
    empty finished list it returns the first hypothesis of the beam without
    computing any score; on the initial beam that is the empty sequence.
    With both lists non-empty it raises ZeroDivisionError when either first
    hypothesis has an empty sequence. *)
Theorem best_sequence_edges :
  (forall finished, best_sequence finished (Some []) = Raise IndexError) /\
  best_sequence [] None = Raise IndexError /\
  (forall b0 bs, best_sequence [] (Some (b0 :: bs)) = Ok (best_of b0)) /\
  (forall start hs, best_sequence [] (Some (init_beam start hs)) = Ok (BestSeq [])) /\
  (forall f0 fs b0 bs,
      sequence f0 = [] \/ sequence b0 = [] ->
      best_sequence (f0 :: fs) (Some (b0 :: bs)) = Raise ZeroDivisionError).
Proof.
  split; [|split; [|split; [|split]]].
  - intros [|f0 fs]; reflexivity.
  - reflexivity.
  - intros b0 bs. unfold best_sequence, best_of. simpl.
    destruct (nonempty (attns b0)); reflexivity.
  - reflexivity.
  - intros f0 fs b0 bs H. unfold best_sequence, __lt__. simpl.
    destruct H as [H|H].
    + rewrite (mean_score_empty _ H). reflexivity.
    + destruct (mean_score f0) as [sf|e] eqn:Ef; simpl.
      * rewrite (mean_score_empty _ H). reflexivity.
      * unfold mean_score, py_div in Ef.
        destruct (Qeq_bool _ _); [inversion Ef; reflexivity | discriminate].
Qed.

Lemma best_sequence_edges_witness :
  best_sequence [mkHypothesis [] (-(1)) (PTuple []) [] None]
                (Some [mkHypothesis [0; 5]%Z (-(1)) (PTuple []) [] None])
  = Raise ZeroDivisionError.
Proof.
  exact (proj2 (proj2 (proj2 (proj2 best_sequence_edges)))
           (mkHypothesis [] (-(1)) (PTuple []) [] None) []
           (mkHypothesis [0; 5]%Z (-(1)) (PTuple []) [] None) []
           (or_introl eq_refl)).
Defined.

(** X5. Whatever [best_sequence] returns is read off the first hypothesis of
    the finished list or of the beam: its sequence without the first token,
    together with its attention history exactly when that is not empty.  No
    other entry of either list is looked at. *)
Theorem best_sequence_reads_heads :
  (forall finished beam r,
      best_sequence finished beam = Ok r ->
      exists h,
        (hd_error finished = Some h \/
         exists b, beam = Some b /\ hd_error b = Some h) /\
        r = best_of h) /\
  (forall f0 fs b0 bs,
      best_sequence (f0 :: fs) (Some (b0 :: bs)) = best_sequence [f0] (Some [b0])) /\
  (forall f0 fs, best_sequence (f0 :: fs) None = Ok (best_of f0)).
Proof.
  split; [|split].
  - intros finished beam r H. unfold best_sequence in H.
    match type of H with
    | bind ?c _ = _ => destruct c as [h|e] eqn:Ec; simpl in H; [|discriminate]
    end.
    exists h. split.
    + destruct beam as [b|].
      * destruct (if nonempty finished then _ else _) as [[|]|e];
          simpl in Ec; try discriminate.
        -- left. destruct finished; [discriminate | inversion Ec; reflexivity].
        -- right. exists b. split; [reflexivity|].
           destruct b; [discriminate | inversion Ec; reflexivity].
      * left. destruct finished; [discriminate | inversion Ec; reflexivity].
    + unfold best_of. destruct (nonempty (attns h)); inversion H; reflexivity.
  - reflexivity.
  - intros f0 fs. unfold best_sequence, best_of. simpl.
    destruct (nonempty (attns f0)); reflexivity.
Qed.

Lemma best_sequence_reads_heads_witness :
  exists h,
    (hd_error [mkHypothesis [0; 4]%Z (-(4)) (PTuple []) [Nest [Scalar 1]] None] = Some h \/
     exists b, Some [mkHypothesis [0; 5]%Z (-(1)) (PTuple []) [] None] = Some b /\
               hd_error b = Some h) /\
    BestSeqAttns [4%Z] [Nest [Scalar 1]] = best_of h.
Proof.
  exact (proj1 best_sequence_reads_heads
           [mkHypothesis [0; 4]%Z (-(4)) (PTuple []) [Nest [Scalar 1]] None]
           (Some [mkHypothesis [0; 5]%Z (-(1)) (PTuple []) [] None])
           (BestSeqAttns [4%Z] [Nest [Scalar 1]]) eq_refl).
Defined.

(** ** Seeding a beam *)

Lemma nth_error_combine_inv {A B : Type} (xs : list A) (ys : list B) (i : nat)
  (x : A) (y : B) :
  nth_error (combine xs ys) i = Some (x, y) ->
  nth_error xs i = Some x /\ nth_error ys i = Some y.
Proof.
  revert ys i. induction xs as [|x0 xs IH]; intros ys i H.
  - destruct i; discriminate.
  - destruct ys as [|y0 ys]; [destruct i; discriminate|].
    destruct i as [|i]; simpl in *.
    + inversion H. auto.
    + apply IH, H.
Qed.

(** The first exception of a traversal is the one raised. *)
Lemma mapM_first_raise {A B : Type} (f : A -> result B) (l1 l2 : list A) (x : A)
  (e : exn) :
  Forall (fun y => exists b, f y = Ok b) l1 -> f x = Raise e ->
  mapM f (l1 ++ x :: l2) = Raise e.
Proof.
  induction 1 as [|y l1 [b Hb] _ IH]; intros Hx; simpl.
  - rewrite Hx. reflexivity.
  - rewrite Hb. simpl. rewrite (IH Hx). reflexivity.
Qed.

(** X6. [create_beam] on [k] candidate tokens and at least [k]
    log-probabilities returns [k] hypotheses, the i-th the one-token sequence
    of token [i] with score [lp[i]], the given state and no attention;
    log-probabilities past the k-th are ignored.  With fewer than [k]
    log-probabilities, and on a 0-d token tensor, it raises IndexError. *)
Theorem create_beam_spec :
  (forall toks lps hs,
      (length toks <= length lps)%nat ->
      create_beam (Nest (map Scalar toks)) (Nest (map Scalar lps)) hs
      = Ok (map (fun p => mkHypothesis [fst p] (snd p) hs [] None)
                (combine toks lps))) /\
  (forall toks lps hs,
      (length lps < length toks)%nat ->
      create_beam (Nest (map Scalar toks)) (Nest (map Scalar lps)) hs
      = Raise IndexError) /\
  (forall x lp hs, create_beam (Scalar x) lp hs = Raise IndexError).
Proof.
  assert (Hsize : forall toks : list Z,
             exists rest, tensor_size (Nest (map Scalar toks)) = length toks :: rest).
  { intros [|t toks]; simpl; [exists []; reflexivity|].
    rewrite length_map. eexists; reflexivity. }
  split; [|split].
  - intros toks lps hs Hlen. unfold create_beam.
    destruct (Hsize toks) as [rest ->].
    replace (length toks) with (length (combine toks lps))
      by (rewrite length_combine; lia).
    apply mapM_seq_nth. intros i [t l] Hi.
    apply nth_error_combine_inv in Hi as [Ht Hl]. simpl.
    unfold getitem. rewrite !nth_error_map, Ht, Hl. reflexivity.
  - intros toks lps hs Hlen. unfold create_beam.
    destruct (Hsize toks) as [rest ->].
    replace (length toks) with (length lps + S (length toks - S (length lps)))%nat
      by lia.
    rewrite seq_app. simpl seq.
    apply mapM_first_raise.
    + apply Forall_forall. intros i Hi. apply in_seq in Hi. simpl.
      destruct (nth_error toks i) as [t|] eqn:Et.
      2:{ apply nth_error_None in Et. lia. }
      destruct (nth_error lps i) as [l|] eqn:El.
      2:{ apply nth_error_None in El. lia. }
      unfold getitem. rewrite !nth_error_map, Et, El. simpl.
      eexists; reflexivity.
    + simpl.
      destruct (nth_error toks (length lps)) as [t|] eqn:Et.
      2:{ apply nth_error_None in Et. lia. }
      unfold getitem. rewrite !nth_error_map, Et. simpl.
      replace (nth_error lps (length lps)) with (@None Q)
        by (symmetry; apply nth_error_None; lia).
      reflexivity.
  - reflexivity.
Qed.

Lemma create_beam_spec_witness :
  create_beam (Nest (map Scalar [5; 7]%Z))
              (Nest (map Scalar [-(1 # 2); -(1 # 4); -(3)])) (PTuple [])
  = Ok [mkHypothesis [5%Z] (-(1 # 2)) (PTuple []) [] None;
        mkHypothesis [7%Z] (-(1 # 4)) (PTuple []) [] None].
Proof.
  apply (proj1 create_beam_spec [5; 7]%Z [-(1 # 2); -(1 # 4); -(3)] (PTuple [])).
  simpl. lia.
Defined.

(** ** Attention in [extend_k] *)

Lemma tensor_add_vectors (cs ds : list Q) :
  length cs = length ds ->
  tensor_add (Nest (map Scalar cs)) (Nest (map Scalar ds))
  = Ok (Nest (map Scalar (map (fun p => fst p + snd p) (combine cs ds)))).
Proof.
  revert ds. induction cs as [|c cs IH]; intros [|d ds] Hlen; try discriminate.
  - reflexivity.
  - simpl in Hlen. injection Hlen as Hlen. specialize (IH ds Hlen).
    simpl in IH |- *.
    match type of IH with
    | bind ?g _ = _ => destruct g as [rs|e]; simpl in IH |- *; [|discriminate]
    end.
    inversion IH. reflexivity.
Qed.

(** X7. With an attention row [a], every child [extend_k] returns has the
    parent's attention history with [a] appended, the new state, and as
    coverage [a] itself when the parent had none, the sum of the parent's
    coverage and [a] otherwise; on vectors of equal length that sum is taken
    entry by entry.  When the sum raises, so does the call. *)
Theorem extend_k_with_attention :
  (forall self topk lp hs a d children,
      extend_k self topk lp hs (Some a) d = Ok children ->
      exists cov,
        match coverage self with
        | None => cov = a
        | Some c => tensor_add c a = Ok cov
        end /\
        Forall (fun ch => attns ch = attns self ++ [a] /\
                          coverage ch = Some cov /\ hists ch = hs) children) /\
  (forall self topk lp hs a d c e,
      coverage self = Some c -> tensor_add c a = Raise e ->
      extend_k self topk lp hs (Some a) d = Raise e) /\
  (forall cs ds,
      length cs = length ds ->
      tensor_add (Nest (map Scalar cs)) (Nest (map Scalar ds))
      = Ok (Nest (map Scalar (map (fun p => fst p + snd p) (combine cs ds))))).
Proof.
  split; [|split].
  - intros self topk lp hs a d children H. unfold extend_k in H.
    destruct (match coverage self with None => Ok a | Some c => tensor_add c a end)
      as [cov|e] eqn:Ecov; simpl in H; [|discriminate].
    destruct (tensor_iter topk) as [ts|e]; simpl in H; [|discriminate].
    destruct (tensor_iter lp) as [ls|e]; simpl in H; [|discriminate].
    exists cov. split.
    + destruct (coverage self); [exact Ecov | inversion Ecov; reflexivity].
    + eapply mapM_ok_Forall; [|exact H].
      intros [i [t l]] y _ Hy. simpl in Hy.
      destruct (item t); simpl in Hy; [|discriminate].
      destruct (item l); simpl in Hy; [|discriminate].
      inversion Hy. simpl. auto.
  - intros self topk lp hs a d c e Hc Hadd. unfold extend_k.
    rewrite Hc, Hadd. reflexivity.
  - exact tensor_add_vectors.
Qed.

Lemma extend_k_with_attention_witness :
  exists cov,
    tensor_add (Nest [Scalar (1 # 2); Scalar (1 # 2)])
               (Nest [Scalar (1 # 4); Scalar (3 # 4)]) = Ok cov /\
    Forall (fun ch => attns ch = [Nest [Scalar (1 # 2); Scalar (1 # 2)]]
                                 ++ [Nest [Scalar (1 # 4); Scalar (3 # 4)]] /\
                      coverage ch = Some cov /\ hists ch = PTuple [])
           [mkHypothesis [0; 3; 5]%Z (-(1) + -(1 # 10) - 1 * inject_Z (Z.of_nat 0))
              (PTuple [])
              [Nest [Scalar (1 # 2); Scalar (1 # 2)]; Nest [Scalar (1 # 4); Scalar (3 # 4)]]
              (Some (Nest [Scalar ((1 # 2) + (1 # 4)); Scalar ((1 # 2) + (3 # 4))]))].
Proof.
  exact (proj1 extend_k_with_attention
           (mkHypothesis [0; 3]%Z (-(1)) (PTuple [])
                         [Nest [Scalar (1 # 2); Scalar (1 # 2)]]
                         (Some (Nest [Scalar (1 # 2); Scalar (1 # 2)])))
           (Nest [Scalar 5%Z]) (Nest [Scalar (-(1 # 10))]) (PTuple [])
           (Nest [Scalar (1 # 4); Scalar (3 # 4)]) 1 _ eq_refl).
Defined.

(** ** Unpacking and packing *)

Lemma mapM_ok_Forall2 {A B : Type} (f : A -> result B) (xs : list A) (ys : list B) :
  mapM f xs = Ok ys -> Forall2 (fun x y => f x = Ok y) xs ys.
Proof.
  revert ys. induction xs as [|x xs IH]; intros ys H; simpl in H.
  - inversion H. constructor.
  - destruct (f x) as [y|e] eqn:Ey; simpl in H; [|discriminate].
    destruct (mapM f xs) as [ys'|e] eqn:Eys; simpl in H; [|discriminate].
    inversion H; subst. constructor; [exact Ey | apply IH; reflexivity].
Qed.

Lemma mapM_raise_same {A B : Type} (f : A -> result B) (xs : list A) (e : exn) :
  Exists (fun x => f x = Raise e) xs ->
  Forall (fun x => forall e', f x = Raise e' -> e' = e) xs ->
  mapM f xs = Raise e.
Proof.
  induction xs as [|x xs IH]; intros Hex Hall; [inversion Hex|].
  inversion Hall as [|? ? Hx Hxs]; subst. simpl.
  destruct (f x) as [y|e'] eqn:Ey; simpl.
  - inversion Hex as [? ? Hbad|? ? Hrest]; subst; [congruence|].
    rewrite (IH Hrest Hxs). reflexivity.
  - rewrite (Hx e' eq_refl). reflexivity.
Qed.

Lemma tensor_size_rows {A : Type} (t : tensor A) (b k : nat) :
  tensor_size t = [b; k] -> forall rows, tensor_iter t = Ok rows -> length rows = b.
Proof.
  destruct t as [x|[|r rows]]; simpl; try discriminate.
  intros H rows' Hr. inversion Hr; subst. inversion H. reflexivity.
Qed.

(** What [_unpack_topk] has done when it returns. *)
Lemma unpack_topk_inv (topk : tensor Z) (lp : tensor Q) (hs : pyval)
  (attn : option (tensor Q)) (topks : list (tensor Z)) (lps : list (tensor Q))
  (hl : list pyval) (oa : option (list (tensor Q))) :
  _unpack_topk topk lp hs attn = Ok (topks, lps, hl, oa) ->
  exists k,
    tensor_size topk = [length topks; k] /\
    tensor_iter topk = Ok topks /\ tensor_iter lp = Ok lps /\
    length hl = length topks /\
    match attn with
    | None => oa = None
    | Some a => exists ats, oa = Some ats /\ length ats = length topks /\
                            Forall2 (fun i r => tensor_getitem a i = Ok r)
                                    (seq 0 (length topks)) ats
    end.
Proof.
  unfold _unpack_topk. intros H.
  destruct (tensor_size topk) as [|b [|k [|? ?]]] eqn:Esz; try discriminate.
  destruct (tensor_iter topk) as [ts|err] eqn:Ets; simpl in H; [|discriminate].
  pose proof (tensor_size_rows _ Esz Ets) as Hb.
  destruct (tensor_iter lp) as [ls|err]; simpl in H; [|discriminate].
  destruct (py_len hs) as [n|err]; simpl in H; [|discriminate].
  match type of H with
  | bind ?c _ = _ => destruct c as [kh|err] eqn:Ekh; simpl in H; [|discriminate]
  end.
  assert (Hkh : length kh = b).
  { destruct (n =? 3)%nat; apply mapM_ok_length in Ekh;
      rewrite Ekh, length_seq; reflexivity. }
  destruct attn as [a|].
  - match type of H with
    | bind ?c _ = _ => destruct c as [ats|err] eqn:Eats; simpl in H; [|discriminate]
    end.
    inversion H; subst. exists k. repeat split; auto.
    exists ats. split; [reflexivity|]. split.
    + apply mapM_ok_length in Eats. rewrite Eats, length_seq. reflexivity.
    + apply mapM_ok_Forall2, Eats.
  - inversion H; subst. exists k. repeat split; auto.
Qed.

(** X8. When [_unpack_topk] returns, the top-k tensor had exactly two
    dimensions, and the lists of token rows, of states and (when attention
    was given) of attention rows all have the length of its first dimension;
    an attention list is returned exactly when attention was given.  The rows
    of the log-probabilities are passed on as they are, whatever their
    number.  A top-k tensor of another number of dimensions raises
    ValueError. *)
Theorem unpack_topk_lengths :
  (forall topk lp hs attn topks lps hl oa,
      _unpack_topk topk lp hs attn = Ok (topks, lps, hl, oa) ->
      (exists k, tensor_size topk = [length topks; k]) /\
      tensor_iter lp = Ok lps /\
      length hl = length topks /\
      (attn = None <-> oa = None) /\
      (forall ats, oa = Some ats -> length ats = length topks)) /\
  (forall topk lp hs attn,
      length (tensor_size topk) <> 2%nat ->
      _unpack_topk topk lp hs attn = Raise ValueError).
Proof.
  split.
  - intros topk lp hs attn topks lps hl oa H.
    apply unpack_topk_inv in H as (k & Hsz & _ & Hlp & Hhl & Hattn).
    split; [exists k; exact Hsz|]. split; [exact Hlp|]. split; [exact Hhl|].
    destruct attn as [a|].
    + destruct Hattn as (ats & -> & Hlen & _). split.
      * split; discriminate.
      * intros ats' E. inversion E; subst. exact Hlen.
    + subst oa. split; [tauto | discriminate].
  - intros topk lp hs attn Hn. unfold _unpack_topk.
    destruct (tensor_size topk) as [|b [|k [|? ?]]]; simpl in Hn;
      try reflexivity; congruence.
Qed.

Lemma unpack_topk_lengths_witness :
  _unpack_topk (Nest [Scalar 5%Z; Scalar 7%Z])
               (Nest [Nest [Scalar 0]]) (PTuple []) None
  = Raise ValueError.
Proof.
  apply (proj2 unpack_topk_lengths). simpl. discriminate.
Defined.

(** X9. When [pack_beam] returns, in either convention, the token batch has
    one entry per hypothesis, the last token of that hypothesis, and the list
    of hypotheses was not empty.  A hypothesis with an empty sequence makes it
    raise IndexError, and an empty list RuntimeError. *)
Theorem pack_beam_tokens :
  (forall hyps use_t5 token states,
      pack_beam hyps use_t5 = Ok (token, states) ->
      hyps <> [] /\
      exists toks,
        token = Nest (map Scalar toks) /\ length toks = length hyps /\
        Forall2 (fun h t => last_item (sequence h) = Ok t) hyps toks) /\
  (forall hyps use_t5,
      Exists (fun h => sequence h = []) hyps ->
      pack_beam hyps use_t5 = Raise IndexError) /\
  (forall use_t5, pack_beam [] use_t5 = Raise RuntimeError).
Proof.
  split; [|split].
  - intros hyps use_t5 token states H. unfold pack_beam in H.
    destruct (mapM (fun h => last_item (sequence h)) hyps) as [toks|err] eqn:Etoks;
      simpl in H; [|discriminate].
    split.
    + intros ->. destruct use_t5; simpl in H; discriminate.
    + exists toks.
      assert (Htok : token = Nest (map Scalar toks)).
      { destruct use_t5.
        - match type of H with
          | bind ?c _ = _ => destruct c as [ts|e]; simpl in H; [|discriminate]
          end.
          destruct (torch_stack ts 1); simpl in H; [|discriminate].
          inversion H. reflexivity.
        - destruct (stack_part hyps 0 1); simpl in H; [|discriminate].
          destruct (stack_part hyps 1 1); simpl in H; [|discriminate].
          destruct (stack_part hyps 2 0); simpl in H; [|discriminate].
          inversion H. reflexivity. }
      split; [exact Htok|]. split.
      * eapply mapM_ok_length, Etoks.
      * apply mapM_ok_Forall2, Etoks.
  - intros hyps use_t5 Hex. unfold pack_beam.
    rewrite mapM_raise_same with (e := IndexError); [reflexivity | |].
    + eapply Exists_impl; [|exact Hex]. intros h Hh. cbv beta in Hh.
      rewrite Hh. reflexivity.
    + apply Forall_forall. intros h _ e' He'.
      destruct (sequence h); simpl in He'; [inversion He'; reflexivity | discriminate].
  - intros [|]; reflexivity.
Qed.

Lemma pack_beam_tokens_witness :
  pack_beam [mkHypothesis [0; 5]%Z (-(1)) (PTensor (Nest [Nest [Scalar 1]])) [] None;
             mkHypothesis [] (-(2)) (PTensor (Nest [Nest [Scalar 2]])) [] None] true
  = Raise IndexError.
Proof.
  apply (proj1 (proj2 pack_beam_tokens)).
  apply Exists_cons_tl, Exists_cons_hd. reflexivity.
Defined.

(** X10. Called without attention, [next_search_beam] and
    [next_search_beam_cnn] never return: [_unpack_topk] then gives three
    values where four are unpacked, so the call raises ValueError as soon as
    the unpacking itself has gone through. *)
Theorem next_search_beam_needs_attention :
  forall float_pow beam beam_size finished end_tok topk lp hs diverse,
    (exists err,
        next_search_beam float_pow beam beam_size finished end_tok
                         topk lp hs None diverse = Raise err) /\
    (exists err,
        next_search_beam_cnn beam beam_size finished end_tok
                             topk lp hs None diverse = Raise err) /\
    (forall u,
        _unpack_topk topk lp hs None = Ok u ->
        next_search_beam float_pow beam beam_size finished end_tok
                         topk lp hs None diverse = Raise ValueError /\
        next_search_beam_cnn beam beam_size finished end_tok
                             topk lp hs None diverse = Raise ValueError).
Proof.
  intros fp beam bs finished e topk lp hs d.
  unfold next_search_beam, next_search_beam_cnn.
  destruct (_unpack_topk topk lp hs None) as [[[[topks lps] hl] oa]|err] eqn:Eu.
  - apply unpack_topk_inv in Eu as (k & _ & _ & _ & _ & ->). simpl.
    split; [eexists; reflexivity|]. split; [eexists; reflexivity|].
    intros u0 _. split; reflexivity.
  - simpl.
    split; [eexists; reflexivity|]. split; [eexists; reflexivity|].
    intros u0 Hu0. discriminate.
Qed.

(** ** More on one call of the beam cleaning *)

Lemma removelast_last_item {A : Type} (x : A) (xs : list A) :
  x :: xs = removelast (x :: xs) ++ [last xs x].
Proof.
  assert (Hlast : forall (ys : list A) (y d : A), last (y :: ys) d = last ys y).
  { induction ys as [|z zs IH]; intros y d; [reflexivity|].
    change (last (y :: z :: zs) d) with (last (z :: zs) d).
    rewrite (IH z d), (IH z y). reflexivity. }
  rewrite <- (Hlast xs x x). apply app_removelast_last. discriminate.
Qed.

Lemma ends_with_true_split (e : token) (h : _Hypothesis) :
  ends_with e h = true -> sequence h = removelast (sequence h) ++ [e].
Proof.
  unfold ends_with, last_item. destruct (sequence h) as [|x xs] eqn:E; [discriminate|].
  intros H. apply Z.eqb_eq in H. rewrite <- H.
  apply removelast_last_item.
Qed.

Lemma In_pad_first (hs : list _Hypothesis) (n : nat) (h : _Hypothesis) :
  In h (pad_first hs n) -> hd_error hs = Some h.
Proof.
  destruct hs as [|h0 t]; simpl; [contradiction|].
  intros H. apply repeat_spec in H. subst. reflexivity.
Qed.

Lemma In_padded (hs : list _Hypothesis) (n : nat) (h : _Hypothesis) :
  In h (hs ++ pad_first hs n) -> In h hs.
Proof.
  intros H. apply in_app_or in H as [H|H]; [exact H|].
  apply In_pad_first in H. destruct hs; [discriminate|].
  inversion H. left. reflexivity.
Qed.

(** The entries of the new beam and the new entries of the finished list,
    for either variant, in terms of the candidates of the pool. *)
Lemma clean_beam_members (float_pow : Q -> Q -> Q)
  (finished beam : list _Hypothesis) (e : token) (bs : nat) (rt : bool)
  (fin nb : list _Hypothesis) :
  _clean_beam float_pow finished beam e bs rt = Ok (fin, nb) ->
  Forall (fun h => ends_with e h = false /\ exists c, In c beam /\ h = penalize rt c) nb /\
  exists promoted,
    Permutation fin (finished ++ map (promote coverage) promoted) /\
    Forall (fun h => ends_with e h = true /\ exists c, In c beam /\ h = penalize rt c)
           promoted.
Proof.
  intros H. apply clean_beam_inv in H as (st & Hrun & -> & ->).
  apply clean_beam_run_spec in Hrun
    as (pool & k & Hp & _ & _ & _ & _ & Hperm & _ & Hnb & _).
  cbv zeta in Hnb. destruct (sorted_reverse_spec _ _ Hp) as [Hpb _].
  assert (Hmem : forall P h,
             In h (filter P (map (penalize rt) (firstn k pool))) ->
             P h = true /\ exists c, In c beam /\ h = penalize rt c).
  { intros P h Hin. apply filter_In in Hin as [Hin HP]. split; [exact HP|].
    apply in_map_iff in Hin as (c & <- & Hc). exists c. split; [|reflexivity].
    apply (Permutation_in _ Hpb). eapply In_firstn, Hc. }
  split.
  - rewrite Hnb. apply Forall_forall. intros h Hin. apply In_padded in Hin.
    apply Hmem in Hin as [HP Hc]. apply negb_true_iff in HP. auto.
  - eexists. split; [exact Hperm|].
    apply Forall_forall. intros h Hin. apply Hmem in Hin. exact Hin.
Qed.

Lemma clean_beam_cnn_members (finished beam : list _Hypothesis) (e : token)
  (bs : nat) (rt : bool) (fin nb : list _Hypothesis) :
  _clean_beam_cnn finished beam e bs rt = Ok (fin, nb) ->
  Forall (fun h => ends_with e h = false /\ excluded rt h = false /\ In h beam) nb /\
  exists promoted,
    Permutation fin (finished ++ map (promote (fun _ => None)) promoted) /\
    Forall (fun h => ends_with e h = true /\ excluded rt h = false /\ In h beam)
           promoted.
Proof.
  intros H. apply clean_beam_cnn_inv in H as (st & Hrun & -> & ->).
  apply clean_beam_cnn_run_spec in Hrun
    as (pool & k & Hp & _ & _ & _ & _ & Hperm & _ & Hnb & _).
  cbv zeta in Hnb, Hperm. destruct (sorted_reverse_spec _ _ Hp) as [Hpb _].
  assert (Hmem : forall P h,
             In h (filter P (filter (fun h => negb (excluded rt h)) (firstn k pool))) ->
             P h = true /\ excluded rt h = false /\ In h beam).
  { intros P h Hin. apply filter_In in Hin as [Hin HP]. split; [exact HP|].
    apply filter_In in Hin as [Hin Hx]. apply negb_true_iff in Hx.
    split; [exact Hx|]. apply (Permutation_in _ Hpb). eapply In_firstn, Hin. }
  split.
  - rewrite Hnb. apply Forall_forall. intros h Hin. apply In_padded in Hin.
    apply Hmem in Hin as [HP Hc]. apply negb_true_iff in HP. auto.
  - eexists. split; [exact Hperm|].
    apply Forall_forall. intros h Hin. apply Hmem in Hin. exact Hin.
Qed.

(** X11. In both variants no hypothesis of the returned new beam ends with
    the end token, and each one is a candidate of the pool, at most with its
    score overwritten by the sentinel. *)
Theorem new_beam_never_ends :
  forall float_pow finished beam end_tok beam_size remove_tri fin nb,
    _clean_beam float_pow finished beam end_tok beam_size remove_tri = Ok (fin, nb) \/
    _clean_beam_cnn finished beam end_tok beam_size remove_tri = Ok (fin, nb) ->
    Forall (fun h => ends_with end_tok h = false /\
                     exists c, In c beam /\ h = penalize remove_tri c) nb.
Proof.
  intros fp finished beam e bs rt fin nb [H|H].
  - apply clean_beam_members in H as [H _]. exact H.
  - apply clean_beam_cnn_members in H as [H _].
    eapply Forall_impl; [|exact H]. intros h (He & Hx & Hin).
    split; [exact He|]. exists h. split; [exact Hin|].
    symmetry. apply penalize_not_excluded, Hx.
Qed.

Lemma new_beam_never_ends_witness :
  Forall (fun h => ends_with 9%Z h = false /\
                   exists c,
                     In c [mkHypothesis [0; 5; 6]%Z (-(2)) (PTuple []) [] None;
                           mkHypothesis [0; 4; 9]%Z (-(1)) (PTuple []) [] None] /\
                     h = penalize true c)
         [mkHypothesis [0; 5; 6]%Z (-(2)) (PTuple []) [] None;
          mkHypothesis [0; 5; 6]%Z (-(2)) (PTuple []) [] None].
Proof.
  exact (new_beam_never_ends pow_linear
           [mkHypothesis [0; 1]%Z (-(3)) (PTuple []) [] None]
           [mkHypothesis [0; 5; 6]%Z (-(2)) (PTuple []) [] None;
            mkHypothesis [0; 4; 9]%Z (-(1)) (PTuple []) [] None]
           9%Z 2 true
           (fin := [mkHypothesis [0; 4]%Z (-(1)) (PTuple []) [] None;
                    mkHypothesis [0; 1]%Z (-(3)) (PTuple []) [] None])
           (or_intror eq_refl)).
Defined.

(** X12. In both variants the finished list only grows: the returned list
    is a rearrangement of the list passed in together with the candidates
    promoted in this call, and each promoted entry is a pool candidate that
    ended with the end token, with that token removed. *)
Theorem finished_only_grows :
  forall float_pow finished beam end_tok beam_size remove_tri fin nb,
    _clean_beam float_pow finished beam end_tok beam_size remove_tri = Ok (fin, nb) \/
    _clean_beam_cnn finished beam end_tok beam_size remove_tri = Ok (fin, nb) ->
    (length finished <= length fin)%nat /\
    (forall h, In h finished -> In h fin) /\
    exists promoted,
      Permutation (map sequence fin) (map sequence finished ++ map sequence promoted) /\
      Forall (fun p => exists c, In c beam /\ sequence c = sequence p ++ [end_tok])
             promoted.
Proof.
  intros fp finished beam e bs rt fin nb H.
  assert (Hgen : exists cov promoted,
             Permutation fin (finished ++ map (promote cov) promoted) /\
             Forall (fun h => ends_with e h = true /\ exists c, In c beam /\
                              sequence h = sequence c) promoted).
  { destruct H as [H|H].
    - apply clean_beam_members in H as [_ (pr & Hperm & Hpr)].
      exists coverage, pr. split; [exact Hperm|].
      eapply Forall_impl; [|exact Hpr]. intros h (He & c & Hc & ->).
      split; [exact He|]. exists c. split; [exact Hc | apply sequence_penalize].
    - apply clean_beam_cnn_members in H as [_ (pr & Hperm & Hpr)].
      exists (fun _ => None), pr. split; [exact Hperm|].
      eapply Forall_impl; [|exact Hpr]. intros h (He & _ & Hin).
      split; [exact He|]. exists h. auto. }
  destruct Hgen as (cov & pr & Hperm & Hpr).
  split; [|split].
  - rewrite (Permutation_length Hperm), length_app. lia.
  - intros h Hin. apply (Permutation_in _ (Permutation_sym Hperm)).
    apply in_or_app. left. exact Hin.
  - exists (map (promote cov) pr). split.
    + rewrite <- map_app. apply Permutation_map, Hperm.
    + apply Forall_map. eapply Forall_impl; [|exact Hpr].
      intros h (He & c & Hc & Hseq). exists c. split; [exact Hc|].
      simpl. rewrite <- Hseq. apply ends_with_true_split, He.
Qed.

Lemma finished_only_grows_witness :
  (length [mkHypothesis [0; 1]%Z (-(3)) (PTuple []) [] None] <=
   length [mkHypothesis [0; 4]%Z (-(1)) (PTuple []) [] None;
           mkHypothesis [0; 1]%Z (-(3)) (PTuple []) [] None])%nat.
Proof.
  exact (proj1 (finished_only_grows pow_linear
           [mkHypothesis [0; 1]%Z (-(3)) (PTuple []) [] None]
           [mkHypothesis [0; 5; 6]%Z (-(2)) (PTuple []) [] None;
            mkHypothesis [0; 4; 9]%Z (-(1)) (PTuple []) [] None]
           9%Z 2 true
           (nb := [mkHypothesis [0; 5; 6]%Z (-(2)) (PTuple []) [] None;
                   mkHypothesis [0; 5; 6]%Z (-(2)) (PTuple []) [] None])
           (or_introl eq_refl))).
Defined.

(** X13. In [_clean_beam] with [remove_tri] set, a hypothesis of the new beam
    that repeats a trigram carries the score -1e9, and one that does not is a
    candidate of the pool with its score untouched.  With [remove_tri] unset,
    in both variants, every hypothesis of the new beam is a candidate of the
    pool as it was passed in. *)
Theorem sentinel_in_new_beam :
  (forall float_pow finished beam end_tok beam_size fin nb,
      _clean_beam float_pow finished beam end_tok beam_size true = Ok (fin, nb) ->
      Forall (fun h =>
                (_has_repeat_tri (sequence h) = true -> logprob h = -(1000000000 # 1)) /\
                (_has_repeat_tri (sequence h) = false -> In h beam)) nb) /\
  (forall float_pow finished beam end_tok beam_size fin nb,
      _clean_beam float_pow finished beam end_tok beam_size false = Ok (fin, nb) \/
      _clean_beam_cnn finished beam end_tok beam_size false = Ok (fin, nb) ->
      Forall (fun h => In h beam) nb).
Proof.
  split.
  - intros fp finished beam e bs fin nb H.
    apply clean_beam_members in H as [H _].
    eapply Forall_impl; [|exact H]. intros h (_ & c & Hc & ->).
    rewrite sequence_penalize. split; intros Hrep.
    + rewrite (penalize_repeat _ Hrep). reflexivity.
    + rewrite penalize_not_excluded; [exact Hc | exact Hrep].
  - intros fp finished beam e bs fin nb [H|H].
    + apply clean_beam_members in H as [H _].
      eapply Forall_impl; [|exact H]. intros h (_ & c & Hc & ->). exact Hc.
    + apply clean_beam_cnn_members in H as [H _].
      eapply Forall_impl; [|exact H]. intros h (_ & _ & Hin). exact Hin.
Qed.

Lemma sentinel_in_new_beam_witness :
  Forall (fun h =>
            (_has_repeat_tri (sequence h) = true -> logprob h = -(1000000000 # 1)) /\
            (_has_repeat_tri (sequence h) = false ->
             In h [mkHypothesis [0; 5; 6]%Z (-(2)) (PTuple []) [] None;
                   mkHypothesis [0; 1; 2; 3; 1; 2; 3]%Z (-(1)) (PTuple []) [] None]))
         [mkHypothesis [0; 1; 2; 3; 1; 2; 3]%Z sentinel (PTuple []) [] None;
          mkHypothesis [0; 5; 6]%Z (-(2)) (PTuple []) [] None].
Proof.
  exact (proj1 sentinel_in_new_beam pow_linear []
           [mkHypothesis [0; 5; 6]%Z (-(2)) (PTuple []) [] None;
            mkHypothesis [0; 1; 2; 3; 1; 2; 3]%Z (-(1)) (PTuple []) [] None]
           9%Z 2%nat [] _ eq_refl).
Defined.

(** X14. On an empty pool both variants raise IndexError for every
    [beam_size >= 1], before the finished list is looked at; for
    [beam_size = 0] they return the sorted finished list and an empty beam. *)
Theorem clean_beam_empty_pool :
  (forall float_pow finished end_tok beam_size remove_tri,
      (1 <= beam_size)%nat ->
      _clean_beam float_pow finished [] end_tok beam_size remove_tri = Raise IndexError /\
      _clean_beam_cnn finished [] end_tok beam_size remove_tri = Raise IndexError) /\
  (forall float_pow finished end_tok remove_tri,
      _clean_beam float_pow finished [] end_tok 0 remove_tri
      = (fin <- sorted_reverse mean_score finished ;; Ok (fin, [])) /\
      _clean_beam_cnn finished [] end_tok 0 remove_tri
      = (fin <- sorted_reverse mean_score finished ;; Ok (fin, []))).
Proof.
  split.
  - intros fp finished e bs rt Hbs.
    destruct bs as [|bs]; [lia|]. split; reflexivity.
  - intros fp finished e rt.
    unfold _clean_beam, _clean_beam_cnn, _clean_beam_run, _clean_beam_cnn_run,
      finish_step. simpl.
    destruct (sorted_reverse mean_score finished); split; reflexivity.
Qed.

Lemma clean_beam_empty_pool_witness :
  _clean_beam pow_linear [mkHypothesis [] 0 (PTuple []) [] None] [] 9%Z 3 true
  = Raise IndexError.
Proof.
  apply (proj1 clean_beam_empty_pool pow_linear). lia.
Defined.

(** ** Ranking *)

Lemma StronglySorted_app_inv {A : Type} (R : A -> A -> Prop) (l1 l2 : list A) :
  StronglySorted R (l1 ++ l2) ->
  StronglySorted R l1 /\ StronglySorted R l2 /\
  (forall a b, In a l1 -> In b l2 -> R a b).
Proof.
  induction l1 as [|x l1 IH]; simpl; intros H.
  - split; [constructor|]. split; [exact H|]. intros a b [].
  - inversion H as [|? ? Hs Hall]; subst.
    destruct (IH Hs) as (H1 & H2 & H12).
    apply Forall_app in Hall as [Ha1 Ha2].
    split; [constructor; assumption|]. split; [exact H2|].
    intros a b [<-|Ha] Hb.
    + rewrite Forall_forall in Ha2. apply Ha2, Hb.
    + apply H12; assumption.
Qed.

Lemma StronglySorted_filter {A : Type} (R : A -> A -> Prop) (P : A -> bool)
  (l : list A) :
  StronglySorted R l -> StronglySorted R (filter P l).
Proof.
  induction 1 as [|x l Hs IH Hall]; simpl; [constructor|].
  destruct (P x); [|exact IH]. constructor; [exact IH|].
  rewrite Forall_forall in *. intros y Hy. apply filter_In in Hy as [Hy _].
  apply Hall, Hy.
Qed.

Lemma sorted_reverse_defined (key : _Hypothesis -> result Q)
  (xs ys : list _Hypothesis) :
  sorted_reverse key xs = Ok ys ->
  Forall (fun h => exists k, key h = Ok k) xs.
Proof.
  unfold sorted_reverse. intros H.
  destruct (mapM key xs) as [ks|e] eqn:Eks; simpl in H; [|discriminate].
  apply mapM_ok_Forall2 in Eks. clear H.
  induction Eks; constructor; eauto.
Qed.

(** X15. In [_clean_beam_cnn] with [beam_size >= 1] the first hypothesis of
    the new beam has the highest plain mean of the new beam, and every
    hypothesis of the new beam has a plain mean at least that of every
    candidate the loop did not reach. *)
Theorem cnn_new_beam_best_first :
  forall finished beam end_tok beam_size remove_tri st,
    (1 <= beam_size)%nat ->
    _clean_beam_cnn_run finished beam end_tok beam_size remove_tri = Ok st ->
    (exists h0, hd_error (ls_new_beam st) = Some h0 /\
                Forall (fun h => score_ge mean_score h0 h) (ls_new_beam st)) /\
    exists pool k,
      sorted_reverse mean_score beam = Ok pool /\
      ls_visited st = map (penalize remove_tri) (firstn k pool) /\
      Forall (fun a => Forall (fun c => score_ge mean_score a c) (skipn k pool))
             (ls_new_beam st).
Proof.
  intros finished beam e bs rt st Hbs Hrun.
  apply clean_beam_cnn_run_spec in Hrun
    as (pool & k & Hp & _ & _ & Hv & _ & _ & _ & Hnb & Hacc).
  cbv zeta in Hnb, Hacc. destruct (Hacc Hbs) as [Hne _].
  destruct (sorted_reverse_spec _ _ Hp) as [Hpb Hsorted].
  pose proof (sorted_reverse_defined _ _ Hp) as Hdef.
  unfold sorted_by in Hsorted. rewrite <- (firstn_skipn k pool) in Hsorted.
  destruct (@StronglySorted_app_inv _ _ _ _ Hsorted) as (Hs1 & _ & H12).
  set (acc := filter (fun h => negb (ends_with e h))
                (filter (fun h => negb (excluded rt h)) (firstn k pool))) in *.
  assert (Hsacc : StronglySorted (score_ge mean_score) acc).
  { apply StronglySorted_filter, StronglySorted_filter, Hs1. }
  assert (Hin : forall h, In h acc -> In h (firstn k pool)).
  { intros h Hh. apply filter_In in Hh as [Hh _].
    apply filter_In in Hh as [Hh _]. exact Hh. }
  split.
  - destruct acc as [|h0 t] eqn:Eacc; [congruence|].
    exists h0. rewrite Hnb. split; [reflexivity|].
    inversion Hsacc as [|? ? _ Hall]; subst.
    assert (Hrefl : score_ge mean_score h0 h0).
    { rewrite Forall_forall in Hdef.
      destruct (Hdef h0) as [k0 Hk0].
      - apply (Permutation_in _ Hpb). eapply In_firstn, Hin. left. reflexivity.
      - exists k0, k0. repeat split; auto. apply Qle_refl. }
    apply Forall_app. split; [constructor; assumption|].
    simpl. apply Forall_forall. intros h Hh. apply repeat_spec in Hh. subst. exact Hrefl.
  - exists pool, k. split; [exact Hp|]. split; [exact Hv|].
    rewrite Hnb. apply Forall_forall. intros a Ha. apply In_padded in Ha.
    apply Forall_forall. intros c Hc. apply H12; [apply Hin, Ha | exact Hc].
Qed.

Lemma cnn_new_beam_best_first_witness :
  exists h0,
    hd_error [mkHypothesis [0; 4; 6]%Z (-(1)) (PTuple []) [] None;
              mkHypothesis [0; 5; 6]%Z (-(2)) (PTuple []) [] None] = Some h0 /\
    Forall (fun h => score_ge mean_score h0 h)
           [mkHypothesis [0; 4; 6]%Z (-(1)) (PTuple []) [] None;
            mkHypothesis [0; 5; 6]%Z (-(2)) (PTuple []) [] None].
Proof.
  refine (proj1 (@cnn_new_beam_best_first []
                   [mkHypothesis [0; 7; 6]%Z (-(3)) (PTuple []) [] None;
                    mkHypothesis [0; 5; 6]%Z (-(2)) (PTuple []) [] None;
                    mkHypothesis [0; 4; 6]%Z (-(1)) (PTuple []) [] None]
                   9%Z 2%nat true
                   (mkLoop true []
                      [mkHypothesis [0; 4; 6]%Z (-(1)) (PTuple []) [] None;
                       mkHypothesis [0; 5; 6]%Z (-(2)) (PTuple []) [] None]
                      [mkHypothesis [0; 4; 6]%Z (-(1)) (PTuple []) [] None;
                       mkHypothesis [0; 5; 6]%Z (-(2)) (PTuple []) [] None])
                   _ eq_refl)).
  lia.
Defined.

(** ** The finished list across steps *)

Lemma sort_desc_sorted_id {A : Type} (l : list (Q * A)) :
  StronglySorted key_ge l -> sort_desc l = l.
Proof.
  induction 1 as [|kx l Hs IH Hall]; simpl; [reflexivity|].
  rewrite IH. destruct l as [|ky l']; [reflexivity|]. simpl.
  inversion Hall as [|? ? Hy _]; subst. unfold key_ge in Hy.
  apply Qle_bool_iff in Hy. rewrite Hy. reflexivity.
Qed.

(** Sorting a list that is already in descending order leaves it as it is. *)
Lemma sorted_reverse_sorted_id (key : _Hypothesis -> result Q)
  (xs ys : list _Hypothesis) :
  sorted_reverse key xs = Ok ys -> sorted_by key xs -> ys = xs.
Proof.
  unfold sorted_reverse, sorted_by. intros H Hs.
  destruct (mapM key xs) as [ks|e] eqn:Eks; simpl in H; [|discriminate].
  inversion H; subst ys. clear H.
  destruct (mapM_ok_combine _ _ Eks) as [HF Hm].
  rewrite sort_desc_sorted_id; [exact Hm|]. clear Hm.
  revert ks Eks HF. induction Hs as [|x xs Hs IH Hall]; intros ks Eks HF.
  - simpl in Eks. inversion Eks. constructor.
  - simpl in Eks.
    destruct (key x) as [k|e] eqn:Ek; simpl in Eks; [|discriminate].
    destruct (mapM key xs) as [ks'|e] eqn:Eks'; simpl in Eks; [|discriminate].
    inversion Eks; subst ks. simpl in HF |- *.
    inversion HF as [|? ? _ HF']; subst.
    constructor; [apply IH; [reflexivity | exact HF']|].
    apply Forall_forall. intros [k' x'] Hin.
    rewrite Forall_forall in HF', Hall.
    pose proof (HF' _ Hin) as Hk'. simpl in Hk'.
    apply in_combine_r in Hin.
    destruct (Hall _ Hin) as (ka & kb & Ha & Hb & Hle).
    unfold key_ge. simpl. congruence.
Qed.

Lemma finish_step_inv (bs : nat) (st st' : loop_state) :
  finish_step bs st = Ok st' ->
  sorted_reverse mean_score (ls_finished st) = Ok (ls_finished st').
Proof.
  unfold finish_step. intros H.
  match type of H with
  | bind ?c _ = _ => destruct c as [nb|e]; simpl in H; [|discriminate]
  end.
  destruct (sorted_reverse mean_score (ls_finished st)) as [fin|e];
    simpl in H; [|discriminate].
  inversion H. reflexivity.
Qed.

(** The finished list before the final sort, for either variant. *)
Lemma clean_beam_finished_inv (float_pow : Q -> Q -> Q)
  (finished beam : list _Hypothesis) (e : token) (bs : nat) (rt : bool)
  (fin nb : list _Hypothesis) :
  _clean_beam float_pow finished beam e bs rt = Ok (fin, nb) \/
  _clean_beam_cnn finished beam e bs rt = Ok (fin, nb) ->
  exists promoted,
    sorted_reverse mean_score (finished ++ promoted) = Ok fin /\
    Forall (fun p => exists c, In c beam /\ ends_with e c = true) promoted.
Proof.
  intros [H|H].
  - apply clean_beam_inv in H as (st & Hrun & -> & _).
    unfold _clean_beam_run in Hrun.
    destruct (sorted_reverse (wu_score float_pow) beam) as [pool|err] eqn:Epool;
      simpl in Hrun; [|discriminate].
    destruct (clean_loop e bs rt pool finished [] []) as [st0|err] eqn:Eloop;
      simpl in Hrun; [|discriminate].
    destruct (clean_loop_spec _ _ _ _ _ _ _ Eloop) as (k & _ & _ & _ & Hf & _).
    apply finish_step_inv in Hrun. rewrite Hf in Hrun.
    eexists. split; [exact Hrun|].
    destruct (sorted_reverse_spec _ _ Epool) as [Hpb _].
    apply Forall_map, Forall_forall. intros h Hin.
    apply filter_In in Hin as [Hin He].
    apply in_map_iff in Hin as (c & <- & Hc).
    exists c. split.
    + apply (Permutation_in _ Hpb). eapply In_firstn, Hc.
    + rewrite ends_with_penalize in He. exact He.
  - apply clean_beam_cnn_inv in H as (st & Hrun & -> & _).
    unfold _clean_beam_cnn_run in Hrun.
    destruct (sorted_reverse mean_score beam) as [pool|err] eqn:Epool;
      simpl in Hrun; [|discriminate].
    destruct (clean_loop_cnn e bs rt pool finished [] []) as [st0|err] eqn:Eloop;
      simpl in Hrun; [|discriminate].
    destruct (clean_loop_cnn_spec _ _ _ _ _ _ _ Eloop) as (k & _ & _ & _ & Hf & _).
    apply finish_step_inv in Hrun. rewrite Hf in Hrun.
    eexists. split; [exact Hrun|].
    destruct (sorted_reverse_spec _ _ Epool) as [Hpb _].
    apply Forall_map, Forall_forall. intros h Hin.
    apply filter_In in Hin as [Hin He].
    apply filter_In in Hin as [Hin _].
    exists h. split; [|exact He].
    apply (Permutation_in _ Hpb). eapply In_firstn, Hin.
Qed.

(** X16. A step that promotes nothing hands back a sorted finished list
    unchanged: when the finished list passed in is in descending order of the
    plain mean, as every step returns it, and no candidate of the pool ends
    with the end token, the finished list returned is the one passed in, in
    both variants. *)
Theorem finished_unchanged_without_promotion :
  forall float_pow finished beam end_tok beam_size remove_tri fin nb,
    sorted_by mean_score finished ->
    Forall (fun h => ends_with end_tok h = false) beam ->
    _clean_beam float_pow finished beam end_tok beam_size remove_tri = Ok (fin, nb) \/
    _clean_beam_cnn finished beam end_tok beam_size remove_tri = Ok (fin, nb) ->
    fin = finished.
Proof.
  intros fp finished beam e bs rt fin nb Hsorted Hnone H.
  apply clean_beam_finished_inv in H as (promoted & Hfin & Hpr).
  assert (promoted = []).
  { destruct promoted as [|p ps]; [reflexivity|].
    inversion Hpr as [|? ? (c & Hc & He) _]; subst.
    rewrite Forall_forall in Hnone. rewrite (Hnone c Hc) in He. discriminate. }
  subst promoted. rewrite app_nil_r in Hfin.
  eapply sorted_reverse_sorted_id; eassumption.
Qed.

Lemma finished_unchanged_without_promotion_witness :
  [mkHypothesis [0; 4]%Z (-(1)) (PTuple []) [] None;
   mkHypothesis [0; 1]%Z (-(3)) (PTuple []) [] None]
  = [mkHypothesis [0; 4]%Z (-(1)) (PTuple []) [] None;
     mkHypothesis [0; 1]%Z (-(3)) (PTuple []) [] None].
Proof.
  refine (@finished_unchanged_without_promotion pow_linear
            [mkHypothesis [0; 4]%Z (-(1)) (PTuple []) [] None;
             mkHypothesis [0; 1]%Z (-(3)) (PTuple []) [] None]
            [mkHypothesis [0; 5; 6]%Z (-(2)) (PTuple []) [] None]
            9%Z 1%nat true _
            [mkHypothesis [0; 5; 6]%Z (-(2)) (PTuple []) [] None]
            _ _ (or_introl eq_refl)).
  - repeat constructor.
    exists (-(1) / len_Q [0; 4]%Z), (-(3) / len_Q [0; 1]%Z).
    repeat split. unfold Qle. simpl. lia.
  - repeat constructor.
Defined.

(** X17. Scores need tokens.  A candidate with an empty sequence makes
    [_clean_beam_cnn] raise ZeroDivisionError, and a finished hypothesis with
    an empty sequence keeps both variants from returning. *)
Theorem empty_sequences_raise :
  (forall finished beam end_tok beam_size remove_tri,
      Exists (fun h => sequence h = []) beam ->
      _clean_beam_cnn finished beam end_tok beam_size remove_tri
      = Raise ZeroDivisionError) /\
  (forall float_pow finished beam end_tok beam_size remove_tri r,
      Exists (fun h => sequence h = []) finished ->
      _clean_beam float_pow finished beam end_tok beam_size remove_tri <> Ok r /\
      _clean_beam_cnn finished beam end_tok beam_size remove_tri <> Ok r).
Proof.
  split.
  - intros finished beam e bs rt Hex.
    unfold _clean_beam_cnn, _clean_beam_cnn_run, sorted_reverse.
    rewrite mapM_raise_same with (e := ZeroDivisionError); [reflexivity| |].
    + eapply Exists_impl; [|exact Hex]. intros h Hh. apply mean_score_empty, Hh.
    + apply Forall_forall. intros h _ e' He'. unfold mean_score, py_div in He'.
      destruct (Qeq_bool _ _); [inversion He'; reflexivity | discriminate].
  - intros fp finished beam e bs rt [fin nb] Hex.
    assert (Hno : _clean_beam fp finished beam e bs rt = Ok (fin, nb) \/
                  _clean_beam_cnn finished beam e bs rt = Ok (fin, nb) -> False).
    { intros H. apply clean_beam_finished_inv in H as (promoted & Hfin & _).
      apply sorted_reverse_defined in Hfin. apply Forall_app in Hfin as [Hfin _].
      apply Exists_exists in Hex as (h & Hin & Hh).
      rewrite Forall_forall in Hfin. destruct (Hfin h Hin) as [k Hk].
      rewrite (mean_score_empty _ Hh) in Hk. discriminate. }
    split; intros H; apply Hno; auto.
Qed.

Lemma empty_sequences_raise_witness :
  _clean_beam_cnn [] [mkHypothesis [0; 5; 6]%Z (-(2)) (PTuple []) [] None;
                      mkHypothesis [] 0 (PTuple []) [] None] 9%Z 1 true
  = Raise ZeroDivisionError.
Proof.
  apply (proj1 empty_sequences_raise).
  apply Exists_cons_tl, Exists_cons_hd. reflexivity.
Defined.

(** ** One step of the search *)

(** Every child in the pool of a step extends a hypothesis of the beam by one
    token. *)
Lemma extend_all_children (beam : list _Hypothesis) (topks : list (tensor Z))
  (lps : list (tensor Q)) (hl : list pyval) (ats : list (tensor Q)) (d : Q)
  (hyps_lists : list (list _Hypothesis)) :
  extend_all beam topks lps hl ats d = Ok hyps_lists ->
  Forall (fun c => exists parent t, In parent beam /\
                                    sequence c = sequence parent ++ [t])
         (concat hyps_lists).
Proof.
  unfold extend_all. intros H.
  apply Forall_concat.
  eapply mapM_ok_Forall; [|exact H].
  intros [i h] children Hin Hc. apply in_combine_r in Hin.
  destruct (getitem topks i) as [t|e]; simpl in Hc; [|discriminate].
  destruct (getitem lps i) as [l|e]; simpl in Hc; [|discriminate].
  destruct (getitem hl i) as [hs|e]; simpl in Hc; [|discriminate].
  destruct (getitem ats i) as [a|e]; simpl in Hc; [|discriminate].
  apply extend_k_unfold in Hc as (ats' & cov & ts & ls & _ & _ & _ & _ & Hc).
  eapply mapM_ok_Forall; [|exact Hc].
  intros [j [tt ll]] y _ Hy. simpl in Hy.
  destruct (item tt) as [tv|e]; simpl in Hy; [|discriminate].
  destruct (item ll) as [lv|e]; simpl in Hy; [|discriminate].
  inversion Hy. simpl. exists h, tv. auto.
Qed.

Lemma ends_with_app (e t : token) (h : _Hypothesis) (s : list token) :
  sequence h = s ++ [t] -> ends_with e h = Z.eqb t e.
Proof.
  intros Hs. unfold ends_with, last_item. rewrite Hs.
  destruct (s ++ [t]) as [|x xs] eqn:E; [destruct s; discriminate|].
  assert (Hl : last xs x = t).
  { pose proof (removelast_last_item x xs) as Hx. rewrite <- E in Hx at 1.
    apply app_inj_tail in Hx as [_ Hx]. symmetry. exact Hx. }
  rewrite Hl. reflexivity.
Qed.

(** X18. When a step of the search returns, in either variant, every
    hypothesis of the new beam is a hypothesis of the old beam extended by one
    token other than the end token, and every sequence added to the finished
    list is the sequence of a hypothesis of the old beam: a child that ended
    with the end token, with that token removed. *)
Theorem step_extends_parents :
  forall float_pow beam beam_size finished end_tok topk lp hs attn diverse fin nb,
    next_search_beam float_pow beam beam_size finished end_tok
                     topk lp hs attn diverse = Ok (fin, nb) \/
    next_search_beam_cnn beam beam_size finished end_tok
                         topk lp hs attn diverse = Ok (fin, nb) ->
    Forall (fun h => exists parent t,
                In parent beam /\ sequence h = sequence parent ++ [t] /\
                t <> end_tok) nb /\
    exists added,
      Permutation (map sequence fin) (map sequence finished ++ added) /\
      Forall (fun s => exists parent, In parent beam /\ s = sequence parent) added.
Proof.
  intros fp beam bs finished e topk lp hs attn d fin nb H.
  assert (Hgen : exists pool cov promoted,
             Forall (fun c => exists parent t, In parent beam /\
                                sequence c = sequence parent ++ [t]) pool /\
             Forall (fun h => ends_with e h = false /\
                              exists c, In c pool /\ sequence h = sequence c) nb /\
             Permutation fin (finished ++ map (promote cov) promoted) /\
             Forall (fun h => ends_with e h = true /\
                              exists c, In c pool /\ sequence h = sequence c) promoted).
  { destruct H as [H|H].
    - apply next_search_beam_inv in H as (? & ? & ? & ? & hl & _ & Hext & H).
      apply clean_beam_members in H as [Hnb (pr & Hperm & Hpr)].
      exists (concat hl), coverage, pr.
      split; [eapply extend_all_children, Hext|]. split; [|split].
      + eapply Forall_impl; [|exact Hnb]. intros h (He & c & Hc & ->).
        split; [exact He|]. exists c. split; [exact Hc | apply sequence_penalize].
      + exact Hperm.
      + eapply Forall_impl; [|exact Hpr]. intros h (He & c & Hc & ->).
        split; [exact He|]. exists c. split; [exact Hc | apply sequence_penalize].
    - apply next_search_beam_cnn_inv in H as (? & ? & ? & ? & hl & _ & Hext & H).
      apply clean_beam_cnn_members in H as [Hnb (pr & Hperm & Hpr)].
      exists (concat hl), (fun _ => None), pr.
      split; [eapply extend_all_children, Hext|]. split; [|split].
      + eapply Forall_impl; [|exact Hnb]. intros h (He & _ & Hin).
        split; [exact He|]. exists h. auto.
      + exact Hperm.
      + eapply Forall_impl; [|exact Hpr]. intros h (He & _ & Hin).
        split; [exact He|]. exists h. auto. }
  destruct Hgen as (pool & cov & pr & Hpool & Hnb & Hperm & Hpr).
  rewrite Forall_forall in Hpool.
  split.
  - eapply Forall_impl; [|exact Hnb]. intros h (He & c & Hc & Hseq).
    destruct (Hpool c Hc) as (parent & t & Hp & Hs).
    exists parent, t. rewrite Hseq. split; [exact Hp|]. split; [exact Hs|].
    rewrite <- Hseq in Hs. rewrite (@ends_with_app e t h _ Hs) in He.
    apply Z.eqb_neq, He.
  - exists (map sequence (map (promote cov) pr)). split.
    + rewrite <- map_app. apply Permutation_map, Hperm.
    + rewrite map_map. apply Forall_map.
      eapply Forall_impl; [|exact Hpr]. intros h (He & c & Hc & Hseq).
      destruct (Hpool c Hc) as (parent & t & Hp & Hs).
      exists parent. split; [exact Hp|]. simpl.
      rewrite Hseq, Hs. apply removelast_last.
Qed.

Lemma step_extends_parents_witness :
  Forall (fun h => exists parent t,
              In parent [mkHypothesis [0]%Z 0 (PTensor (Nest [])) [] None] /\
              sequence h = sequence parent ++ [t] /\ t <> 9%Z)
         [mkHypothesis [0; 5]%Z (-(1 # 2)) (PTensor (Nest [Nest [Scalar 1]]))
                       [Nest [Scalar 1]] (Some (Nest [Scalar 1]))].
Proof.
  exact (proj1 (step_extends_parents pow_linear
           [mkHypothesis [0]%Z 0 (PTensor (Nest [])) [] None] 1 [] 9%Z
           (Nest [Nest [Scalar 5%Z]])
           (Nest [Nest [Scalar (-(1 # 2))]])
           (PTensor (Nest [Nest [Nest [Scalar 1]]]))
           (Some (Nest [Nest [Scalar 1]])) 1
           (fin := []) (or_introl eq_refl))).
Defined.

(** X19. [next_search_beam_cnn] treats batch sizes as [next_search_beam]
    does: with more hypotheses in the beam than rows in the top-k output it
    raises, and otherwise it reads the first [len(beam)] unpacked rows only. *)
Theorem next_search_beam_cnn_batch_sizes :
  (forall beam beam_size finished end_tok rows lp hs attn diverse,
      (length rows < length beam)%nat ->
      exists err,
        next_search_beam_cnn beam beam_size finished end_tok
                             (Nest rows) lp hs attn diverse = Raise err) /\
  (forall beam beam_size finished end_tok diverse
          topk lp hs attn topks lps hl ats
          topk' lp' hs' attn' topks' lps' hl' ats',
      _unpack_topk topk lp hs (Some attn) = Ok (topks, lps, hl, Some ats) ->
      _unpack_topk topk' lp' hs' (Some attn') = Ok (topks', lps', hl', Some ats') ->
      firstn (length beam) topks = firstn (length beam) topks' ->
      firstn (length beam) lps = firstn (length beam) lps' ->
      firstn (length beam) hl = firstn (length beam) hl' ->
      firstn (length beam) ats = firstn (length beam) ats' ->
      next_search_beam_cnn beam beam_size finished end_tok
                           topk lp hs (Some attn) diverse =
      next_search_beam_cnn beam beam_size finished end_tok
                           topk' lp' hs' (Some attn') diverse).
Proof.
  split.
  - intros beam bs finished e rows lp hs attn d Hlt. unfold next_search_beam_cnn.
    destruct (_unpack_topk (Nest rows) lp hs attn)
      as [[[[topks lps] hl] oa]|err] eqn:Eu; simpl; [|eexists; reflexivity].
    destruct (unpack_topk_rows _ _ _ _ Eu) as [Hrows _].
    simpl in Hrows. inversion Hrows; subst topks.
    destruct oa as [ats|]; simpl; [|eexists; reflexivity].
    destruct (nth_error beam (length rows)) as [h|] eqn:Eh.
    2:{ apply nth_error_None in Eh. lia. }
    destruct (@mapM_raise _ _
                (fun '(i, h) =>
                   t <- getitem rows i ;;
                   l <- getitem lps i ;;
                   hs0 <- getitem hl i ;;
                   a <- getitem ats i ;;
                   extend_k h t l hs0 (Some a) d)
                (enumerate beam) (length rows, h) IndexError) as [e' He'].
    + apply nth_error_In with (n := length rows).
      apply nth_error_enumerate, Eh.
    + unfold getitem at 1.
      replace (nth_error rows (length rows)) with (@None (tensor Z))
        by (symmetry; apply nth_error_None; lia).
      reflexivity.
    + unfold extend_all. rewrite He'. simpl. eexists; reflexivity.
  - intros beam bs finished e d topk lp hs attn topks lps hl ats
           topk' lp' hs' attn' topks' lps' hl' ats' Hu Hu' Ht Hl Hh Ha.
    unfold next_search_beam_cnn. rewrite Hu, Hu'. simpl.
    rewrite (extend_all_firstn beam topks), (extend_all_firstn beam topks').
    rewrite Ht, Hl, Hh, Ha. reflexivity.
Qed.

Lemma next_search_beam_cnn_batch_sizes_witness :
  exists err,
    next_search_beam_cnn
      [mkHypothesis [0]%Z 0 (PTensor (Nest [])) [] None;
       mkHypothesis [0]%Z 0 (PTensor (Nest [])) [] None] 1 [] 9%Z
      (Nest [Nest [Scalar 5%Z]])
      (Nest [Nest [Scalar (-(1 # 2))]])
      (PTensor (Nest [Nest [Nest [Scalar 1]]]))
      (Some (Nest [Nest [Scalar 1]])) 1 = Raise err.
Proof.
  apply (proj1 next_search_beam_cnn_batch_sizes). simpl. lia.
Defined.

(** ** The coverage penalty *)

Lemma len_Q_cons {A : Type} (x : A) (xs : list A) :
  len_Q (x :: xs) == 1 + len_Q xs.
Proof.
  unfold len_Q. simpl length. rewrite Nat2Z.inj_succ, <- Z.add_1_l.
  rewrite inject_Z_plus. reflexivity.
Qed.

Lemma max_one_ge (x : Q) : 1 <= max_one x.
Proof.
  unfold max_one. destruct (Qle_bool x 1) eqn:E; [apply Qle_refl|].
  apply Qlt_le_weak, Qnot_le_lt. intros H. apply Qle_bool_iff in H. congruence.
Qed.

Lemma Qsum_max_one_ge (cs : list Q) (acc : Q) :
  acc + len_Q cs <= fold_left Qplus (map max_one cs) acc.
Proof.
  revert acc. induction cs as [|c cs IH]; intros acc.
  - change (len_Q (@nil Q)) with 0. simpl. lra.
  - simpl fold_left. eapply Qle_trans; [|apply IH].
    pose proof (max_one_ge c). rewrite len_Q_cons. lra.
Qed.

Lemma Qsum_max_one_eq (cs : list Q) (acc : Q) :
  Forall (fun c => c <= 1) cs ->
  fold_left Qplus (map max_one cs) acc == acc + len_Q cs.
Proof.
  intros H. revert acc. induction H as [|c cs Hc _ IH]; intros acc.
  - change (len_Q (@nil Q)) with 0. simpl. lra.
  - simpl fold_left. rewrite IH, len_Q_cons. unfold max_one.
    apply Qle_bool_iff in Hc. rewrite Hc. lra.
Qed.

(** X20. On a coverage vector [coverage_summary] returns
    [beta * (sum of max(c, 1) - length)].  For [beta >= 0] the penalty is not
    negative, and it is zero when no entry of the coverage exceeds 1.  A 0-d
    coverage raises IndexError. *)
Theorem coverage_summary_vector :
  (forall cs beta,
      exists p,
        coverage_summary (Nest (map Scalar cs)) beta = Ok (Scalar p) /\
        p = beta * (Qsum (map max_one cs) - len_Q cs) /\
        (0 <= beta -> 0 <= p) /\
        (Forall (fun c => c <= 1) cs -> p == 0)) /\
  (forall x beta, coverage_summary (Scalar x) beta = Raise IndexError).
Proof.
  split; [|reflexivity].
  intros cs beta. exists (beta * (Qsum (map max_one cs) - len_Q cs)).
  split; [|split; [reflexivity|split]].
  - unfold coverage_summary.
    assert (Hsz : tensor_size (Nest (map Scalar cs)) = [length cs]).
    { destruct cs; simpl; [reflexivity | rewrite length_map; reflexivity]. }
    rewrite Hsz. simpl last. simpl tensor_map at 2. rewrite map_map. simpl.
    assert (Hall : forallb is_scalar (map (fun x => Scalar (max_one x)) cs) = true).
    { apply forallb_forall. intros t Ht.
      apply in_map_iff in Ht as (c & <- & _). reflexivity. }
    rewrite Hall. simpl. rewrite map_map. reflexivity.
  - intros Hb. pose proof (Qsum_max_one_ge cs 0) as Hge. unfold Qsum.
    apply Qmult_le_0_compat; [exact Hb | lra].
  - intros Hle. unfold Qsum. rewrite (Qsum_max_one_eq 0 Hle). ring.
Qed.

Lemma coverage_summary_vector_witness :
  exists p,
    coverage_summary (Nest (map Scalar [1 # 2; 1; 1 # 4])) 5 = Ok (Scalar p) /\
    p == 0.
Proof.
  destruct (proj1 coverage_summary_vector [1 # 2; 1; 1 # 4] 5)
    as (p & Hp & _ & _ & Hz).
  exists p. split; [exact Hp|]. apply Hz.
  repeat constructor; unfold Qle; simpl; lia.
Defined.
